(** * Motex: a demoteable and promoteable exclusion lock

    Verification of the Go package [motex].  Two versions of the type
    [Motex] are covered: the one of [motex.go], built from a [sync.Mutex]
    [w] and a [sync.RWMutex] [r], and the one that adds the guard mutex
    [g], locked by [Demote] and unlocked by [Promote].

    The development has three layers:
    - the gates: [sync.Mutex] and [sync.RWMutex] as Go documents them
      (a call returns, blocks, or stops the process with a fatal error);
    - the six methods as the straight-line sequences of gate calls the
      source writes, with a sequential executor that records the calls
      that returned;
    - goroutines sharing one [Motex] and one integer, interleaved one
      gate step at a time. *)

From stdpp Require Import base list strings.
From Stdlib Require Import ZArith Lia.

(** ** Outcome of a blocking call *)

Inductive result (A : Type) : Type :=
| Done (a : A)          (* the call returned *)
| Blocks                (* the caller has to wait *)
| Fatal (msg : string). (* the runtime stops the process with [msg] *)

Arguments Done {A} a.
Arguments Blocks {A}.
Arguments Fatal {A} msg.

Definition bind {A B} (x : result A) (f : A -> result B) : result B :=
  match x with
  | Done a => f a
  | Blocks => Blocks
  | Fatal s => Fatal s
  end.

Definition is_done {A} (x : result A) : bool :=
  match x with Done _ => true | _ => false end.

Definition is_fatal {A} (x : result A) : bool :=
  match x with Fatal _ => true | _ => false end.

(** ** sync.Mutex

    A mutex is locked or not; it is not tied to a goroutine.  [Lock]
    waits while it is locked; [Unlock] of an unlocked mutex is a fatal
    error. *)

Record Mutex : Type := { held : bool }.

Definition Mutex_Lock (m : Mutex) : result Mutex :=
  if held m then Blocks else Done {| held := true |}.

Definition Mutex_Unlock (m : Mutex) : result Mutex :=
  if held m then Done {| held := false |}
  else Fatal "sync: unlock of unlocked mutex"%string.

(** ** sync.RWMutex

    [writer] tells whether a writer is absent, has announced itself and
    waits for the readers to leave, or holds the lock; [readers] counts
    the shared holders.  [Lock] is two steps, as in the runtime: the
    writer first announces itself (from then on new readers wait), then
    acquires once no reader is left.  [RLock] waits while a writer is
    announced or holds.  [Unlock] of a lock not held for writing and
    [RUnlock] of a lock without reader are fatal errors. *)

Inductive wstate : Type := WFree | WWaiting | WHeld.

Record RWMutex : Type := { writer : wstate; readers : nat }.

Definition RWMutex_announce (rw : RWMutex) : result RWMutex :=
  match writer rw with
  | WFree => Done {| writer := WWaiting; readers := readers rw |}
  | _ => Blocks
  end.

Definition RWMutex_acquire (rw : RWMutex) : result RWMutex :=
  match writer rw, readers rw with
  | WWaiting, O => Done {| writer := WHeld; readers := 0 |}
  | _, _ => Blocks
  end.

Definition RWMutex_Lock (rw : RWMutex) : result RWMutex :=
  bind (RWMutex_announce rw) RWMutex_acquire.

Definition RWMutex_Unlock (rw : RWMutex) : result RWMutex :=
  match writer rw with
  | WHeld => Done {| writer := WFree; readers := readers rw |}
  | _ => Fatal "sync: Unlock of unlocked RWMutex"%string
  end.

Definition RWMutex_RLock (rw : RWMutex) : result RWMutex :=
  match writer rw with
  | WFree => Done {| writer := WFree; readers := S (readers rw) |}
  | _ => Blocks
  end.

Definition RWMutex_RUnlock (rw : RWMutex) : result RWMutex :=
  match readers rw with
  | O => Fatal "sync: RUnlock of unlocked RWMutex"%string
  | S n => Done {| writer := writer rw; readers := n |}
  end.

(** ** The Motex struct

    [motex.go] declares the fields [w] and [r]; the guarded version adds
    [g].  One record serves both: the methods of [motex.go] never touch
    [g], which keeps its zero value there (lemma [bare_keeps_g]). *)

Record Motex : Type := {
  w : Mutex;    (* Blocks writes. *)
  r : RWMutex;  (* Blocks reads. *)
  g : Mutex     (* Guards against Promote after RLock. *)
}.

(** The zero value, [var mo Motex]. *)
Definition fresh : Motex :=
  {| w := {| held := false |};
     r := {| writer := WFree; readers := 0 |};
     g := {| held := false |} |}.

(** ** Gate calls

    The calls a method body makes, and the atomic steps they consist of:
    every call is one step, except [r.Lock], which announces and then
    acquires. *)

Inductive call : Type :=
| w_Lock | w_Unlock
| r_Lock | r_Unlock | r_RLock | r_RUnlock
| g_Lock | g_Unlock.

Global Instance call_eq_dec : EqDecision call.
Proof. solve_decision. Defined.

Inductive gstep : Type :=
| s_w_Lock | s_w_Unlock
| s_r_announce | s_r_acquire | s_r_Unlock | s_r_RLock | s_r_RUnlock
| s_g_Lock | s_g_Unlock.

Global Instance gstep_eq_dec : EqDecision gstep.
Proof. solve_decision. Defined.

Definition steps_of (c : call) : list gstep :=
  match c with
  | w_Lock => [s_w_Lock]
  | w_Unlock => [s_w_Unlock]
  | r_Lock => [s_r_announce; s_r_acquire]
  | r_Unlock => [s_r_Unlock]
  | r_RLock => [s_r_RLock]
  | r_RUnlock => [s_r_RUnlock]
  | g_Lock => [s_g_Lock]
  | g_Unlock => [s_g_Unlock]
  end.

Definition set_w (m : Motex) (x : Mutex) : Motex := {| w := x; r := r m; g := g m |}.
Definition set_r (m : Motex) (x : RWMutex) : Motex := {| w := w m; r := x; g := g m |}.
Definition set_g (m : Motex) (x : Mutex) : Motex := {| w := w m; r := r m; g := x |}.

Definition exec_step (s : gstep) (m : Motex) : result Motex :=
  match s with
  | s_w_Lock => bind (Mutex_Lock (w m)) (fun x => Done (set_w m x))
  | s_w_Unlock => bind (Mutex_Unlock (w m)) (fun x => Done (set_w m x))
  | s_r_announce => bind (RWMutex_announce (r m)) (fun x => Done (set_r m x))
  | s_r_acquire => bind (RWMutex_acquire (r m)) (fun x => Done (set_r m x))
  | s_r_Unlock => bind (RWMutex_Unlock (r m)) (fun x => Done (set_r m x))
  | s_r_RLock => bind (RWMutex_RLock (r m)) (fun x => Done (set_r m x))
  | s_r_RUnlock => bind (RWMutex_RUnlock (r m)) (fun x => Done (set_r m x))
  | s_g_Lock => bind (Mutex_Lock (g m)) (fun x => Done (set_g m x))
  | s_g_Unlock => bind (Mutex_Unlock (g m)) (fun x => Done (set_g m x))
  end.

Fixpoint exec_steps (ss : list gstep) (m : Motex) : result Motex :=
  match ss with
  | [] => Done m
  | s :: ss' => bind (exec_step s m) (exec_steps ss')
  end.

(** A call made with nothing else running in between. *)
Definition exec_call (c : call) (m : Motex) : result Motex :=
  exec_steps (steps_of c) m.

(** ** The methods

    A method body is the sequence of gate calls the source writes. *)

Definition method : Type := list call.

(** [motex.go] *)
Module Bare.

Definition Lock : method := [w_Lock; r_Lock].

Definition Unlock : method := [r_Unlock; w_Unlock].

Definition Demote : method := [r_Unlock; r_RLock].

Definition Promote : method := [r_RUnlock; r_Lock].

Definition RLock : method := [r_RLock].

Definition RUnlock : method := [r_RUnlock].

End Bare.

(** The version with the guard [g]. *)
Module WithGuard.

Definition Lock : method := [w_Lock; r_Lock].

Definition Unlock : method := [r_Unlock; w_Unlock].

Definition Demote : method := [r_Unlock; r_RLock; g_Lock].

Definition Promote : method := [r_RUnlock; r_Lock; g_Unlock].

Definition RLock : method := [r_RLock].

Definition RUnlock : method := [r_RUnlock].

End WithGuard.

Inductive variant : Type := bare | guarded.

Inductive op : Type := Lock | Unlock | Demote | Promote | RLock | RUnlock.

Global Instance op_eq_dec : EqDecision op.
Proof. solve_decision. Defined.

Definition body (v : variant) (o : op) : method :=
  match v, o with
  | bare, Lock => Bare.Lock
  | bare, Unlock => Bare.Unlock
  | bare, Demote => Bare.Demote
  | bare, Promote => Bare.Promote
  | bare, RLock => Bare.RLock
  | bare, RUnlock => Bare.RUnlock
  | guarded, Lock => WithGuard.Lock
  | guarded, Unlock => WithGuard.Unlock
  | guarded, Demote => WithGuard.Demote
  | guarded, Promote => WithGuard.Promote
  | guarded, RLock => WithGuard.RLock
  | guarded, RUnlock => WithGuard.RUnlock
  end.

(** ** Sequential execution

    [run_calls] executes gate calls in order and stops at the first one
    that does not return.  The trace lists the calls that returned. *)

Record outcome : Type := { trace : list call; final : result Motex }.

Fixpoint run_calls (cs : list call) (m : Motex) : outcome :=
  match cs with
  | [] => {| trace := []; final := Done m |}
  | c :: cs' =>
      match exec_call c m with
      | Done m' =>
          let o := run_calls cs' m' in
          {| trace := c :: trace o; final := final o |}
      | Blocks => {| trace := []; final := Blocks |}
      | Fatal s => {| trace := []; final := Fatal s |}
      end
  end.

Definition run_op (v : variant) (o : op) (m : Motex) : outcome :=
  run_calls (body v o) m.

(** A sequence of method calls by one caller. *)
Definition run_ops (v : variant) (os : list op) (m : Motex) : outcome :=
  run_calls (concat (map (body v) os)) m.

(** ** The documented state machine

    The state of a lock instance as its users see it: nobody writes, a
    writer holds it, or a writer holds it demoted; next to that, the
    number of shared acquisitions made with [RLock].  The doc comments of
    the methods give what each one requires on entry. *)

Inductive lmode : Type := Unlocked | WriteLocked | WriteLockedDemoted.

Global Instance lmode_eq_dec : EqDecision lmode.
Proof. solve_decision. Defined.

Record lstate : Type := { mode : lmode; rlocks : nat }.

Definition start : lstate := {| mode := Unlocked; rlocks := 0 |}.

(** What must hold on entry for the call not to be a misuse. *)
Definition pre (o : op) (s : lstate) : bool :=
  match o with
  | Lock | RLock => true
  | Unlock | Demote => bool_decide (mode s = WriteLocked)
  | Promote => bool_decide (mode s = WriteLockedDemoted)
  | RUnlock => bool_decide (0 < rlocks s)
  end.

(** The state a call leaves when it returns. *)
Definition post (o : op) (s : lstate) : lstate :=
  match o with
  | Lock | Promote => {| mode := WriteLocked; rlocks := rlocks s |}
  | Unlock => {| mode := Unlocked; rlocks := rlocks s |}
  | Demote => {| mode := WriteLockedDemoted; rlocks := rlocks s |}
  | RLock => {| mode := mode s; rlocks := S (rlocks s) |}
  | RUnlock => {| mode := mode s; rlocks := pred (rlocks s) |}
  end.

(** Whether an acquiring call finds its gates available, so that it
    returns without waiting. *)
Definition available (o : op) (s : lstate) : bool :=
  match o with
  | Lock => bool_decide (mode s = Unlocked) && bool_decide (rlocks s = 0)
  | Promote => bool_decide (rlocks s = 0)
  | RLock => negb (bool_decide (mode s = WriteLocked))
  | Unlock | Demote | RUnlock => true
  end.

(** A call sequence is legal when every call meets its requirement. *)
Fixpoint legal (s : lstate) (os : list op) : bool :=
  match os with
  | [] => true
  | o :: os' => pre o s && legal (post o s) os'
  end.

(** The gates of an instance in a given state. *)
Definition gates (v : variant) (s : lstate) : Motex :=
  {| w := {| held := negb (bool_decide (mode s = Unlocked)) |};
     r := {| writer := if bool_decide (mode s = WriteLocked) then WHeld else WFree;
             readers := if bool_decide (mode s = WriteLockedDemoted)
                        then S (rlocks s) else rlocks s |};
     g := {| held := match v with
                     | bare => false
                     | guarded => bool_decide (mode s = WriteLockedDemoted)
                     end |} |}.

(** The effect column of the operations table: which gate actions each
    operation performs, in order, on the write gate and the read/write
    gate. *)
Definition table_effect (o : op) : list call :=
  match o with
  | Lock => [w_Lock; r_Lock]
  | Unlock => [r_Unlock; w_Unlock]
  | Demote => [r_Unlock; r_RLock]
  | Promote => [r_RUnlock; r_Lock]
  | RLock => [r_RLock]
  | RUnlock => [r_RUnlock]
  end.

(** Calls on the write gate or the read/write gate (not on the guard). *)
Definition on_gate (c : call) : bool :=
  match c with
  | g_Lock | g_Unlock => false
  | _ => true
  end.

Definition on_w (c : call) : bool :=
  match c with
  | w_Lock | w_Unlock => true
  | _ => false
  end.

Definition gate_calls (cs : list call) : list call := List.filter on_gate cs.

(** Whether the fatal message names an unlocked lock, which is what the
    misuse test looks for in the output of the process. *)
Definition mentions_unlocked (msg : string) : bool :=
  match String.index 0 "unlocked"%string msg with
  | Some _ => true
  | None => false
  end.

Definition fatal_unlocked (x : result Motex) : bool :=
  match x with
  | Fatal msg => mentions_unlocked msg
  | _ => false
  end.

(** The twelve misuses that have to be fatal, each as the calls that
    precede the offending call and the offending call itself.  The table
    [misuseTests] has them, and one more: [Demote] after [Lock] and
    [Unlock]. *)
Definition misuses : list (list op * op) :=
  [ ([], Unlock);                        (* Unlock without Lock *)
    ([Lock; Unlock], Unlock);            (* 2 Unlocks after Lock *)
    ([], RUnlock);                       (* RUnlock without RLock *)
    ([RLock; RUnlock], RUnlock);         (* 2 RUnlocks after RLock *)
    ([], Promote);                       (* Promote outside of Lock *)
    ([], Demote);                        (* Demote outside of Lock *)
    ([Lock], Promote);                   (* Promote without Demote *)
    ([Lock; Demote], Demote);            (* 2 Demotes in Lock *)
    ([Lock; Demote; Promote], Promote);  (* 2 Promotes after Demote *)
    ([Lock; Demote], Unlock);            (* Unlock before Promote *)
    ([Lock], RUnlock);                   (* RUnlock after Lock *)
    ([RLock], Unlock) ].                 (* Unlock after RLock *)

(** A misuse is caught when the calls before the offending one return
    and the offending call stops the process with a message about an
    unlocked lock. *)
Definition caught (v : variant) (x : list op * op) : Prop :=
  exists m, final (run_ops v (fst x) fresh) = Done m /\
            fatal_unlocked (final (run_op v (snd x) m)) = true.

(** TestMotexDoesntDeadlock *)
Definition doesnt_deadlock_calls : list op :=
  [Lock; Demote; Promote; Demote; RLock; RLock; RUnlock; RUnlock; Promote; Unlock;
   RLock; RLock; RUnlock; RUnlock].

(** ** Goroutines sharing one Motex

    A goroutine runs a list of statements: method calls on the shared
    [Motex], and the two accesses to the shared integer that the test
    closures make, [old := state] and [state = old + 1].  Goroutines are
    interleaved one atomic step at a time. *)

Inductive instr : Type :=
| Call (o : op)
| Load     (* old := state *)
| Store.   (* state = old + 1 *)

(** Go's [int], taken as 64 bits wide: addition wraps around. *)
Definition wrap (x : Z) : Z := ((x + 2 ^ 63) mod 2 ^ 64 - 2 ^ 63)%Z.

(** What a goroutine holds.  This is bookkeeping: no step looks at it to
    decide what it does (lemma [step_ignores_bookkeeping]).  [hw]: it
    locked [w] and has not unlocked it; [hp]: it announced itself as
    writer on [r]; [hx]: it holds [r] for writing; [hd]: it holds the
    shared slot taken by [Demote]; [nr]: shared slots it took with
    [RLock]; [hg]: it locked [g]. *)
Record owned : Type := {
  hw : bool; hp : bool; hx : bool; hd : bool; nr : nat; hg : bool
}.

Definition nothing : owned :=
  {| hw := false; hp := false; hx := false; hd := false; nr := 0; hg := false |}.

(** The bookkeeping of a step made inside method [o]. *)
Definition eff (o : op) (s : gstep) (h : owned) : owned :=
  match s with
  | s_w_Lock =>
      {| hw := true; hp := hp h; hx := hx h; hd := hd h; nr := nr h; hg := hg h |}
  | s_w_Unlock =>
      {| hw := false; hp := hp h; hx := hx h; hd := hd h; nr := nr h; hg := hg h |}
  | s_r_announce =>
      {| hw := hw h; hp := true; hx := hx h; hd := hd h; nr := nr h; hg := hg h |}
  | s_r_acquire =>
      {| hw := hw h; hp := false; hx := true; hd := hd h; nr := nr h; hg := hg h |}
  | s_r_Unlock =>
      {| hw := hw h; hp := hp h; hx := false; hd := hd h; nr := nr h; hg := hg h |}
  | s_r_RLock =>
      if bool_decide (o = Demote)
      then {| hw := hw h; hp := hp h; hx := hx h; hd := true; nr := nr h; hg := hg h |}
      else {| hw := hw h; hp := hp h; hx := hx h; hd := hd h; nr := S (nr h); hg := hg h |}
  | s_r_RUnlock =>
      if bool_decide (o = Promote)
      then {| hw := hw h; hp := hp h; hx := hx h; hd := false; nr := nr h; hg := hg h |}
      else {| hw := hw h; hp := hp h; hx := hx h; hd := hd h; nr := pred (nr h); hg := hg h |}
  | s_g_Lock =>
      {| hw := hw h; hp := hp h; hx := hx h; hd := hd h; nr := nr h; hg := true |}
  | s_g_Unlock =>
      {| hw := hw h; hp := hp h; hx := hx h; hd := hd h; nr := nr h; hg := false |}
  end.

Record goroutine : Type := {
  frame : option (op * list gstep); (* the method being run and its steps still to make *)
  cont : list instr;                (* the statements after the current call *)
  old : Z;                          (* the local variable [old] *)
  st : lstate;                      (* bookkeeping: its state at its last call boundary *)
  own : owned                       (* bookkeeping: what it holds *)
}.

Record config : Type := {
  mo : Motex;             (* the shared lock *)
  state : Z;              (* the shared integer *)
  pool : list goroutine
}.

Definition body_steps (v : variant) (o : op) : list gstep :=
  concat (map steps_of (body v o)).

(** One step of goroutine [i]: a gate step of the method it is in, the
    return from that method, or its next statement.  A goroutine that has
    finished, or an index outside the pool, makes no step. *)
Definition step (v : variant) (i : nat) (c : config) : result config :=
  match pool c !! i with
  | None => Blocks
  | Some th =>
      match frame th with
      | Some (o, s :: ss) =>
          bind (exec_step s (mo c)) (fun m' =>
            Done {| mo := m'; state := state c;
                    pool := <[i := {| frame := Some (o, ss); cont := cont th;
                                      old := old th; st := st th;
                                      own := eff o s (own th) |}]> (pool c) |})
      | Some (o, []) =>
          Done {| mo := mo c; state := state c;
                  pool := <[i := {| frame := None; cont := cont th;
                                    old := old th; st := post o (st th);
                                    own := own th |}]> (pool c) |}
      | None =>
          match cont th with
          | [] => Blocks
          | Call o :: k =>
              Done {| mo := mo c; state := state c;
                      pool := <[i := {| frame := Some (o, body_steps v o); cont := k;
                                        old := old th; st := st th;
                                        own := own th |}]> (pool c) |}
          | Load :: k =>
              Done {| mo := mo c; state := state c;
                      pool := <[i := {| frame := None; cont := k;
                                        old := state c; st := st th;
                                        own := own th |}]> (pool c) |}
          | Store :: k =>
              Done {| mo := mo c; state := wrap (old th + 1);
                      pool := <[i := {| frame := None; cont := k;
                                        old := old th; st := st th;
                                        own := own th |}]> (pool c) |}
          end
      end
  end.

(** A schedule names the goroutine that moves at each step. *)
Fixpoint run_schedule (v : variant) (sched : list nat) (c : config) : result config :=
  match sched with
  | [] => Done c
  | i :: sched' => bind (step v i c) (run_schedule v sched')
  end.

Definition reachable (v : variant) (c0 c : config) : Prop :=
  exists sched, run_schedule v sched c0 = Done c.

Definition go (p : list instr) : goroutine :=
  {| frame := None; cont := p; old := 0%Z; st := start; own := nothing |}.

(** Goroutines started on a fresh [Motex] and [state = 0]. *)
Definition spawn (ps : list (list instr)) : config :=
  {| mo := fresh; state := 0%Z; pool := map go ps |}.

Definition finished (th : goroutine) : bool :=
  match frame th, cont th with
  | None, [] => true
  | _, _ => false
  end.

Definition all_finished (c : config) : bool := forallb finished (pool c).

Fixpoint calls_of (p : list instr) : list op :=
  match p with
  | [] => []
  | Call o :: k => o :: calls_of k
  | _ :: k => calls_of k
  end.

(** A program is legal when the calls it makes, in order, each meet
    their requirement, counting what this goroutine itself did before. *)
Definition legal_prog (p : list instr) : bool := legal start (calls_of p).

(** The closure [demotedIncrement] of TestMotex (its deferred [Unlock]
    runs last). *)
Definition demotedIncrement : list instr :=
  [Call Lock; Call Demote; Load; Call Promote; Store; Call Unlock].

(** Whether a goroutine is between its [Demote] and the end of the
    matching [Promote]. *)
Definition in_window (th : goroutine) : bool :=
  match frame th with
  | Some (Demote, _) | Some (Promote, _) => true
  | _ => bool_decide (mode (st th) = WriteLockedDemoted)
  end.

(** Steps on [w] and on [g]. *)
Definition step_on_w (s : gstep) : bool :=
  match s with s_w_Lock | s_w_Unlock => true | _ => false end.

Definition step_on_g (s : gstep) : bool :=
  match s with s_g_Lock | s_g_Unlock => true | _ => false end.

(** ** Invariant of the goroutines *)

(** What a caller in state [s] holds between two calls. *)
Definition owned_of (v : variant) (s : lstate) : owned :=
  {| hw := negb (bool_decide (mode s = Unlocked));
     hp := false;
     hx := bool_decide (mode s = WriteLocked);
     hd := bool_decide (mode s = WriteLockedDemoted);
     nr := rlocks s;
     hg := match v with
           | bare => false
           | guarded => bool_decide (mode s = WriteLockedDemoted)
           end |}.

Definition effs (o : op) (ss : list gstep) (h : owned) : owned :=
  fold_left (fun h s => eff o s h) ss h.

(** A goroutine is well formed when its bookkeeping matches the calls it
    has made and the calls it still makes are legal.  Inside a method,
    [done] is the part of the body already executed; a [Lock] that got
    past [w.Lock] was called with nobody writing. *)
Definition twf (v : variant) (th : goroutine) : Prop :=
  match frame th with
  | None =>
      own th = owned_of v (st th) /\
      legal (st th) (calls_of (cont th)) = true
  | Some (o, ss) =>
      pre o (st th) = true /\
      legal (post o (st th)) (calls_of (cont th)) = true /\
      exists done,
        body_steps v o = done ++ ss /\
        own th = effs o done (owned_of v (st th)) /\
        (o = Lock -> done <> [] -> mode (st th) = Unlocked)
  end.

(** What a goroutine must hold for a step to keep the books right. *)
Definition ok (o : op) (s : gstep) (h : owned) : bool :=
  match s with
  | s_w_Unlock => hw h
  | s_r_acquire => hp h
  | s_r_Unlock => hx h
  | s_r_RLock => if bool_decide (o = Demote) then negb (hd h) else true
  | s_r_RUnlock => if bool_decide (o = Promote) then hd h else bool_decide (0 < nr h)
  | s_g_Unlock => hg h
  | s_w_Lock | s_r_announce | s_g_Lock => true
  end.

(** Whoever is announced on [r], holds [r] for writing, holds the slot of
    [Demote] or holds [g], holds [w]; whoever holds the slot of [Demote]
    neither holds [r] for writing nor is announced on it. *)
Definition local (h : owned) : Prop :=
  (hp h = true -> hw h = true) /\
  (hx h = true -> hw h = true) /\
  (hd h = true -> hw h = true) /\
  (hg h = true -> hw h = true) /\
  (hd h = true -> hx h = false /\ hp h = false).

Definition n_hw (th : goroutine) : nat := Nat.b2n (hw (own th)).
Definition n_hp (th : goroutine) : nat := Nat.b2n (hp (own th)).
Definition n_hx (th : goroutine) : nat := Nat.b2n (hx (own th)).
Definition n_hs (th : goroutine) : nat := Nat.b2n (hd (own th)) + nr (own th).
Definition n_hd (th : goroutine) : nat := Nat.b2n (hd (own th)).
Definition n_nr (th : goroutine) : nat := nr (own th).
Definition n_hg (th : goroutine) : nat := Nat.b2n (hg (own th)).

(** The gates hold exactly what the goroutines hold, and [r] has no
    reader while it is held for writing. *)
Definition tallies (m : Motex) (l : list goroutine) : Prop :=
  sum_list_with n_hw l = Nat.b2n (held (w m)) /\
  sum_list_with n_hp l = match writer (r m) with WWaiting => 1 | _ => 0 end /\
  sum_list_with n_hx l = match writer (r m) with WHeld => 1 | _ => 0 end /\
  sum_list_with n_hs l = readers (r m) /\
  sum_list_with n_hg l = Nat.b2n (held (g m)) /\
  (writer (r m) = WHeld -> readers (r m) = 0).

Definition Inv (v : variant) (c : config) : Prop :=
  tallies (mo c) (pool c) /\ Forall (twf v) (pool c).

(** The number of steps a goroutine still has to make. *)
Fixpoint todo_instrs (v : variant) (p : list instr) : nat :=
  match p with
  | [] => 0
  | Call o :: k => 2 + length (body_steps v o) + todo_instrs v k
  | _ :: k => 1 + todo_instrs v k
  end.

Definition todo (v : variant) (th : goroutine) : nat :=
  match frame th with
  | Some (_, ss) => 1 + length ss
  | None => 0
  end + todo_instrs v (cont th).

Definition measure (v : variant) (c : config) : nat :=
  sum_list_with (todo v) (pool c).

(** The release operations, and whether a goroutine is calling or
    running one. *)
Definition is_release (o : op) : bool :=
  match o with
  | Unlock | RUnlock | Demote => true
  | Lock | Promote | RLock => false
  end.

Definition releasing (th : goroutine) : bool :=
  match frame th with
  | Some (o, _) => is_release o
  | None => match cont th with
            | Call o :: _ => is_release o
            | _ => false
            end
  end.

(** The steps a goroutine needs to get back to its statement list. *)
Definition steps_to_return (v : variant) (th : goroutine) : nat :=
  match frame th with
  | Some (_, ss) => 1 + length ss
  | None => match cont th with
            | Call o :: _ => 2 + length (body_steps v o)
            | _ => 0
            end
  end.

(** The statements left once the current call has returned. *)
Definition after_call (th : goroutine) : list instr :=
  match frame th with
  | Some _ => cont th
  | None => tail (cont th)
  end.

(** ** The counter of TestMotex *)

(** The statements of a goroutine from its current call on. *)
Definition prog_rest (th : goroutine) : list instr :=
  match frame th with
  | Some (o, _) => Call o :: cont th
  | None => cont th
  end.

Definition posts (s : lstate) (os : list op) : lstate :=
  fold_left (fun s o => post o s) os s.

(** The goroutine runs program [p]: it has made a first part of it, which
    its state reflects, and the rest is still to run. *)
Definition tracks (p : list instr) (th : goroutine) : Prop :=
  exists made, p = made ++ prog_rest th /\ st th = posts start (calls_of made).

Fixpoint count_instr (f : instr -> bool) (p : list instr) : nat :=
  match p with
  | [] => 0
  | x :: k => (if f x then 1 else 0) + count_instr f k
  end.

Definition is_store (x : instr) : bool := match x with Store => true | _ => false end.
Definition is_load (x : instr) : bool := match x with Load => true | _ => false end.

(** 1 once the goroutine has stored, 0 before. *)
Definition stored (th : goroutine) : nat :=
  1 - count_instr is_store (prog_rest th).

(** The goroutine has read [state] into [old] and has not stored yet. *)
Definition loaded (th : goroutine) : bool :=
  (count_instr is_load (prog_rest th) =? 0) && (count_instr is_store (prog_rest th) =? 1).

(** The invariant of goroutines that all run [demotedIncrement]: the
    shared integer counts the stores made, and a goroutine that has
    loaded and not yet stored has the current value in [old]. *)
Definition counting (c : config) : Prop :=
  Forall (tracks demotedIncrement) (pool c) /\
  state c = wrap (Z.of_nat (sum_list_with stored (pool c))) /\
  Forall (fun th => loaded th = true -> old th = state c) (pool c).

(** ** The gate steps of a run

    The gate step that a move of goroutine [i] makes, if it makes one,
    and the gate steps made along a schedule. *)
Definition event_of (i : nat) (c : config) : option (nat * gstep) :=
  match pool c !! i with
  | Some th =>
      match frame th with
      | Some (_, s :: _) => Some (i, s)
      | _ => None
      end
  | None => None
  end.

Fixpoint events (v : variant) (sched : list nat) (c : config) : list (nat * gstep) :=
  match sched with
  | [] => []
  | i :: sched' =>
      match step v i c with
      | Done c' =>
          match event_of i c with
          | Some e => e :: events v sched' c'
          | None => events v sched' c'
          end
      | _ => []
      end
  end.

(** ** The two versions side by side *)

Definition off_g (s : gstep) : bool := negb (step_on_g s).

Definition gate_events (es : list (nat * gstep)) : list (nat * gstep) :=
  List.filter (fun e => off_g (snd e)) es.

(** A goroutine of the guarded version matches one of [motex.go] when
    they are at the same place, up to the steps on [g]. *)
Definition sim_frame (fg fb : option (op * list gstep)) : Prop :=
  match fg, fb with
  | None, None => True
  | Some (og, sg), Some (ob, sb) => og = ob /\ sb = List.filter off_g sg
  | _, _ => False
  end.

Definition sim_th (tg tb : goroutine) : Prop :=
  sim_frame (frame tg) (frame tb) /\ cont tg = cont tb /\ old tg = old tb.

Definition sim (cg cb : config) : Prop :=
  w (mo cg) = w (mo cb) /\ r (mo cg) = r (mo cb) /\ state cg = state cb /\
  Forall2 sim_th (pool cg) (pool cb).

(** The guarded goroutine has made the step on [g] that ends the method
    it is in. *)
Definition settled (th : goroutine) : Prop :=
  match frame th with
  | Some (_, s :: _) => step_on_g s = false
  | _ => True
  end.

(** Goroutine [i] is between its [Demote] and the end of its [Promote]
    in a configuration, and all along a schedule run from it. *)
Definition in_window_at (i : nat) (c : config) : Prop :=
  exists ti, pool c !! i = Some ti /\ in_window ti = true.

Fixpoint stays_in_window (v : variant) (i : nat) (seg : list nat) (c : config) : Prop :=
  in_window_at i c /\
  match seg with
  | [] => True
  | j :: seg' =>
      match step v j c with
      | Done c' => stays_in_window v i seg' c'
      | _ => True
      end
  end.

(** ** What a run can observe

    A goroutine without its bookkeeping, and a configuration likewise. *)
Definition erase (th : goroutine) : option (op * list gstep) * list instr * Z :=
  (frame th, cont th, old th).

Definition visible (c : config) :
    Motex * Z * list (option (op * list gstep) * list instr * Z) :=
  (mo c, state c, map erase (pool c)).

(** ** A sample run

    One goroutine runs [demotedIncrement], another takes and releases a
    shared acquisition.  In the guarded version, after ten steps the
    first one has returned from [Demote]; the second then calls [RLock],
    which returns, and stands before its [RUnlock]. *)
Definition sample_programs : list (list instr) :=
  [demotedIncrement; [Call RLock; Call RUnlock]].

Definition sample_schedule : list nat := replicate 10 0 ++ [1; 1; 1].

Definition sample_config : config :=
  Eval vm_compute in
    match run_schedule guarded sample_schedule (spawn sample_programs) with
    | Done c => c
    | _ => spawn []
    end.

(** Two goroutines run [demotedIncrement] on the guarded version: the
    second calls [Lock] while the first is inside its own, and runs once
    the first has unlocked. *)
Definition sample_race : list nat :=
  [0; 0; 1; 0; 0; 0] ++ replicate 17 0 ++ replicate 21 1.

Definition sample_writer : goroutine :=
  Eval vm_compute in default (go []) (pool sample_config !! 0).

Definition sample_reader : goroutine :=
  Eval vm_compute in default (go []) (pool sample_config !! 1).

Definition sample_final : config :=
  Eval vm_compute in
    match run_schedule guarded sample_race (spawn (replicate 2 demotedIncrement)) with
    | Done c => c
    | _ => spawn []
    end.

(** * The lock as its users see it: definitions *)

(** ** A sync.RWMutex used on its own

    The four methods a Motex shares with [sync.RWMutex], and a sequence
    of them run on an RWMutex. *)

Inductive rwmethod : Type := RW_Lock | RW_Unlock | RW_RLock | RW_RUnlock.

Definition RWMutex_call (k : rwmethod) (rw : RWMutex) : result RWMutex :=
  match k with
  | RW_Lock => RWMutex_Lock rw
  | RW_Unlock => RWMutex_Unlock rw
  | RW_RLock => RWMutex_RLock rw
  | RW_RUnlock => RWMutex_RUnlock rw
  end.

Fixpoint run_rwmutex (ks : list rwmethod) (rw : RWMutex) : result RWMutex :=
  match ks with
  | [] => Done rw
  | k :: ks' => bind (RWMutex_call k rw) (run_rwmutex ks')
  end.

(** The Motex method of the same name. *)
Definition method_of (k : rwmethod) : op :=
  match k with
  | RW_Lock => Lock
  | RW_Unlock => Unlock
  | RW_RLock => RLock
  | RW_RUnlock => RUnlock
  end.

(** A Motex whose [r] is the given RWMutex, whose [w] is locked exactly
    when [r] is held for writing, and whose [g] is unlocked. *)
Definition around (rw : RWMutex) : Motex :=
  {| w := {| held := match writer rw with WHeld => true | _ => false end |};
     r := rw;
     g := {| held := false |} |}.

(** ** What happens to a misuse

    A state is coherent when no shared acquisition coexists with a
    writer that is not demoted.  The three things a call that breaks its
    requirement can do: stop the process, return as if nothing were
    wrong, or wait. *)
Definition coherent (s : lstate) : bool :=
  match mode s with
  | WriteLocked => bool_decide (rlocks s = 0)
  | _ => true
  end.

Inductive verdict : Type := Caught | Missed | Waits.

Definition verdict_of (x : result Motex) : option verdict :=
  match x with
  | Fatal msg => if mentions_unlocked msg then Some Caught else None
  | Done _ => Some Missed
  | Blocks => Some Waits
  end.

(** What each version does with each misuse. *)
Definition misuse_verdict (v : variant) (o : op) (s : lstate) : verdict :=
  match o, mode s with
  | RUnlock, WriteLockedDemoted => Missed
  | Promote, Unlocked =>
      match rlocks s, v with
      | 0, _ => Caught
      | 1, bare => Missed
      | 1, guarded => Caught
      | _, _ => Waits
      end
  | _, _ => Caught
  end.

(** ** Readers and writers *)

(** Whether a goroutine is calling or running [RLock]. *)
Definition reading (th : goroutine) : bool :=
  match frame th with
  | Some (o, _) => bool_decide (o = RLock)
  | None => match cont th with
            | Call RLock :: _ => true
            | _ => false
            end
  end.

(** Whether a goroutine has announced itself on [r], inside [Lock] or
    [Promote], and now has to acquire it. *)
Definition acquiring (th : goroutine) : bool :=
  match frame th with
  | Some (_, s_r_acquire :: _) => true
  | _ => false
  end.

(** The sample run after its first ten steps: the first goroutine is
    demoted, the second has not started. *)
Definition sample_demoted : config :=
  Eval vm_compute in
    match run_schedule guarded (replicate 10 0) (spawn sample_programs) with
    | Done c => c
    | _ => spawn []
    end.

(** The sample run a little later: the second goroutine holds a shared
    acquisition and the first, inside [Promote], has announced itself. *)
Definition sample_promoting : config :=
  Eval vm_compute in
    match run_schedule guarded (replicate 10 0 ++ [1; 1; 1; 0; 0; 0; 0])
            (spawn sample_programs) with
    | Done c => c
    | _ => spawn []
    end.

Definition sample_promoter : goroutine :=
  Eval vm_compute in default (go []) (pool sample_promoting !! 0).

Definition sample_holder : goroutine :=
  Eval vm_compute in default (go []) (pool sample_promoting !! 1).

(** ** The closures of the tests

    The closures of TestMotex and TestIncorrectMotexUse are lists of
    statements: method calls on the shared Motex, [old := state], and
    [state = old + k].  The statement [state = state + k] reads [state]
    and then writes it; it is the two statements [SLoad; SSet k], with
    the value read kept in [old] (where a closure declares [old], it
    assigns it anew before using it). *)

Inductive stmt : Type :=
| SCall (o : op)
| SLoad           (* old := state *)
| SSet (k : Z).   (* state = old + k *)

Module TestMotex.

Definition increment : list stmt :=
  [SCall Lock; SLoad; SSet 1; SCall Unlock].

Definition demotedIncrement : list stmt :=
  [SCall Lock; SCall Demote; SLoad; SCall Promote; SSet 1; SCall Unlock].

Definition decrementAndDemotedIncrement : list stmt :=
  [SCall Lock; SLoad; SSet (-1); SCall Demote; SLoad; SCall Promote; SSet 2;
   SCall Unlock].

(** The goroutines a test case starts: [n] times, one for each closure of
    [funcs]. *)
Definition goroutines (n : nat) (funcs : list (list stmt)) : list (list stmt) :=
  concat (replicate n funcs).

(** [want := n * len(test.funcs)] *)
Definition want (n : nat) (funcs : list (list stmt)) : Z :=
  wrap (Z.of_nat n * Z.of_nat (length funcs)).

End TestMotex.

Module TestIncorrectMotexUse.

(** "non-atomic read (rlock) and write (lock)" *)
Definition read_rlock_write_lock : list stmt :=
  [SCall RLock; SLoad; SCall RUnlock; SCall Lock; SSet 1; SCall Unlock].

(** "non-atomic read (lock) and write (lock)" *)
Definition read_lock_write_lock : list stmt :=
  [SCall Lock; SLoad; SCall Unlock; SCall Lock; SSet 1; SCall Unlock].

(** "non-atomic read (demoted) and write (lock)" *)
Definition read_demoted_write_lock : list stmt :=
  [SCall Lock; SCall Demote; SLoad; SCall Promote; SCall Unlock;
   SCall Lock; SSet 1; SCall Unlock].

End TestIncorrectMotexUse.

(** A goroutine running a closure, and goroutines sharing one Motex and
    the integer [state].  The fields are those of [goroutine] and
    [config], with statements in place of instructions. *)
Record worker : Type := {
  wframe : option (op * list gstep);
  wcont : list stmt;
  wold : Z;
  wst : lstate;   (* bookkeeping *)
  wown : owned    (* bookkeeping *)
}.

Record wconfig : Type := {
  cmo : Motex;
  cstate : Z;
  cpool : list worker
}.

(** One step of goroutine [i], as [step], with [state = old + k]. *)
Definition wstep (v : variant) (i : nat) (c : wconfig) : result wconfig :=
  match cpool c !! i with
  | None => Blocks
  | Some th =>
      match wframe th with
      | Some (o, s :: ss) =>
          bind (exec_step s (cmo c)) (fun m' =>
            Done {| cmo := m'; cstate := cstate c;
                    cpool := <[i := {| wframe := Some (o, ss); wcont := wcont th;
                                       wold := wold th; wst := wst th;
                                       wown := eff o s (wown th) |}]> (cpool c) |})
      | Some (o, []) =>
          Done {| cmo := cmo c; cstate := cstate c;
                  cpool := <[i := {| wframe := None; wcont := wcont th;
                                     wold := wold th; wst := post o (wst th);
                                     wown := wown th |}]> (cpool c) |}
      | None =>
          match wcont th with
          | [] => Blocks
          | SCall o :: k =>
              Done {| cmo := cmo c; cstate := cstate c;
                      cpool := <[i := {| wframe := Some (o, body_steps v o); wcont := k;
                                         wold := wold th; wst := wst th;
                                         wown := wown th |}]> (cpool c) |}
          | SLoad :: k =>
              Done {| cmo := cmo c; cstate := cstate c;
                      cpool := <[i := {| wframe := None; wcont := k;
                                         wold := cstate c; wst := wst th;
                                         wown := wown th |}]> (cpool c) |}
          | SSet d :: k =>
              Done {| cmo := cmo c; cstate := wrap (wold th + d);
                      cpool := <[i := {| wframe := None; wcont := k;
                                         wold := wold th; wst := wst th;
                                         wown := wown th |}]> (cpool c) |}
          end
      end
  end.

Fixpoint wrun (v : variant) (sched : list nat) (c : wconfig) : result wconfig :=
  match sched with
  | [] => Done c
  | i :: sched' => bind (wstep v i c) (wrun v sched')
  end.

Definition wgo (p : list stmt) : worker :=
  {| wframe := None; wcont := p; wold := 0%Z; wst := start; wown := nothing |}.

(** [var mo Motex], [state = 0], and one goroutine for each closure. *)
Definition wspawn (ps : list (list stmt)) : wconfig :=
  {| cmo := fresh; cstate := 0%Z; cpool := map wgo ps |}.

Definition wfinished (th : worker) : bool :=
  match wframe th, wcont th with
  | None, [] => true
  | _, _ => false
  end.

Definition all_wfinished (c : wconfig) : bool := forallb wfinished (cpool c).

(** The same goroutines seen as running instructions: what they do on
    the gates is the same. *)
Definition lower_stmt (x : stmt) : instr :=
  match x with
  | SCall o => Call o
  | SLoad => Load
  | SSet _ => Store
  end.

Definition lower_worker (th : worker) : goroutine :=
  {| frame := wframe th; cont := map lower_stmt (wcont th); old := wold th;
     st := wst th; own := wown th |}.

Definition lower (c : wconfig) : config :=
  {| mo := cmo c; state := cstate c; pool := map lower_worker (cpool c) |}.

(** *** Read-modify-write closures

    What the closures of TestMotex have in common.  Such a closure
    calls [Lock] only while it holds nothing, [Unlock] and [Demote] only
    while it holds the lock for writing, [Promote] only while demoted,
    and never [RLock] or [RUnlock]; it reads [state] only between [Lock]
    and [Unlock]; it writes [state] only while it holds the lock for
    writing, from a value of [old] read since its [Lock] and since its
    last write; and it ends unlocked.  [m] is the mode the closure is in
    and [ld] tells whether [old] holds such a value. *)
Definition call_ok (o : op) (m : lmode) : bool :=
  match o with
  | Lock => bool_decide (m = Unlocked)
  | Unlock | Demote => bool_decide (m = WriteLocked)
  | Promote => bool_decide (m = WriteLockedDemoted)
  | RLock | RUnlock => false
  end.

Definition keeps (o : op) : bool :=
  match o with
  | Demote | Promote => true
  | _ => false
  end.

Fixpoint rmw_ok (m : lmode) (ld : bool) (p : list stmt) : bool :=
  match p with
  | [] => bool_decide (m = Unlocked)
  | SCall o :: k =>
      call_ok o m &&
      rmw_ok (mode (post o {| mode := m; rlocks := 0 |})) (ld && keeps o) k
  | SLoad :: k => negb (bool_decide (m = Unlocked)) && rmw_ok m true k
  | SSet _ :: k => bool_decide (m = WriteLocked) && ld && rmw_ok m false k
  end.

Definition rmw_closure (p : list stmt) : bool := rmw_ok Unlocked false p.

(** The sum of the constants a closure adds to [state]. *)
Fixpoint added (p : list stmt) : Z :=
  match p with
  | [] => 0
  | SSet k :: p' => k + added p'
  | _ :: p' => added p'
  end.

Fixpoint zsum {A} (f : A -> Z) (l : list A) : Z :=
  match l with
  | [] => 0
  | a :: l' => f a + zsum f l'
  end.

(** The invariant of the counter: [state], together with what the
    goroutines still have to add, is the total [t]; and [state] is an
    int. *)
Definition wcount (t : Z) (c : wconfig) : Prop :=
  wrap (cstate c + zsum (fun th => added (wcont th)) (cpool c)) = wrap t /\
  cstate c = wrap (cstate c).

(** The mode a goroutine is in once its current call has returned. *)
Definition mode_after (th : worker) : lmode :=
  match wframe th with
  | Some (o, _) => mode (post o (wst th))
  | None => mode (wst th)
  end.

(** Whether a goroutine is at a place where a value read stays good. *)
Definition keeps_old (th : worker) : bool :=
  match wframe th with
  | Some (o, _) => keeps o
  | None => negb (bool_decide (mode (wst th) = Unlocked))
  end.

(** A goroutine running a read-modify-write closure, when [state] is
    [z]. *)
Definition wgood (z : Z) (th : worker) : Prop :=
  exists ld : bool,
    rmw_ok (mode_after th) ld (wcont th) = true /\
    (ld = true -> wold th = z /\ keeps_old th = true) /\
    rlocks (wst th) = 0 /\
    match wframe th with
    | Some (o, _) => call_ok o (mode (wst th)) = true
    | None => True
    end.

Definition wmeasure (v : variant) (c : wconfig) : nat := measure v (lower c).


(** The table of TestMotex ([tests], with the names of the cases). *)
Module TestMotexTable.

Definition tests : list (string * list (list stmt)) :=
  [ ("func1"%string, [TestMotex.increment]);
    ("func2"%string, [TestMotex.demotedIncrement]);
    ("func3"%string, [TestMotex.decrementAndDemotedIncrement]);
    ("func1 AND func2"%string, [TestMotex.increment; TestMotex.demotedIncrement]);
    ("func2 AND func3"%string,
       [TestMotex.demotedIncrement; TestMotex.decrementAndDemotedIncrement]);
    ("func1 AND func3"%string,
       [TestMotex.increment; TestMotex.decrementAndDemotedIncrement]);
    ("func1 AND func2 AND func3"%string,
       [TestMotex.increment; TestMotex.demotedIncrement;
        TestMotex.decrementAndDemotedIncrement]) ].

End TestMotexTable.

(** The table of TestIncorrectMotexUse. *)
Module TestIncorrectMotexUseTable.

Definition tests : list (string * list stmt) :=
  [ ("non-atomic read (rlock) and write (lock)"%string,
       TestIncorrectMotexUse.read_rlock_write_lock);
    ("non-atomic read (lock) and write (lock)"%string,
       TestIncorrectMotexUse.read_lock_write_lock);
    ("non-atomic read (demoted) and write (lock)"%string,
       TestIncorrectMotexUse.read_demoted_write_lock) ].

End TestIncorrectMotexUseTable.

(** A goroutine between two calls, with [k] left to run and [z] in
    [old]. *)
Definition wat (k : list stmt) (z : Z) : worker :=
  {| wframe := None; wcont := k; wold := z; wst := start; wown := nothing |}.

(** The schedule that lets goroutines [a], [a + 1], ..., [a + b - 1] make
    [k] steps each, one goroutine after the other. *)
Definition sweep (k a b : nat) : list nat := concat (map (replicate k) (seq a b)).

(** The values of [state] found by [b] goroutines that run one after the
    other, each taking [state] from [z] to [f z], and the value they
    leave. *)
Fixpoint found (f : Z -> Z) (b : nat) (z : Z) : list Z :=
  match b with
  | 0 => []
  | S b' => z :: found f b' (f z)
  end.

Fixpoint left_by (f : Z -> Z) (b : nat) (z : Z) : Z :=
  match b with
  | 0 => z
  | S b' => left_by f b' (f z)
  end.

(** The second half of each closure of TestIncorrectMotexUse. *)
Definition write_back : list stmt := [SCall Lock; SSet 1; SCall Unlock].

(** Two goroutines running [increment] and
    [decrementAndDemotedIncrement]: the second calls [Lock] while the
    first is inside its own. *)
Definition sample_closures : list (list stmt) :=
  [TestMotex.increment; TestMotex.decrementAndDemotedIncrement].

Definition sample_interleaving : list nat :=
  [0; 0; 1] ++ replicate 9 0 ++ replicate 23 1.

Definition sample_updated : wconfig :=
  Eval vm_compute in
    match wrun guarded sample_interleaving (wspawn sample_closures) with
    | Done c => c
    | _ => wspawn []
    end.

(** The sample run after four steps of the first goroutine and one of
    the second: the first holds [r] for writing, the second is inside
    [RLock]. *)
Definition sample_held : config :=
  Eval vm_compute in
    match run_schedule guarded [0; 0; 0; 0; 1] (spawn sample_programs) with
    | Done c => c
    | _ => spawn []
    end.

Definition sample_locker : goroutine :=
  Eval vm_compute in default (go []) (pool sample_held !! 0).

Definition sample_arriving : goroutine :=
  Eval vm_compute in default (go []) (pool sample_held !! 1).

(** ** Goroutines that cannot wait for themselves

    A call is safe when it meets its requirement and cannot make its
    caller wait for a slot the caller itself holds: [Lock] is called
    with nothing held, [Promote] with no slot taken by [RLock], and
    [RLock] either while demoted or with nothing held.  A program is
    disciplined when all its calls are safe and it ends with nothing
    held. *)
Definition safe_call (o : op) (s : lstate) : bool :=
  pre o s && available o s &&
  match o with
  | RLock => bool_decide (mode s = WriteLockedDemoted) || bool_decide (rlocks s = 0)
  | _ => true
  end.

Fixpoint disciplined (s : lstate) (os : list op) : bool :=
  match os with
  | [] => bool_decide (mode s = Unlocked) && bool_decide (rlocks s = 0)
  | o :: os' => safe_call o s && disciplined (post o s) os'
  end.

Definition disciplined_prog (p : list instr) : bool := disciplined start (calls_of p).

(** A goroutine in the course of a disciplined program. *)
Definition dwf (th : goroutine) : Prop :=
  coherent (st th) = true /\
  match frame th with
  | None => disciplined (st th) (calls_of (cont th)) = true
  | Some (o, _) =>
      safe_call o (st th) = true /\
      disciplined (post o (st th)) (calls_of (cont th)) = true
  end.

(** What a goroutine about to make step [s] holds. *)
Definition holds_at (s : gstep) (h : owned) : Prop :=
  match s with
  | s_w_Lock => hw h = false /\ nr h = 0
  | s_w_Unlock => hw h = true
  | s_r_announce => hw h = true /\ hp h = false /\ hx h = false
  | s_r_acquire => hw h = true /\ hp h = true /\ hx h = false /\ hd h = false /\ nr h = 0
  | s_r_Unlock => hw h = true /\ hx h = true
  | s_r_RLock =>
      (hw h = true /\ hp h = false /\ hx h = false) \/ (hw h = false /\ nr h = 0)
  | s_r_RUnlock => 0 < Nat.b2n (hd h) + nr h
  | s_g_Lock => hw h = true /\ hg h = false
  | s_g_Unlock => hw h = true /\ hg h = true
  end.

(** A goroutine reads twice, another writes: after three steps of the
    first, three of the second and one more of the first, the reader
    waits inside its second [RLock] for the writer, which waits inside
    [Lock] for the reader. *)
Definition sample_rereader : list (list instr) :=
  [[Call RLock; Call RLock; Call RUnlock; Call RUnlock]; [Call Lock; Call Unlock]].

Definition sample_stuck_schedule : list nat := [0; 0; 0; 1; 1; 1; 0].

(** Two disciplined goroutines: a reader, and a writer that reads twice
    while demoted. *)
Definition sample_disciplined : list (list instr) :=
  [[Call RLock; Load; Call RUnlock];
   [Call Lock; Call Demote; Call RLock; Call RLock; Load; Call RUnlock; Call RUnlock;
    Call Promote; Store; Call Unlock]].

Definition sample_disciplined_schedule : list nat := [0; 0; 1; 1; 1].

Definition sample_disciplined_config : config :=
  Eval vm_compute in
    match run_schedule guarded sample_disciplined_schedule (spawn sample_disciplined) with
    | Done c => c
    | _ => spawn []
    end.
(** * Sequential behaviour *)

(** [r.Lock] run alone is [sync.RWMutex.Lock]. *)
Lemma exec_call_r_Lock (m : Motex) :
  exec_call r_Lock m = bind (RWMutex_Lock (r m)) (fun x => Done (set_r m x)).
Proof.
  unfold exec_call, RWMutex_Lock, RWMutex_announce, RWMutex_acquire; simpl.
  destruct m as [mw [wr n] mg]; simpl.
  destruct wr; simpl; try reflexivity.
  destruct n; reflexivity.
Qed.

(** Frame lemmas: a step changes only the gate it is made on. *)

Lemma bind_done {A B} (x : result A) (f : A -> result B) (b : B) :
  bind x f = Done b -> exists a, x = Done a /\ f a = Done b.
Proof. destruct x; simpl; intros H; try discriminate; eauto. Qed.

Lemma exec_step_keeps_w (s : gstep) (m m' : Motex) :
  step_on_w s = false -> exec_step s m = Done m' -> w m' = w m.
Proof.
  destruct s; simpl; try discriminate; intros _ H;
    apply bind_done in H as (x & _ & H); inversion H; reflexivity.
Qed.

Lemma exec_step_keeps_g (s : gstep) (m m' : Motex) :
  step_on_g s = false -> exec_step s m = Done m' -> g m' = g m.
Proof.
  destruct s; simpl; try discriminate; intros _ H;
    apply bind_done in H as (x & _ & H); inversion H; reflexivity.
Qed.

Lemma exec_steps_keep_w (ss : list gstep) (m m' : Motex) :
  forallb (fun s => negb (step_on_w s)) ss = true ->
  exec_steps ss m = Done m' -> w m' = w m.
Proof.
  revert m; induction ss as [|s ss IH]; simpl; intros m Hall H.
  - inversion H; reflexivity.
  - apply andb_prop in Hall as [Hs Hall].
    apply bind_done in H as (m1 & H1 & H2).
    rewrite (IH _ Hall H2). apply (exec_step_keeps_w s); [|assumption].
    destruct (step_on_w s); [discriminate|reflexivity].
Qed.

Lemma exec_steps_keep_g (ss : list gstep) (m m' : Motex) :
  forallb (fun s => negb (step_on_g s)) ss = true ->
  exec_steps ss m = Done m' -> g m' = g m.
Proof.
  revert m; induction ss as [|s ss IH]; simpl; intros m Hall H.
  - inversion H; reflexivity.
  - apply andb_prop in Hall as [Hs Hall].
    apply bind_done in H as (m1 & H1 & H2).
    rewrite (IH _ Hall H2). apply (exec_step_keeps_g s); [|assumption].
    destruct (step_on_g s); [discriminate|reflexivity].
Qed.

(** Running calls in sequence is running their steps in sequence. *)
Lemma exec_steps_app (ss1 ss2 : list gstep) (m : Motex) :
  exec_steps (ss1 ++ ss2) m = bind (exec_steps ss1 m) (exec_steps ss2).
Proof.
  revert m; induction ss1 as [|s ss1 IH]; simpl; intros m; [reflexivity|].
  destruct (exec_step s m); simpl; auto.
Qed.

Lemma run_calls_final (cs : list call) (m : Motex) :
  final (run_calls cs m) = exec_steps (concat (map steps_of cs)) m.
Proof.
  revert m; induction cs as [|c cs IH]; simpl; intros m; [reflexivity|].
  rewrite exec_steps_app. unfold exec_call.
  destruct (exec_steps (steps_of c) m); simpl; auto.
Qed.

Lemma run_calls_app (cs1 cs2 : list call) (m : Motex) :
  run_calls (cs1 ++ cs2) m =
  match final (run_calls cs1 m) with
  | Done m' => {| trace := trace (run_calls cs1 m) ++ trace (run_calls cs2 m');
                  final := final (run_calls cs2 m') |}
  | _ => run_calls cs1 m
  end.
Proof.
  revert m; induction cs1 as [|c cs1 IH]; simpl; intros m.
  - destruct (run_calls cs2 m); reflexivity.
  - destruct (exec_call c m) as [m1| |]; simpl; try reflexivity.
    rewrite IH. destruct (run_calls cs1 m1) as [t1 [m2| |]]; reflexivity.
Qed.

(** The trace is a prefix of the calls, and all of them when the run
    returns. *)
Lemma run_calls_trace_done (cs : list call) (m m' : Motex) :
  final (run_calls cs m) = Done m' -> trace (run_calls cs m) = cs.
Proof.
  revert m; induction cs as [|c cs IH]; simpl; intros m H; [reflexivity|].
  destruct (exec_call c m) as [m1| |]; simpl in *; try discriminate.
  f_equal; eauto.
Qed.

(** The methods of [motex.go] leave [g] alone. *)
Lemma bare_keeps_g (o : op) (m m' : Motex) :
  final (run_op bare o m) = Done m' -> g m' = g m.
Proof.
  unfold run_op. rewrite run_calls_final. apply exec_steps_keep_g.
  destruct o; reflexivity.
Qed.

(** C2. Each operation, started in a state that meets its requirement and
    in which the gates it acquires are available, returns after making
    exactly the gate calls of its body, in order; these are, on the write
    gate and the read/write gate, the actions of the operations table;
    and the instance is left in the state the table gives.  From any
    state of the gates, an operation that returns has made exactly the
    calls of its body. *)
Theorem operations_perform_table_effects (v : variant) (o : op) (s : lstate) :
  pre o s = true ->
  available o s = true ->
  run_op v o (gates v s) =
    {| trace := body v o; final := Done (gates v (post o s)) |} /\
  gate_calls (body v o) = table_effect o /\
  (forall m m', final (run_op v o m) = Done m' -> trace (run_op v o m) = body v o).
Proof.
  intros Hpre Hav. split; [|split].
  - destruct s as [md n].
    destruct v, o, md; simpl in *; try discriminate;
      try reflexivity; destruct n; try discriminate; reflexivity.
  - destruct v, o; reflexivity.
  - intros m m'. apply run_calls_trace_done.
Qed.

Lemma operations_perform_table_effects_witness :
  run_op guarded Demote (gates guarded {| mode := WriteLocked; rlocks := 2 |}) =
    {| trace := [r_Unlock; r_RLock; g_Lock];
       final := Done (gates guarded {| mode := WriteLockedDemoted; rlocks := 2 |}) |} /\
  gate_calls (body guarded Demote) = [r_Unlock; r_RLock].
Proof.
  destruct (operations_perform_table_effects guarded Demote
              {| mode := WriteLocked; rlocks := 2 |} eq_refl eq_refl) as (H1 & H2 & _).
  split; assumption.
Defined.

(** C5. Each of the twelve enumerated misuses is caught at the offending
    call, in both versions: the calls before it return, and the offending
    call stops the process with a message naming an unlocked lock. *)
Theorem misuse_is_fatal :
  length misuses = 12 /\ Forall (fun x => forall v, caught v x) misuses.
Proof.
  split; [reflexivity|].
  repeat constructor; intros [];
    (eexists; split; [reflexivity | reflexivity]).
Qed.

(** The thirteenth case of the test table, "Unlock before Demote". *)
Lemma Demote_after_Unlock_is_fatal (v : variant) : caught v ([Lock; Unlock], Demote).
Proof. destruct v; (eexists; split; [reflexivity | reflexivity]). Qed.

(** C8. The call sequence of TestMotexDoesntDeadlock runs to completion
    on a fresh lock, in both versions: every gate call of every method
    returns (none blocks, none is fatal), and the lock ends unlocked. *)
Theorem doesnt_deadlock (v : variant) :
  run_ops v doesnt_deadlock_calls fresh =
    {| trace := concat (map (body v) doesnt_deadlock_calls);
       final := Done fresh |}.
Proof. destruct v; reflexivity. Qed.

(** C4. Some call sequence breaks a requirement of the state machine and
    yet runs to completion on [motex.go] without any fatal error:
    [RLock] then [Promote]. *)
Theorem bare_gates_miss_a_misuse :
  exists os : list op,
    legal start os = false /\
    exists m, final (run_ops bare os fresh) = Done m.
Proof.
  exists [RLock; Promote]. split; [reflexivity|].
  eexists; reflexivity.
Qed.

(** Another one, missed by both versions at the offending call: [RUnlock]
    of the slot taken by [Demote]. *)
Lemma RUnlock_of_demoted_slot_returns (v : variant) :
  legal start [Lock; Demote; RUnlock] = false /\
  exists m, final (run_ops v [Lock; Demote; RUnlock] fresh) = Done m.
Proof. split; [reflexivity|]. destruct v; eexists; reflexivity. Qed.

(** C3, on [motex.go]: after a plain [RLock], [Promote] returns.  It
    releases the shared slot and takes [r] for writing; nothing is fatal,
    and the lock is left held for writing with [w] unlocked. *)
Theorem bare_Promote_after_RLock_returns :
  run_ops bare [RLock; Promote] fresh =
    {| trace := [r_RLock; r_RUnlock; r_Lock];
       final := Done {| w := {| held := false |};
                        r := {| writer := WHeld; readers := 0 |};
                        g := {| held := false |} |} |}.
Proof. reflexivity. Qed.

(** On the guarded version [Promote] is fatal when the lock was never
    locked, is locked for writing and not demoted (which is also its
    state after one [Promote]), or is held by one plain [RLock]. *)
Lemma guarded_Promote_is_fatal (s : lstate) :
  (mode s = Unlocked /\ rlocks s <= 1) \/ (mode s = WriteLocked /\ rlocks s = 0) ->
  fatal_unlocked (final (run_op guarded Promote (gates guarded s))) = true.
Proof.
  destruct s as [md n]; simpl.
  intros [[-> Hn] | [-> ->]]; [|reflexivity].
  destruct n as [|[|n]]; [reflexivity | reflexivity | lia].
Qed.

(** Those three cases in [motex.go]: the first two are fatal as well. *)
Lemma bare_Promote_is_fatal (s : lstate) :
  (mode s = Unlocked /\ rlocks s = 0) \/ (mode s = WriteLocked /\ rlocks s = 0) ->
  fatal_unlocked (final (run_op bare Promote (gates bare s))) = true.
Proof.
  destruct s as [md n]; simpl.
  intros [[-> ->] | [-> ->]]; reflexivity.
Qed.

(** ** The two versions on legal call sequences *)

Lemma gate_calls_body (o : op) : gate_calls (body guarded o) = body bare o.
Proof. destruct o; reflexivity. Qed.

Lemma gate_calls_app (cs1 cs2 : list call) :
  gate_calls (cs1 ++ cs2) = gate_calls cs1 ++ gate_calls cs2.
Proof. apply List.filter_app. Qed.

(** A legal call whose gates are available returns, in either version. *)
Lemma legal_call_returns (v : variant) (o : op) (s : lstate) :
  pre o s = true -> available o s = true ->
  run_op v o (gates v s) = {| trace := body v o; final := Done (gates v (post o s)) |}.
Proof.
  intros Hpre Hav. destruct s as [md n].
  destruct v, o, md; simpl in *; try discriminate;
    try reflexivity; destruct n; try discriminate; reflexivity.
Qed.

(** A legal call that finds a gate taken waits, at the same gate call in
    both versions, and never at a call on [g]. *)
Lemma legal_call_waits (o : op) (s : lstate) :
  pre o s = true -> available o s = false ->
  final (run_op guarded o (gates guarded s)) = Blocks /\
  final (run_op bare o (gates bare s)) = Blocks /\
  gate_calls (trace (run_op guarded o (gates guarded s))) =
    trace (run_op bare o (gates bare s)).
Proof.
  destruct s as [md n].
  destruct o, md; simpl; try discriminate; intros _ Hav;
    destruct n; try discriminate; repeat split; reflexivity.
Qed.

Lemma run_ops_cons (v : variant) (o : op) (os : list op) (m : Motex) :
  run_ops v (o :: os) m =
  match final (run_op v o m) with
  | Done m' => {| trace := trace (run_op v o m) ++ trace (run_ops v os m');
                  final := final (run_ops v os m') |}
  | _ => run_op v o m
  end.
Proof.
  unfold run_ops, run_op.
  change (concat (map (body v) (o :: os))) with (body v o ++ concat (map (body v) os)).
  apply run_calls_app.
Qed.

Lemma variants_agree_from (os : list op) (s : lstate) :
  legal s os = true ->
  gate_calls (trace (run_ops guarded os (gates guarded s))) =
    trace (run_ops bare os (gates bare s)) /\
  ((exists s', final (run_ops guarded os (gates guarded s)) = Done (gates guarded s') /\
               final (run_ops bare os (gates bare s)) = Done (gates bare s')) \/
   (final (run_ops guarded os (gates guarded s)) = Blocks /\
    final (run_ops bare os (gates bare s)) = Blocks)).
Proof.
  revert s; induction os as [|o os IH]; intros s Hl.
  - split; [reflexivity|]. left; exists s; split; reflexivity.
  - simpl in Hl. apply andb_prop in Hl as [Hpre Hl].
    rewrite !run_ops_cons.
    destruct (available o s) eqn:Hav.
    + rewrite (legal_call_returns guarded o s Hpre Hav).
      rewrite (legal_call_returns bare o s Hpre Hav). cbn [final trace].
      destruct (IH _ Hl) as [Ht Hf].
      split; [|exact Hf].
      rewrite gate_calls_app, gate_calls_body. f_equal. exact Ht.
    + destruct (legal_call_waits o s Hpre Hav) as (Hg & Hb & Ht).
      rewrite Hg, Hb.
      split; [exact Ht | right; split; assumption].
Qed.

(** C10. On every legal call sequence, started on a fresh lock, the two
    versions make the same calls on the write gate and the read/write
    gate, in the same order; neither is stopped by a fatal error; and
    they end alike: both return, leaving the same [w] and [r], or both
    wait at the same call. *)
Theorem variants_agree_on_legal_sequences (os : list op) :
  legal start os = true ->
  gate_calls (trace (run_ops guarded os fresh)) = trace (run_ops bare os fresh) /\
  is_fatal (final (run_ops guarded os fresh)) = false /\
  is_fatal (final (run_ops bare os fresh)) = false /\
  ((exists mg mb, final (run_ops guarded os fresh) = Done mg /\
                  final (run_ops bare os fresh) = Done mb /\
                  w mg = w mb /\ r mg = r mb) \/
   (final (run_ops guarded os fresh) = Blocks /\
    final (run_ops bare os fresh) = Blocks)).
Proof.
  intros Hl. destruct (variants_agree_from os start Hl) as [Ht Hf].
  change (gates guarded start) with fresh in *.
  change (gates bare start) with fresh in *.
  split; [exact Ht|].
  destruct Hf as [(s' & Hg & Hb) | [Hg Hb]]; rewrite Hg, Hb.
  - repeat split; try reflexivity. left. eexists _, _. repeat split; reflexivity.
  - repeat split; try reflexivity. right; split; reflexivity.
Qed.

Lemma variants_agree_on_legal_sequences_witness :
  gate_calls (trace (run_ops guarded [Lock; Demote; RLock; RUnlock; Promote; Unlock] fresh))
    = trace (run_ops bare [Lock; Demote; RLock; RUnlock; Promote; Unlock] fresh) /\
  is_fatal (final (run_ops guarded [Lock; Demote; RLock; RUnlock; Promote; Unlock] fresh)) = false /\
  is_fatal (final (run_ops bare [Lock; Demote; RLock; RUnlock; Promote; Unlock] fresh)) = false /\
  ((exists mg mb,
      final (run_ops guarded [Lock; Demote; RLock; RUnlock; Promote; Unlock] fresh) = Done mg /\
      final (run_ops bare [Lock; Demote; RLock; RUnlock; Promote; Unlock] fresh) = Done mb /\
      w mg = w mb /\ r mg = r mb) \/
   (final (run_ops guarded [Lock; Demote; RLock; RUnlock; Promote; Unlock] fresh) = Blocks /\
    final (run_ops bare [Lock; Demote; RLock; RUnlock; Promote; Unlock] fresh) = Blocks)).
Proof.
  apply (variants_agree_on_legal_sequences [Lock; Demote; RLock; RUnlock; Promote; Unlock]).
  reflexivity.
Defined.

(** The guard does change behaviour on an illegal sequence. *)
Lemma variants_differ_on_illegal_sequence :
  legal start [RLock; Promote] = false /\
  is_fatal (final (run_ops guarded [RLock; Promote] fresh)) = true /\
  is_fatal (final (run_ops bare [RLock; Promote] fresh)) = false.
Proof. repeat split; reflexivity. Qed.

(** * The bookkeeping is only bookkeeping *)

Lemma map_insert_list {A B} (f : A -> B) (l : list A) (i : nat) (x : A) :
  map f (<[i := x]> l) = <[i := f x]> (map f l).
Proof.
  revert i; induction l as [|a l IH]; intros [|i]; simpl; try reflexivity.
  rewrite IH. reflexivity.
Qed.

Lemma map_lookup_list {A B} (f : A -> B) (l : list A) (i : nat) :
  map f l !! i = option_map f (l !! i).
Proof.
  revert i; induction l as [|a l IH]; intros [|i]; simpl; try reflexivity. apply IH.
Qed.

(** Two configurations that differ only in the bookkeeping make the same
    steps, and stay that way. *)
Lemma step_ignores_bookkeeping (v : variant) (i : nat) (c1 c2 : config) :
  visible c1 = visible c2 ->
  match step v i c1, step v i c2 with
  | Done a, Done b => visible a = visible b
  | Blocks, Blocks => True
  | Fatal s1, Fatal s2 => s1 = s2
  | _, _ => False
  end.
Proof.
  unfold visible. intros H. injection H as Hm Hs Hp.
  pose proof (f_equal (fun l => l !! i) Hp) as Hi. simpl in Hi.
  rewrite !map_lookup_list in Hi.
  unfold step. rewrite Hm, Hs.
  destruct (pool c1 !! i) as [t1|], (pool c2 !! i) as [t2|]; simpl in Hi;
    try discriminate; [|exact I].
  injection Hi as Hf Hk Ho. rewrite Hf, Hk, Ho.
  destruct (frame t2) as [[o [|s ss]]|].
  - simpl. rewrite !map_insert_list, Hp. reflexivity.
  - destruct (exec_step s (mo c2)); simpl; [|exact I|reflexivity].
    rewrite !map_insert_list, Hp. reflexivity.
  - destruct (cont t2) as [|[o| |] k]; simpl; [exact I| | |];
      rewrite !map_insert_list, Hp; reflexivity.
Qed.

(** * Schedules *)

Lemma events_app (v : variant) (s1 s2 : list nat) (c c' : config) :
  run_schedule v s1 c = Done c' ->
  events v (s1 ++ s2) c = events v s1 c ++ events v s2 c'.
Proof.
  revert c; induction s1 as [|i s1 IH]; simpl; intros c H.
  - injection H as <-. reflexivity.
  - apply bind_done in H as (c1 & H1 & H2). rewrite H1.
    destruct (event_of i c); rewrite (IH _ H2); reflexivity.
Qed.

Lemma run_schedule_app (v : variant) (s1 s2 : list nat) (c : config) :
  run_schedule v (s1 ++ s2) c = bind (run_schedule v s1 c) (run_schedule v s2).
Proof.
  revert c; induction s1 as [|i s1 IH]; simpl; intros c; [reflexivity|].
  destruct (step v i c); simpl; auto.
Qed.

(** * Goroutines: the invariant *)

Lemma sum_insert {A} (f : A -> nat) (l : list A) (i : nat) (x y : A) :
  l !! i = Some x ->
  sum_list_with f (<[i := y]> l) + f x = sum_list_with f l + f y.
Proof.
  revert i; induction l as [|a l IH]; intros [|i] H; simpl in *; try discriminate.
  - inversion H; subst; lia.
  - specialize (IH _ H). lia.
Qed.

Lemma sum_le {A} (f k : A -> nat) (l : list A) :
  Forall (fun x => f x <= k x) l -> sum_list_with f l <= sum_list_with k l.
Proof. induction 1; simpl; lia. Qed.

Lemma sum_delete {A} (f : A -> nat) (l : list A) (i : nat) (x : A) :
  l !! i = Some x ->
  sum_list_with f l = f x + sum_list_with f (delete i l).
Proof.
  revert i; induction l as [|a l IH]; intros [|i] H; simpl in *; try discriminate.
  - inversion H; subst; lia.
  - specialize (IH _ H). lia.
Qed.

Lemma Forall_delete_list {A} (P : A -> Prop) (l : list A) (i : nat) :
  Forall P l -> Forall P (delete i l).
Proof.
  revert i; induction l as [|a l IH]; intros i H; [destruct i; exact H|].
  inversion H; subst. destruct i; simpl; [assumption|]. constructor; auto.
Qed.

Lemma lookup_delete_other {A} (l : list A) (i j : nat) (y : A) :
  i <> j -> l !! j = Some y -> y ∈ delete i l.
Proof.
  revert i j; induction l as [|a l IH]; intros i j Hne H; [destruct j; discriminate|].
  destruct i, j; simpl in *; try congruence.
  - apply list_elem_of_lookup. eauto.
  - inversion H; subst. left.
  - right. eapply IH; [|eassumption]. congruence.
Qed.

Lemma sum_pos_elem {A} (f : A -> nat) (l : list A) :
  0 < sum_list_with f l -> exists i x, l !! i = Some x /\ 0 < f x.
Proof.
  induction l as [|a l IH]; simpl; [lia|]. intros H.
  destruct (f a) eqn:Hfa.
  - destruct IH as (i & x & Hi & Hx); [lia|]. exists (S i), x. auto.
  - exists 0, a. simpl. split; [reflexivity | lia].
Qed.

(** ** Goroutine-local facts *)

Lemma effs_snoc (o : op) (done : list gstep) (s : gstep) (h : owned) :
  effs o (done ++ [s]) h = eff o s (effs o done h).
Proof. unfold effs. rewrite fold_left_app. reflexivity. Qed.

(** Enumerates the ways a method body splits into the part executed and
    the part still to do. *)
Ltac split_body H :=
  repeat match type of H with
    | _ = ?d ++ _ =>
        destruct d as [|? d]; simpl in H;
        [ try (subst; discriminate)
        | try discriminate;
          let E := fresh "E" in
          injection H as E H; try subst ]
    end.

Lemma twf_local (v : variant) (th : goroutine) : twf v th -> local (own th).
Proof.
  unfold twf. destruct th as [fr k ol [md n] h]; simpl.
  destruct fr as [[o ss]|].
  - intros (Hpre & _ & done & Hs & -> & Hlock).
    destruct v, o, md; simpl in Hpre; try discriminate;
      unfold body_steps in Hs; simpl in Hs;
      split_body Hs; subst;
      try (specialize (Hlock eq_refl ltac:(discriminate)); discriminate);
      repeat split; intros; simpl in *; repeat split; congruence.
  - intros [-> _]. destruct v, md; repeat split; intros; simpl in *; repeat split; congruence.
Qed.

Lemma twf_ok (v : variant) (th : goroutine) (o : op) (s : gstep) (ss : list gstep) :
  twf v th -> frame th = Some (o, s :: ss) -> ok o s (own th) = true.
Proof.
  unfold twf. destruct th as [fr k ol [md n] h]; simpl.
  intros Ht ->. destruct Ht as (Hpre & _ & done & Hs & -> & _).
  destruct v, o, md; simpl in Hpre; try discriminate;
    unfold body_steps in Hs; simpl in Hs;
    split_body Hs; try (inversion Hs; subst; clear Hs); try reflexivity;
    destruct n; try discriminate; reflexivity.
Qed.

Lemma twf_return (v : variant) (th : goroutine) (o : op) :
  twf v th -> frame th = Some (o, []) -> own th = owned_of v (post o (st th)).
Proof.
  unfold twf. destruct th as [fr k ol [md n] h]; simpl.
  intros Ht ->. destruct Ht as (Hpre & _ & done & Hs & -> & Hlock).
  rewrite app_nil_r in Hs. subst done.
  destruct o.
  - rewrite Hlock; [destruct v; reflexivity | reflexivity | destruct v; discriminate].
  - destruct v, md; try discriminate; reflexivity.
  - destruct v, md; try discriminate; reflexivity.
  - destruct v, md; try discriminate; reflexivity.
  - destruct v, md; reflexivity.
  - destruct v, md, n; try discriminate; reflexivity.
Qed.

(** ** The tallies follow every gate step *)

Ltac fin Hr :=
  repeat split; try lia;
  try (let Hh := fresh in
       intros Hh; try discriminate; try (specialize (Hr Hh)); try lia; auto).

Lemma tallies_step (m m' : Motex) (l : list goroutine) (i : nat)
    (th th' : goroutine) (o : op) (s : gstep) :
  tallies m l ->
  l !! i = Some th ->
  ok o s (own th) = true ->
  exec_step s m = Done m' ->
  own th' = eff o s (own th) ->
  tallies m' (<[i := th']> l).
Proof.
  intros (Hw & Hp & Hx & Hs & Hg & Hr) Hi Hok Hex Hown.
  pose proof (sum_insert n_hw l i th th' Hi) as Iw.
  pose proof (sum_insert n_hp l i th th' Hi) as Ip.
  pose proof (sum_insert n_hx l i th th' Hi) as Ix.
  pose proof (sum_insert n_hs l i th th' Hi) as Is.
  pose proof (sum_insert n_hg l i th th' Hi) as Ig.
  pose proof (sum_delete n_hw l i th Hi) as Dw.
  pose proof (sum_delete n_hp l i th Hi) as Dp.
  pose proof (sum_delete n_hx l i th Hi) as Dx.
  pose proof (sum_delete n_hs l i th Hi) as Ds.
  pose proof (sum_delete n_hg l i th Hi) as Dg.
  unfold tallies, n_hw, n_hp, n_hx, n_hs, n_hg in *.
  rewrite Hown in *. clear Hown Hi.
  destruct m as [[bw] [wr n] [bg]].
  destruct (own th) as [a b c d e f].
  destruct s; simpl in *;
    apply bind_done in Hex as (x & Hex1 & Hex2); injection Hex2 as <-;
    unfold Mutex_Lock, Mutex_Unlock, RWMutex_announce, RWMutex_acquire,
      RWMutex_Unlock, RWMutex_RLock, RWMutex_RUnlock in Hex1;
    simpl in *.
  - destruct bw; inversion Hex1; subst x; simpl in *. fin Hr.
  - destruct bw; inversion Hex1; subst x a; simpl in *. fin Hr.
  - destruct wr; inversion Hex1; subst x; simpl in *. fin Hr.
  - destruct wr, n; inversion Hex1; subst x b; simpl in *. fin Hr.
  - destruct wr; inversion Hex1; subst x c; simpl in *. fin Hr.
  - destruct wr; inversion Hex1; subst x; simpl in *.
    destruct (bool_decide (o = Demote)); simpl in *;
      [destruct d; try discriminate|]; simpl in *; fin Hr.
  - destruct n; inversion Hex1; subst x; simpl in *.
    destruct (bool_decide (o = Promote)); simpl in *.
    + subst d; simpl in *. fin Hr.
    + apply bool_decide_eq_true in Hok. destruct e; [lia|]. simpl in *.
      fin Hr.
  - destruct bg; inversion Hex1; subst x; simpl in *. fin Hr.
  - destruct bg; inversion Hex1; subst x f; simpl in *. fin Hr.
Qed.

Lemma tallies_same (m : Motex) (l : list goroutine) (i : nat) (th th' : goroutine) :
  l !! i = Some th -> own th' = own th ->
  tallies m l -> tallies m (<[i := th']> l).
Proof.
  intros Hi Hown (Hw & Hp & Hx & Hs & Hg & Hr).
  pose proof (sum_insert n_hw l i th th' Hi) as Iw.
  pose proof (sum_insert n_hp l i th th' Hi) as Ip.
  pose proof (sum_insert n_hx l i th th' Hi) as Ix.
  pose proof (sum_insert n_hs l i th th' Hi) as Is.
  pose proof (sum_insert n_hg l i th th' Hi) as Ig.
  unfold tallies, n_hw, n_hp, n_hx, n_hs, n_hg in *.
  rewrite Hown in *. repeat split; try lia. exact Hr.
Qed.

(** A goroutine that holds [w] is the only one to hold anything on the
    write side. *)
Lemma holder_of_w_is_alone (v : variant) (c : config) (i : nat) (th : goroutine) :
  Inv v c -> pool c !! i = Some th -> hw (own th) = true ->
  held (w (mo c)) = true /\
  sum_list_with n_hw (delete i (pool c)) = 0 /\
  sum_list_with n_hp (delete i (pool c)) = 0 /\
  sum_list_with n_hx (delete i (pool c)) = 0 /\
  sum_list_with n_hd (delete i (pool c)) = 0 /\
  sum_list_with n_hg (delete i (pool c)) = 0.
Proof.
  intros [(Hw & _) Ht] Hi Hhw.
  pose proof (sum_delete n_hw _ _ _ Hi) as Dw.
  unfold n_hw at 2 in Dw. rewrite Hhw in Dw. simpl in Dw.
  assert (Hle : forall f : goroutine -> nat,
            (forall u, twf v u -> f u <= n_hw u) ->
            sum_list_with f (delete i (pool c)) <= sum_list_with n_hw (delete i (pool c))).
  { intros f Hf. apply sum_le. eapply Forall_impl; [apply Forall_delete_list, Ht|].
    intros u Hu. apply Hf, Hu. }
  assert (Hloc : forall u, twf v u -> local (own u)) by (intros; eapply twf_local; eauto).
  destruct (held (w (mo c))); simpl in Hw; [|lia].
  split; [reflexivity|]. split; [lia|].
  repeat split.
  - enough (sum_list_with n_hp (delete i (pool c)) <= sum_list_with n_hw (delete i (pool c))) by lia.
    apply Hle. intros u Hu. destruct (Hloc u Hu) as (L & _). unfold n_hp, n_hw.
    destruct (hp (own u)); [rewrite L by reflexivity|]; simpl; lia.
  - enough (sum_list_with n_hx (delete i (pool c)) <= sum_list_with n_hw (delete i (pool c))) by lia.
    apply Hle. intros u Hu. destruct (Hloc u Hu) as (_ & L & _). unfold n_hx, n_hw.
    destruct (hx (own u)); [rewrite L by reflexivity|]; simpl; lia.
  - enough (sum_list_with n_hd (delete i (pool c)) <= sum_list_with n_hw (delete i (pool c))) by lia.
    apply Hle. intros u Hu. destruct (Hloc u Hu) as (_ & _ & L & _). unfold n_hd, n_hw.
    destruct (hd (own u)); [rewrite L by reflexivity|]; simpl; lia.
  - enough (sum_list_with n_hg (delete i (pool c)) <= sum_list_with n_hw (delete i (pool c))) by lia.
    apply Hle. intros u Hu. destruct (Hloc u Hu) as (_ & _ & _ & L & _). unfold n_hg, n_hw.
    destruct (hg (own u)); [rewrite L by reflexivity|]; simpl; lia.
Qed.

(** ** Every step keeps the invariant *)

Lemma Inv_step (v : variant) (i : nat) (c c' : config) :
  Inv v c -> step v i c = Done c' -> Inv v c'.
Proof.
  intros [Hta Ht] Hstep. unfold step in Hstep.
  destruct (pool c !! i) as [th|] eqn:Hi; [|discriminate].
  pose proof (proj1 (Forall_lookup _ _) Ht i th Hi) as Hth.
  destruct (frame th) as [[o [|s ss]]|] eqn:Hfr.
  - (* return *)
    injection Hstep as <-. split; simpl.
    + eapply tallies_same; eauto.
    + apply Forall_insert; [assumption|].
      pose proof (twf_return v th o Hth Hfr) as Hown.
      unfold twf in *. rewrite Hfr in Hth. simpl.
      destruct Hth as (_ & Hl & _). split; assumption.
  - (* gate step *)
    apply bind_done in Hstep as (m' & Hex & Hc). injection Hc as <-.
    pose proof (twf_ok v th o s ss Hth Hfr) as Hok.
    split; simpl.
    + eapply tallies_step; eauto.
    + apply Forall_insert; [assumption|].
      unfold twf in *. rewrite Hfr in Hth. simpl.
      destruct Hth as (Hpre & Hl & done & Hb & Hown & Hlock).
      split; [assumption|]. split; [assumption|].
      exists (done ++ [s]). rewrite <- app_assoc. simpl.
      split; [assumption|]. split; [rewrite effs_snoc, Hown; reflexivity|].
      intros -> _. destruct done as [|s0 done]; [|apply Hlock; [reflexivity|discriminate]].
      assert (s = s_w_Lock) as -> by (destruct v; cbv in Hb; congruence).
      destruct Hta as (Hw & _).
      pose proof (sum_delete n_hw _ _ _ Hi) as Dw.
      simpl in Hex. apply bind_done in Hex as (x & Hex & _).
      unfold Mutex_Lock in Hex. destruct (held (w (mo c))); [discriminate|].
      simpl in Hw. unfold n_hw at 2 in Dw. rewrite Hown in Dw. simpl in Dw.
      destruct (st th) as [[] n]; simpl in *; [reflexivity | lia | lia].
  - (* next statement *)
    unfold twf in Hth. rewrite Hfr in Hth. destruct Hth as [Hown Hl].
    destruct (cont th) as [|[o| |] k] eqn:Hk; [discriminate| | |];
      injection Hstep as <-; (split; simpl; [eapply tallies_same; eauto|]);
      (apply Forall_insert; [assumption|]); unfold twf; simpl.
    + simpl in Hl. apply andb_prop in Hl as [Hpre Hl].
      split; [assumption|]. split; [assumption|].
      exists []. split; [reflexivity|]. split; [assumption|]. intros _ H; congruence.
    + split; assumption.
    + split; assumption.
Qed.

Lemma Inv_spawn (v : variant) (ps : list (list instr)) :
  Forall (fun p => legal_prog p = true) ps -> Inv v (spawn ps).
Proof.
  intros Hps. split; simpl.
  - unfold tallies; simpl.
    induction ps as [|p ps IH]; simpl; [repeat split; discriminate|].
    inversion Hps; subst. specialize (IH ltac:(assumption)).
    unfold n_hw, n_hp, n_hx, n_hs, n_hg in *; simpl. exact IH.
  - induction Hps as [|p ps Hp Hps IH]; simpl; constructor; [|assumption].
    unfold twf; simpl. split; [destruct v; reflexivity | exact Hp].
Qed.

Lemma Inv_reachable (v : variant) (ps : list (list instr)) (c : config) :
  Forall (fun p => legal_prog p = true) ps ->
  reachable v (spawn ps) c -> Inv v c.
Proof.
  intros Hps [sched Hrun]. pose proof (Inv_spawn v ps Hps) as H0.
  revert H0 Hrun. generalize (spawn ps) as c0.
  induction sched as [|i sched IH]; simpl; intros c0 H0 Hrun.
  - injection Hrun as <-. assumption.
  - apply bind_done in Hrun as (c1 & H1 & H2). eapply IH; [|eassumption].
    eapply Inv_step; eassumption.
Qed.

(** ** Consequences of the invariant *)

Lemma others_hold_nothing (v : variant) (c : config) (i j : nat) (ti tj : goroutine) :
  Inv v c -> pool c !! i = Some ti -> hw (own ti) = true ->
  pool c !! j = Some tj -> j <> i ->
  hw (own tj) = false /\ hp (own tj) = false /\ hx (own tj) = false /\
  hd (own tj) = false /\ hg (own tj) = false.
Proof.
  intros HI Hi Hhw Hj Hne.
  destruct (holder_of_w_is_alone v c i ti HI Hi Hhw) as (_ & Zw & Zp & Zx & Zd & Zg).
  assert (Hin : tj ∈ delete i (pool c)) by (eapply lookup_delete_other; [|eassumption]; congruence).
  pose proof (sum_list_with_in _ n_hw _ Hin) as Lw.
  pose proof (sum_list_with_in _ n_hp _ Hin) as Lp.
  pose proof (sum_list_with_in _ n_hx _ Hin) as Lx.
  pose proof (sum_list_with_in _ n_hd _ Hin) as Ld.
  pose proof (sum_list_with_in _ n_hg _ Hin) as Lg.
  unfold n_hw, n_hp, n_hx, n_hd, n_hg in *.
  destruct (own tj) as [a b c0 d e f]; simpl in *.
  destruct a, b, c0, d, f; simpl in *; try lia; repeat split; reflexivity.
Qed.

Lemma holder_of_w_unique (v : variant) (c : config) (i j : nat) (ti tj : goroutine) :
  Inv v c -> pool c !! i = Some ti -> pool c !! j = Some tj ->
  hw (own ti) = true -> hw (own tj) = true -> i = j.
Proof.
  intros HI Hi Hj Hwi Hwj. destruct (decide (j = i)) as [->|Hne]; [reflexivity|].
  destruct (others_hold_nothing v c i j ti tj HI Hi Hwi Hj Hne) as (H & _). congruence.
Qed.

Lemma sum_hs_split (l : list goroutine) :
  sum_list_with n_hs l = sum_list_with n_hd l + sum_list_with n_nr l.
Proof. induction l as [|a l IH]; simpl; [reflexivity|]. unfold n_hs, n_hd, n_nr in *. lia. Qed.

(** Between two calls, the bookkeeping of a goroutine is that of its
    state. *)
Lemma twf_boundary (v : variant) (th : goroutine) :
  twf v th -> frame th = None -> own th = owned_of v (st th).
Proof. unfold twf. intros H E. rewrite E in H. apply H. Qed.

Lemma legal_programs_Inv (v : variant) (ps : list (list instr)) (sched : list nat)
    (c : config) :
  forallb legal_prog ps = true ->
  run_schedule v sched (spawn ps) = Done c -> Inv v c.
Proof.
  intros Hps Hrun. apply (Inv_reachable v ps); [|exists sched; exact Hrun].
  apply Forall_forall. intros p Hp. rewrite forallb_forall in Hps.
  apply Hps. apply list_elem_of_In. exact Hp.
Qed.

(** C6. In every state reached by goroutines running legal programs:
    at most one goroutine holds the write gate, and the gate is locked
    exactly when one does; when the read/write gate is held exclusively,
    it has no shared holder and exactly one goroutine holds it, which
    also holds the write gate; when a goroutine holds the slot taken by
    a [Demote], it holds the write gate, no other goroutine holds the
    write gate or a [Demote] slot, no writer holds or waits for the
    read/write gate, and the shared holders are this one slot plus the
    slots taken with [RLock].  A goroutine whose state between two calls
    is demoted holds that slot. *)
Theorem gate_invariants
    (v : variant) (ps : list (list instr)) (sched : list nat) (c : config) :
  forallb legal_prog ps = true ->
  run_schedule v sched (spawn ps) = Done c ->
  (forall i j ti tj,
     pool c !! i = Some ti -> pool c !! j = Some tj ->
     hw (own ti) = true -> hw (own tj) = true -> i = j) /\
  (held (w (mo c)) = true <->
     exists i ti, pool c !! i = Some ti /\ hw (own ti) = true) /\
  (writer (r (mo c)) = WHeld ->
     readers (r (mo c)) = 0 /\
     exists i ti, pool c !! i = Some ti /\ hx (own ti) = true /\ hw (own ti) = true /\
       forall j tj, pool c !! j = Some tj -> hx (own tj) = true -> j = i) /\
  (forall i ti,
     pool c !! i = Some ti -> hd (own ti) = true ->
     hw (own ti) = true /\ held (w (mo c)) = true /\
     (forall j tj, pool c !! j = Some tj -> j <> i ->
        hw (own tj) = false /\ hd (own tj) = false) /\
     writer (r (mo c)) = WFree /\
     readers (r (mo c)) = 1 + sum_list_with n_nr (pool c)) /\
  (forall i ti,
     pool c !! i = Some ti -> frame ti = None ->
     mode (st ti) = WriteLockedDemoted -> hd (own ti) = true).
Proof.
  intros Hps Hrun. pose proof (legal_programs_Inv v ps sched c Hps Hrun) as HI.
  pose proof HI as [(Hw & Hp & Hx & Hs & Hg & Hr) Ht].
  assert (Hloc : forall i ti, pool c !! i = Some ti -> local (own ti)).
  { intros i ti Hi. eapply twf_local, (proj1 (Forall_lookup _ _) Ht); eauto. }
  split; [|split; [|split; [|split]]].
  - intros i j ti tj Hi Hj Hwi Hwj. eapply holder_of_w_unique; eauto.
  - split.
    + intros Hh. rewrite Hh in Hw. simpl in Hw.
      destruct (sum_pos_elem n_hw (pool c)) as (i & ti & Hi & Hpos); [lia|].
      exists i, ti. split; [assumption|]. unfold n_hw in Hpos.
      destruct (hw (own ti)); [reflexivity | simpl in Hpos; lia].
    + intros (i & ti & Hi & Hwi).
      apply (holder_of_w_is_alone v c i ti HI Hi Hwi).
  - intros Hheld. split; [auto|]. rewrite Hheld in Hx.
    destruct (sum_pos_elem n_hx (pool c)) as (i & ti & Hi & Hpos); [lia|].
    assert (Hxi : hx (own ti) = true).
    { unfold n_hx in Hpos. destruct (hx (own ti)); [reflexivity | simpl in Hpos; lia]. }
    assert (Hwi : hw (own ti) = true)
      by (destruct (Hloc i ti Hi) as (_ & L & _); apply L; assumption).
    exists i, ti. repeat split; try assumption.
    intros j tj Hj Hxj. symmetry. eapply holder_of_w_unique; eauto.
    destruct (Hloc j tj Hj) as (_ & L & _); apply L; assumption.
  - intros i ti Hi Hdi.
    destruct (Hloc i ti Hi) as (_ & _ & Ld & _ & Lx).
    specialize (Ld Hdi). destruct (Lx Hdi) as [Hxi Hpi].
    destruct (holder_of_w_is_alone v c i ti HI Hi Ld) as (Hh & Zw & Zp & Zx & Zd & Zg).
    split; [assumption|]. split; [assumption|]. split; [|split].
    + intros j tj Hj Hne.
      destruct (others_hold_nothing v c i j ti tj HI Hi Ld Hj Hne) as (A & _ & _ & B & _).
      split; assumption.
    + pose proof (sum_delete n_hp _ _ _ Hi) as Dp.
      pose proof (sum_delete n_hx _ _ _ Hi) as Dx.
      unfold n_hp at 2 in Dp. unfold n_hx at 2 in Dx.
      rewrite Hpi in Dp. rewrite Hxi in Dx. simpl in Dp, Dx.
      destruct (writer (r (mo c))); [reflexivity | lia | lia].
    + rewrite <- Hs, sum_hs_split.
      pose proof (sum_delete n_hd _ _ _ Hi) as Dd.
      unfold n_hd at 2 in Dd. rewrite Hdi in Dd. simpl in Dd. lia.
  - intros i ti Hi Hfr Hm.
    rewrite (twf_boundary v ti); [|eapply (proj1 (Forall_lookup _ _) Ht); eauto|assumption].
    simpl. rewrite Hm. reflexivity.
Qed.

(** ** The write gate across Demote and Promote *)

Lemma window_body_keeps_w (v : variant) (o : op) :
  o = Demote \/ o = Promote ->
  forallb (fun s => negb (step_on_w s)) (body_steps v o) = true.
Proof. intros [-> | ->]; destruct v; reflexivity. Qed.

Lemma in_window_holds_w (v : variant) (th : goroutine) :
  twf v th -> in_window th = true -> hw (own th) = true.
Proof.
  unfold twf, in_window. destruct th as [fr k ol [md n] h]; simpl.
  destruct fr as [[o ss]|].
  - intros (Hpre & _ & done & Hs & -> & Hlock) Hwin.
    destruct v, o, md; simpl in Hpre, Hwin; try discriminate;
      unfold body_steps in Hs; simpl in Hs;
      split_body Hs; subst;
      try (specialize (Hlock eq_refl ltac:(discriminate)); discriminate);
      reflexivity.
  - intros [-> _] Hwin. destruct v, md; simpl in *; try discriminate; reflexivity.
Qed.

Lemma in_window_not_unlocking (v : variant) (th : goroutine) (o : op) (ss : list gstep) :
  twf v th -> in_window th = true -> frame th <> Some (o, s_w_Unlock :: ss).
Proof.
  unfold twf, in_window. destruct th as [fr k ol [md n] h]; simpl.
  intros Ht Hwin ->. destruct Ht as (Hpre & _ & done & Hs & _).
  destruct v, o, md; simpl in Hpre, Hwin; try discriminate;
    unfold body_steps in Hs; simpl in Hs;
    split_body Hs; try discriminate.
Qed.

Lemma window_methods_keep_w (v : variant) (o : op) (m m' : Motex) :
  o = Demote \/ o = Promote ->
  final (run_op v o m) = Done m' -> w m' = w m.
Proof.
  intros Ho. unfold run_op. rewrite run_calls_final.
  apply exec_steps_keep_w. apply (window_body_keeps_w v o Ho).
Qed.

(** While a goroutine is between its [Demote] and the end of its
    [Promote], no step of any goroutine changes the write gate. *)
Lemma window_step_keeps_w (v : variant) (c : config) (i : nat) (ti : goroutine) :
  Inv v c -> pool c !! i = Some ti -> in_window ti = true ->
  forall j c', step v j c = Done c' -> w (mo c') = w (mo c).
Proof.
  intros HI Hi Hwin. pose proof HI as [_ Ht].
  assert (Hti : twf v ti) by (eapply (proj1 (Forall_lookup _ _) Ht); eauto).
  pose proof (in_window_holds_w v ti Hti Hwin) as Hwi.
  destruct (holder_of_w_is_alone v c i ti HI Hi Hwi) as (Hheld & _).
  intros j c' Hstep. unfold step in Hstep.
  destruct (pool c !! j) as [tj|] eqn:Hj; [|discriminate].
  assert (Htj : twf v tj) by (eapply (proj1 (Forall_lookup _ _) Ht); eauto).
  destruct (frame tj) as [[o [|s ss]]|] eqn:Hfr.
  - injection Hstep as <-. reflexivity.
  - apply bind_done in Hstep as (m' & Hex & Hc). injection Hc as <-. simpl.
    destruct (step_on_w s) eqn:Hs; [|eapply exec_step_keeps_w; eauto].
    exfalso. destruct s; try discriminate.
    + simpl in Hex. unfold Mutex_Lock in Hex. rewrite Hheld in Hex. discriminate.
    + pose proof (twf_ok v tj o _ ss Htj Hfr) as Hok. simpl in Hok.
      assert (i = j) as <- by (eapply holder_of_w_unique; eauto).
      assert (ti = tj) as <- by congruence.
      apply (in_window_not_unlocking v ti o ss Hti Hwin Hfr).
  - destruct (cont tj) as [|[o| |] k]; [discriminate| | |];
      injection Hstep as <-; reflexivity.
Qed.

(** C1. [Demote] and [Promote] make no call on the write gate and leave
    it as it is.  And while a goroutine is between its [Demote] and the
    end of the matching [Promote], in any state that goroutines running
    legal programs reach: the write gate is locked, this goroutine holds
    it and no other does, a goroutine standing at [w.Lock] waits, and no
    step of any goroutine changes the write gate. *)
Theorem write_gate_held_across_window
    (v : variant) (ps : list (list instr)) (sched : list nat)
    (c : config) (i : nat) (ti : goroutine) :
  forallb legal_prog ps = true ->
  run_schedule v sched (spawn ps) = Done c ->
  pool c !! i = Some ti ->
  in_window ti = true ->
  List.filter on_w (body v Demote) = [] /\
  List.filter on_w (body v Promote) = [] /\
  (forall m m', final (run_op v Demote m) = Done m' -> w m' = w m) /\
  (forall m m', final (run_op v Promote m) = Done m' -> w m' = w m) /\
  held (w (mo c)) = true /\
  hw (own ti) = true /\
  (forall j tj, pool c !! j = Some tj -> j <> i -> hw (own tj) = false) /\
  (forall j tj o ss, pool c !! j = Some tj ->
     frame tj = Some (o, s_w_Lock :: ss) -> step v j c = Blocks) /\
  (forall j c', step v j c = Done c' -> w (mo c') = w (mo c)).
Proof.
  intros Hps Hrun Hi Hwin.
  split; [destruct v; reflexivity|]. split; [destruct v; reflexivity|].
  split; [intros m m'; apply window_methods_keep_w; left; reflexivity|].
  split; [intros m m'; apply window_methods_keep_w; right; reflexivity|].
  pose proof (legal_programs_Inv v ps sched c Hps Hrun) as HI.
  pose proof HI as [_ Ht].
  assert (Hti : twf v ti) by (eapply (proj1 (Forall_lookup _ _) Ht); eauto).
  pose proof (in_window_holds_w v ti Hti Hwin) as Hwi.
  destruct (holder_of_w_is_alone v c i ti HI Hi Hwi) as (Hheld & _).
  split; [assumption|]. split; [assumption|]. split; [|split].
  - intros j tj Hj Hne.
    apply (others_hold_nothing v c i j ti tj HI Hi Hwi Hj Hne).
  - intros j tj o ss Hj Hfr. unfold step. rewrite Hj, Hfr. simpl.
    unfold Mutex_Lock. rewrite Hheld. reflexivity.
  - apply (window_step_keeps_w v c i ti HI Hi Hwin).
Qed.

(** A step on [w] changes it. *)
Lemma exec_step_on_w_changes (s : gstep) (m m' : Motex) :
  step_on_w s = true -> exec_step s m = Done m' -> w m' <> w m.
Proof.
  destruct m as [[b] mr mg].
  destruct s; simpl; try discriminate; intros _ H;
    unfold Mutex_Lock, Mutex_Unlock in H; destruct b; simpl in H;
    try discriminate; injection H as <-; simpl; discriminate.
Qed.

(** So, as long as goroutine [i] stays between its [Demote] and the end
    of its [Promote], no goroutine makes a step on the write gate: no
    [w.Lock] returns and no [w.Unlock] is made, hence no other goroutine
    gets through a [Lock] or an [Unlock]. *)
Lemma no_step_on_w_in_window (v : variant) (ps : list (list instr)) (i : nat)
    (seg : list nat) :
  forallb legal_prog ps = true ->
  forall sched c c',
    run_schedule v sched (spawn ps) = Done c ->
    run_schedule v seg c = Done c' ->
    stays_in_window v i seg c ->
    Forall (fun e => step_on_w (snd e) = false) (events v seg c) /\
    w (mo c') = w (mo c).
Proof.
  intros Hps. induction seg as [|j seg IH]; simpl; intros sched c c' Hrun Hseg Hwin.
  - injection Hseg as <-. split; [constructor | reflexivity].
  - apply bind_done in Hseg as (c1 & H1 & H2). rewrite H1 in *.
    destruct Hwin as [(ti & Hi & Hw) Hwin].
    pose proof (window_step_keeps_w v c i ti
                  (legal_programs_Inv v ps sched c Hps Hrun) Hi Hw) as Hkeep.
    assert (Hrun1 : run_schedule v (sched ++ [j]) (spawn ps) = Done c1).
    { rewrite run_schedule_app, Hrun. simpl. rewrite H1. reflexivity. }
    destruct (IH (sched ++ [j]) c1 c' Hrun1 H2 Hwin) as [Hev Hw'].
    split; [|rewrite Hw'; apply (Hkeep j c1 H1)].
    unfold event_of. destruct (pool c !! j) as [tj|] eqn:Hj; [|assumption].
    destruct (frame tj) as [[o [|s ss]]|] eqn:Hfr; try assumption.
    constructor; [|assumption]. simpl.
    destruct (step_on_w s) eqn:Hs; [|reflexivity]. exfalso.
    pose proof (Hkeep j c1 H1) as Hk.
    unfold step in H1. rewrite Hj, Hfr in H1.
    apply bind_done in H1 as (m' & Hex & Hc). injection Hc as <-. simpl in Hk.
    apply (exec_step_on_w_changes s (mo c) m' Hs Hex Hk).
Qed.

(** ** Release operations *)

Lemma releasing_holds (v : variant) (th : goroutine) (o : op) (s : gstep) (ss : list gstep) :
  twf v th -> frame th = Some (o, s :: ss) -> is_release o = true ->
  match s with
  | s_r_Unlock => hx (own th) = true
  | s_w_Unlock => hw (own th) = true
  | s_r_RUnlock => 0 < nr (own th)
  | s_r_RLock => hw (own th) = true /\ hx (own th) = false /\ hp (own th) = false
  | s_g_Lock => hw (own th) = true /\ hg (own th) = false
  | _ => False
  end.
Proof.
  unfold twf. destruct th as [fr k ol [md n] h]; simpl.
  intros Ht ->. destruct Ht as (Hpre & _ & done & Hs & -> & _). intros Hrel.
  destruct v, o, md; simpl in Hpre, Hrel; try discriminate;
    unfold body_steps in Hs; simpl in Hs;
    split_body Hs; try (inversion Hs; subst; clear Hs); simpl; auto;
    apply bool_decide_eq_true in Hpre; simpl in Hpre; lia.
Qed.

Lemma release_step_enabled (v : variant) (c : config) (i : nat) (ti : goroutine) :
  Inv v c -> pool c !! i = Some ti -> releasing ti = true ->
  is_done (step v i c) = true.
Proof.
  intros HI Hi Hrel. pose proof HI as [(Hw & Hp & Hx & Hs & Hg & Hr) Ht].
  assert (Hti : twf v ti) by (eapply (proj1 (Forall_lookup _ _) Ht); eauto).
  unfold step. rewrite Hi. unfold releasing in Hrel.
  destruct (frame ti) as [[o [|s ss]]|] eqn:Hfr; [reflexivity| |].
  2: { destruct (cont ti) as [|[o| |] k]; try discriminate; reflexivity. }
  pose proof (releasing_holds v ti o s ss Hti Hfr Hrel) as Hown.
  pose proof (sum_delete n_hw _ _ _ Hi) as Dw.
  pose proof (sum_delete n_hp _ _ _ Hi) as Dp.
  pose proof (sum_delete n_hx _ _ _ Hi) as Dx.
  pose proof (sum_delete n_hs _ _ _ Hi) as Ds.
  pose proof (sum_delete n_hg _ _ _ Hi) as Dg.
  unfold n_hw at 2 in Dw. unfold n_hp at 2 in Dp. unfold n_hx at 2 in Dx.
  unfold n_hs at 2 in Ds. unfold n_hg at 2 in Dg.
  destruct s; try contradiction; simpl;
    unfold Mutex_Lock, Mutex_Unlock, RWMutex_Unlock, RWMutex_RLock, RWMutex_RUnlock.
  - rewrite Hown in Dw. simpl in Dw.
    destruct (held (w (mo c))); [reflexivity | simpl in Hw; lia].
  - rewrite Hown in Dx. simpl in Dx.
    destruct (writer (r (mo c))); simpl in *; first [lia | reflexivity].
  - destruct Hown as (Hwi & Hxi & Hpi).
    destruct (holder_of_w_is_alone v c i ti HI Hi Hwi) as (_ & _ & Zp & Zx & _).
    rewrite Hxi in Dx. rewrite Hpi in Dp. simpl in Dx, Dp.
    destruct (writer (r (mo c))); simpl in *; first [lia | reflexivity].
  - destruct (readers (r (mo c))); [lia | reflexivity].
  - destruct Hown as (Hwi & Hgi).
    destruct (holder_of_w_is_alone v c i ti HI Hi Hwi) as (_ & _ & _ & _ & _ & Zg).
    rewrite Hgi in Dg. simpl in Dg.
    destruct (held (g (mo c))); simpl in *; [lia | reflexivity].
Qed.

(** What a step does to the goroutine that makes it. *)
Lemma step_self (v : variant) (i : nat) (c c' : config) (ti : goroutine) :
  step v i c = Done c' -> pool c !! i = Some ti ->
  exists ti', pool c' !! i = Some ti' /\
    match frame ti with
    | Some (o, s :: ss) => frame ti' = Some (o, ss) /\ cont ti' = cont ti
    | Some (o, []) => frame ti' = None /\ cont ti' = cont ti
    | None =>
        match cont ti with
        | Call o :: k => frame ti' = Some (o, body_steps v o) /\ cont ti' = k
        | _ :: k => frame ti' = None /\ cont ti' = k
        | [] => False
        end
    end.
Proof.
  intros Hstep Hi. unfold step in Hstep. rewrite Hi in Hstep.
  pose proof (lookup_lt_Some _ _ _ Hi) as Hlt.
  destruct (frame ti) as [[o [|s ss]]|].
  - injection Hstep as <-. simpl. eexists. rewrite list_lookup_insert_eq by assumption.
    split; [reflexivity|]. split; reflexivity.
  - apply bind_done in Hstep as (m' & _ & Hc). injection Hc as <-. simpl.
    eexists. rewrite list_lookup_insert_eq by assumption.
    split; [reflexivity|]. split; reflexivity.
  - destruct (cont ti) as [|[o| |] k]; [discriminate| | |];
      injection Hstep as <-; simpl; eexists;
      rewrite list_lookup_insert_eq by assumption;
      (split; [reflexivity|]); split; reflexivity.
Qed.

Lemma release_runs_to_return (v : variant) (i n : nat) :
  forall (c : config) (ti : goroutine),
    Inv v c -> pool c !! i = Some ti -> releasing ti = true ->
    steps_to_return v ti = n ->
    exists c' ti',
      run_schedule v (replicate n i) c = Done c' /\
      pool c' !! i = Some ti' /\ frame ti' = None /\ cont ti' = after_call ti.
Proof.
  induction n as [|n IH]; intros c ti HI Hi Hrel Hn.
  - unfold steps_to_return, releasing in *.
    destruct (frame ti) as [[o ss]|]; [discriminate|].
    destruct (cont ti) as [|[o| |] k]; discriminate.
  - pose proof (release_step_enabled v c i ti HI Hi Hrel) as Hen.
    destruct (step v i c) as [c1| |] eqn:Hstep; try discriminate.
    destruct (step_self v i c c1 ti Hstep Hi) as (t1 & H1 & Hsh).
    pose proof (Inv_step v i c c1 HI Hstep) as HI1.
    unfold steps_to_return, releasing, after_call in *.
    simpl. rewrite Hstep. simpl.
    destruct (frame ti) as [[o [|s ss]]|] eqn:Hfr.
    + destruct Hsh as [Hf Hk]. injection Hn as <-. simpl.
      exists c1, t1. repeat split; assumption.
    + destruct Hsh as [Hf Hk].
      destruct (IH c1 t1 HI1 H1) as (c' & ti' & Hrun & Hi' & Hf' & Hk').
      * rewrite Hf. assumption.
      * rewrite Hf. simpl in *. lia.
      * exists c', ti'. rewrite Hf in Hk'. repeat split; try assumption. congruence.
    + destruct (cont ti) as [|[o| |] k] eqn:Hcont; try discriminate.
      destruct Hsh as [Hf Hk].
      destruct (IH c1 t1 HI1 H1) as (c' & ti' & Hrun & Hi' & Hf' & Hk').
      * rewrite Hf. assumption.
      * rewrite Hf. simpl in *. lia.
      * exists c', ti'. rewrite Hf in Hk'. repeat split; try assumption. simpl. congruence.
Qed.

(** C7. In any state that goroutines running legal programs reach, a
    goroutine that calls or is inside [Unlock], [RUnlock] or [Demote]
    can make its next step at once: the step neither waits nor is
    fatal.  This holds for the shared acquisition of [r] inside [Demote]
    and, in the guarded version, for its [g.Lock].  Run on its own from
    there, the goroutine gets to the end of the operation. *)
Theorem release_operations_never_block
    (v : variant) (ps : list (list instr)) (sched : list nat)
    (c : config) (i : nat) (ti : goroutine) :
  forallb legal_prog ps = true ->
  run_schedule v sched (spawn ps) = Done c ->
  pool c !! i = Some ti ->
  releasing ti = true ->
  is_done (step v i c) = true /\
  exists c' ti',
    run_schedule v (replicate (steps_to_return v ti) i) c = Done c' /\
    pool c' !! i = Some ti' /\ frame ti' = None /\ cont ti' = after_call ti.
Proof.
  intros Hps Hrun Hi Hrel.
  pose proof (legal_programs_Inv v ps sched c Hps Hrun) as HI.
  split.
  - eapply release_step_enabled; eauto.
  - eapply release_runs_to_return; eauto.
Qed.

(** ** Legal programs are never stopped by a fatal error *)

Lemma legal_never_fatal (v : variant) (c : config) (i : nat) :
  Inv v c -> is_fatal (step v i c) = false.
Proof.
  intros [(Hw & Hp & Hx & Hs & Hg & Hr) Ht]. unfold step.
  destruct (pool c !! i) as [ti|] eqn:Hi; [|reflexivity].
  assert (Hti : twf v ti) by (eapply (proj1 (Forall_lookup _ _) Ht); eauto).
  destruct (frame ti) as [[o [|s ss]]|] eqn:Hfr; [reflexivity| |].
  2: { destruct (cont ti) as [|[o| |] k]; reflexivity. }
  pose proof (twf_ok v ti o s ss Hti Hfr) as Hok.
  pose proof (sum_delete n_hw _ _ _ Hi) as Dw.
  pose proof (sum_delete n_hx _ _ _ Hi) as Dx.
  pose proof (sum_delete n_hs _ _ _ Hi) as Ds.
  pose proof (sum_delete n_hg _ _ _ Hi) as Dg.
  unfold n_hw at 2 in Dw. unfold n_hx at 2 in Dx.
  unfold n_hs at 2 in Ds. unfold n_hg at 2 in Dg.
  destruct s; simpl in *;
    unfold Mutex_Lock, Mutex_Unlock, RWMutex_announce, RWMutex_acquire,
      RWMutex_Unlock, RWMutex_RLock, RWMutex_RUnlock.
  - destruct (held (w (mo c))); reflexivity.
  - rewrite Hok in Dw. destruct (held (w (mo c))); simpl in *; [reflexivity | lia].
  - destruct (writer (r (mo c))); reflexivity.
  - destruct (writer (r (mo c))), (readers (r (mo c))); reflexivity.
  - rewrite Hok in Dx. destruct (writer (r (mo c))); simpl in *; first [lia | reflexivity].
  - destruct (writer (r (mo c))); reflexivity.
  - destruct (readers (r (mo c))); [|reflexivity].
    destruct (bool_decide (o = Promote)).
    + rewrite Hok in Ds. simpl in Ds. lia.
    + apply bool_decide_eq_true in Hok. lia.
  - destruct (held (g (mo c))); reflexivity.
  - rewrite Hok in Dg. destruct (held (g (mo c))); simpl in *; [reflexivity | lia].
Qed.

(** ** Every step brings the goroutines closer to the end *)

Lemma todo_insert (v : variant) (l : list goroutine) (i : nat) (ti ti' : goroutine) :
  l !! i = Some ti -> S (todo v ti') = todo v ti ->
  S (sum_list_with (todo v) (<[i := ti']> l)) = sum_list_with (todo v) l.
Proof. intros Hi H. pose proof (sum_insert (todo v) l i ti ti' Hi). lia. Qed.

Lemma step_decreases (v : variant) (i : nat) (c c' : config) :
  step v i c = Done c' -> S (measure v c') = measure v c.
Proof.
  intros Hstep. unfold step in Hstep.
  destruct (pool c !! i) as [ti|] eqn:Hi; [|discriminate].
  unfold measure.
  destruct (frame ti) as [[o [|s ss]]|] eqn:Hfr.
  - injection Hstep as <-. simpl. eapply todo_insert; [eassumption|].
    unfold todo. rewrite Hfr. reflexivity.
  - apply bind_done in Hstep as (m' & _ & Hc). injection Hc as <-. simpl.
    eapply todo_insert; [eassumption|]. unfold todo. rewrite Hfr. reflexivity.
  - destruct (cont ti) as [|[o| |] k] eqn:Hk; [discriminate| | |];
      injection Hstep as <-; simpl;
      (eapply todo_insert; [eassumption|]); unfold todo; rewrite Hfr, Hk; simpl; lia.
Qed.

(** ** The counter *)

Lemma wrap_succ (a : Z) : wrap (wrap a + 1) = wrap (a + 1).
Proof.
  unfold wrap. f_equal.
  replace ((a + 2 ^ 63) mod 2 ^ 64 - 2 ^ 63 + 1 + 2 ^ 63)%Z
    with ((a + 2 ^ 63) mod 2 ^ 64 + 1)%Z by lia.
  rewrite Zplus_mod_idemp_l. f_equal. lia.
Qed.

Lemma wrap_small (a : Z) : (- 2 ^ 63 <= a < 2 ^ 63)%Z -> wrap a = a.
Proof. intros H. unfold wrap. rewrite Z.mod_small; lia. Qed.

Lemma calls_of_app (p q : list instr) : calls_of (p ++ q) = calls_of p ++ calls_of q.
Proof.
  induction p as [|[o| |] p IH]; simpl; [reflexivity| | |]; rewrite ?IH; reflexivity.
Qed.

Lemma posts_snoc (s : lstate) (os : list op) (o : op) :
  posts s (os ++ [o]) = post o (posts s os).
Proof. unfold posts. rewrite fold_left_app. reflexivity. Qed.

(** A goroutine that moves on inside its current call, or enters it,
    keeps running its program. *)
Lemma tracks_same (p : list instr) (th th' : goroutine) :
  prog_rest th' = prog_rest th -> st th' = st th -> tracks p th -> tracks p th'.
Proof. intros Hr Hs (made & Hp & Hst). exists made. rewrite Hr, Hs. split; assumption. Qed.

Lemma tracks_return (p : list instr) (th th' : goroutine) (o : op) :
  prog_rest th = Call o :: prog_rest th' -> st th' = post o (st th) ->
  tracks p th -> tracks p th'.
Proof.
  intros Hr Hs (made & Hp & Hst). exists (made ++ [Call o]).
  rewrite <- app_assoc. simpl. rewrite <- Hr. split; [assumption|].
  rewrite calls_of_app. simpl. rewrite posts_snoc, Hs, Hst. reflexivity.
Qed.

Lemma tracks_next (p : list instr) (th th' : goroutine) (x : instr) :
  (x = Load \/ x = Store) ->
  prog_rest th = x :: prog_rest th' -> st th' = st th ->
  tracks p th -> tracks p th'.
Proof.
  intros Hx Hr Hs (made & Hp & Hst). exists (made ++ [x]).
  rewrite <- app_assoc. simpl. rewrite <- Hr. split; [assumption|].
  rewrite calls_of_app, Hs, Hst.
  destruct Hx as [-> | ->]; simpl; rewrite app_nil_r; reflexivity.
Qed.

(** Enumerates the positions of a goroutine in [demotedIncrement]. *)
Ltac positions H :=
  unfold demotedIncrement in H;
  repeat match type of H with
    | _ = ?d ++ _ =>
        destruct d as [|? d]; simpl in H;
        [ try discriminate
        | try discriminate;
          let E := fresh "E" in
          injection H as E H; try subst ]
    end;
  try (inversion H; subst); try subst.

Lemma loaded_holds_w (v : variant) (th : goroutine) :
  twf v th -> tracks demotedIncrement th -> loaded th = true -> hw (own th) = true.
Proof.
  unfold twf, tracks, loaded, prog_rest.
  destruct th as [fr k ol s h]; simpl.
  intros Ht (made & Hp & ->) Hl.
  destruct fr as [[o ss]|].
  - destruct Ht as (Hpre & _ & done & Hs & -> & Hlock).
    positions Hp; simpl in Hl; try discriminate.
    destruct v; unfold body_steps in Hs; simpl in Hs; split_body Hs; subst; reflexivity.
  - destruct Ht as [-> _].
    positions Hp; simpl in Hl; try discriminate;
      destruct v; reflexivity.
Qed.

Lemma at_store (th : goroutine) (k : list instr) :
  tracks demotedIncrement th -> frame th = None -> cont th = Store :: k ->
  k = [Call Unlock] /\ loaded th = true.
Proof.
  unfold tracks, loaded, prog_rest.
  destruct th as [fr k0 ol s h]; simpl.
  intros (made & Hp & _) -> ->.
  positions Hp. split; reflexivity.
Qed.

Lemma at_store_holds_w (v : variant) (th : goroutine) (k : list instr) :
  twf v th -> tracks demotedIncrement th -> frame th = None -> cont th = Store :: k ->
  hw (own th) = true.
Proof.
  intros Ht Htr Hfr Hk. apply (loaded_holds_w v); try assumption.
  apply (at_store th k); assumption.
Qed.

Lemma stored_insert (l : list goroutine) (i : nat) (ti ti' : goroutine) :
  l !! i = Some ti -> stored ti' = stored ti ->
  sum_list_with stored (<[i := ti']> l) = sum_list_with stored l.
Proof. intros Hi H. pose proof (sum_insert stored l i ti ti' Hi). lia. Qed.

Lemma counting_step (v : variant) (i : nat) (c c' : config) :
  Inv v c -> counting c -> step v i c = Done c' -> counting c'.
Proof.
  intros HI (Htr & Hst & Hld) Hstep. pose proof HI as [_ Ht].
  unfold step in Hstep.
  destruct (pool c !! i) as [ti|] eqn:Hi; [|discriminate].
  pose proof (proj1 (Forall_lookup _ _) Htr i ti Hi) as Htri.
  pose proof (proj1 (Forall_lookup _ _) Hld i ti Hi) as Hldi.
  pose proof (proj1 (Forall_lookup _ _) Ht i ti Hi) as Hti.
  destruct (frame ti) as [[o [|s ss]]|] eqn:Hfr.
  - (* return *)
    injection Hstep as <-. unfold counting; simpl. split; [|split].
    + apply Forall_insert; [assumption|].
      eapply (tracks_return _ ti _ o); [| |eassumption].
      * unfold prog_rest. rewrite Hfr. reflexivity.
      * reflexivity.
    + rewrite Hst. do 2 f_equal. symmetry. eapply stored_insert; [eassumption|].
      unfold stored, prog_rest. rewrite Hfr. reflexivity.
    + apply Forall_insert; [assumption|]. simpl. intros Hl. apply Hldi.
      unfold loaded, prog_rest in *. rewrite Hfr. exact Hl.
  - (* gate step *)
    apply bind_done in Hstep as (m' & _ & Hc). injection Hc as <-.
    unfold counting; simpl. split; [|split].
    + apply Forall_insert; [assumption|].
      eapply (tracks_same _ ti); [| |eassumption].
      * unfold prog_rest. rewrite Hfr. reflexivity.
      * reflexivity.
    + rewrite Hst. do 2 f_equal. symmetry. eapply stored_insert; [eassumption|].
      unfold stored, prog_rest. rewrite Hfr. reflexivity.
    + apply Forall_insert; [assumption|]. simpl. intros Hl. apply Hldi.
      unfold loaded, prog_rest in *. rewrite Hfr. exact Hl.
  - destruct (cont ti) as [|[o| |] k] eqn:Hk; [discriminate| | |];
      injection Hstep as <-; unfold counting; simpl.
    + (* call *)
      split; [|split].
      * apply Forall_insert; [assumption|].
        eapply (tracks_same _ ti); [| |eassumption].
        -- unfold prog_rest. rewrite Hfr, Hk. reflexivity.
        -- reflexivity.
      * rewrite Hst. do 2 f_equal. symmetry. eapply stored_insert; [eassumption|].
        unfold stored, prog_rest. rewrite Hfr, Hk. reflexivity.
      * apply Forall_insert; [assumption|]. simpl. intros Hl. apply Hldi.
        unfold loaded, prog_rest in *. rewrite Hfr, Hk. exact Hl.
    + (* old := state *)
      split; [|split].
      * apply Forall_insert; [assumption|].
        eapply (tracks_next _ ti _ Load); [left; reflexivity| | |eassumption].
        -- unfold prog_rest. rewrite Hfr, Hk. reflexivity.
        -- reflexivity.
      * rewrite Hst. do 2 f_equal. symmetry. eapply stored_insert; [eassumption|].
        unfold stored, prog_rest. rewrite Hfr, Hk. reflexivity.
      * apply Forall_insert; [assumption|]. simpl. intros _. reflexivity.
    + (* state = old + 1 *)
      destruct (at_store ti k Htri Hfr Hk) as [-> Hli].
      pose proof (at_store_holds_w v ti _ Hti Htri Hfr Hk) as Hwi.
      split; [|split].
      * apply Forall_insert; [assumption|].
        eapply (tracks_next _ ti _ Store); [right; reflexivity| | |eassumption].
        -- unfold prog_rest. rewrite Hfr, Hk. reflexivity.
        -- reflexivity.
      * match goal with |- context [<[i := ?t]> _] => set (ti' := t) end.
        pose proof (sum_insert stored (pool c) i ti ti' Hi) as Hsum.
        assert (E1 : stored ti = 0)
          by (unfold stored, prog_rest; rewrite Hfr, Hk; reflexivity).
        assert (E2 : stored ti' = 1) by reflexivity.
        rewrite E1, E2 in Hsum.
        rewrite (Hldi Hli), Hst, wrap_succ. f_equal. lia.
      * apply Forall_lookup. intros j tj Hj.
        destruct (decide (j = i)) as [->|Hne].
        -- rewrite list_lookup_insert_eq in Hj by (eapply lookup_lt_Some; eauto).
           injection Hj as <-. simpl. discriminate.
        -- rewrite list_lookup_insert_ne in Hj by congruence.
           intros Hlj. exfalso.
           assert (hw (own tj) = true) as Hwj.
           { apply (loaded_holds_w v); [| |assumption].
             - eapply (proj1 (Forall_lookup _ _) Ht); eauto.
             - eapply (proj1 (Forall_lookup _ _) Htr); eauto. }
           apply Hne. eapply holder_of_w_unique; eauto.
Qed.

Lemma counting_spawn (n : nat) : counting (spawn (replicate n demotedIncrement)).
Proof.
  unfold counting; simpl. split; [|split].
  - induction n as [|n IH]; simpl; constructor; [|assumption].
    exists []. split; reflexivity.
  - replace (sum_list_with stored (map go (replicate n demotedIncrement))) with 0;
      [reflexivity|].
    induction n as [|n IH]; simpl; [reflexivity|]. rewrite <- IH. reflexivity.
  - induction n as [|n IH]; simpl; constructor; [|assumption].
    simpl. discriminate.
Qed.

Lemma legal_replicate (n : nat) :
  Forall (fun p => legal_prog p = true) (replicate n demotedIncrement).
Proof. induction n as [|n IH]; simpl; constructor; [reflexivity | assumption]. Qed.

Lemma counting_reachable (v : variant) (n : nat) (sched : list nat) (c : config) :
  run_schedule v sched (spawn (replicate n demotedIncrement)) = Done c ->
  Inv v c /\ counting c /\ length (pool c) = n.
Proof.
  intros Hrun.
  pose proof (Inv_spawn v _ (legal_replicate n)) as H0.
  pose proof (counting_spawn n) as K0.
  assert (L0 : length (pool (spawn (replicate n demotedIncrement))) = n)
    by (simpl; rewrite length_map, length_replicate; reflexivity).
  revert H0 K0 L0 Hrun. generalize (spawn (replicate n demotedIncrement)) as c0.
  induction sched as [|i sched IH]; simpl; intros c0 H0 K0 L0 Hrun.
  - injection Hrun as <-. auto.
  - apply bind_done in Hrun as (c1 & H1 & H2). eapply IH; [| | |eassumption].
    + eapply Inv_step; eassumption.
    + eapply counting_step; eassumption.
    + rewrite <- L0. clear -H1. unfold step in H1.
      destruct (pool c0 !! i) as [ti|]; [|discriminate].
      destruct (frame ti) as [[o [|s ss]]|].
      * injection H1 as <-. simpl. apply length_insert.
      * apply bind_done in H1 as (m' & _ & Hc). injection Hc as <-. simpl.
        apply length_insert.
      * destruct (cont ti) as [|[o| |] k]; [discriminate| | |];
          injection H1 as <-; simpl; apply length_insert.
Qed.

Lemma finished_stored (th : goroutine) : finished th = true -> stored th = 1.
Proof.
  unfold finished, stored, prog_rest.
  destruct (frame th) as [[o ss]|]; [discriminate|].
  destruct (cont th); [reflexivity | discriminate].
Qed.

Lemma final_count (c : config) :
  counting c -> all_finished c = true ->
  state c = wrap (Z.of_nat (length (pool c))).
Proof.
  intros (_ & -> & _) Hfin. do 2 f_equal.
  unfold all_finished in Hfin. induction (pool c) as [|th l IH]; simpl in *; [reflexivity|].
  apply andb_prop in Hfin as [H1 H2]. rewrite (finished_stored th H1), (IH H2). reflexivity.
Qed.

(** [demotedIncrement] takes no shared slot with [RLock]. *)
Lemma increment_no_rlock (v : variant) (th : goroutine) :
  twf v th -> tracks demotedIncrement th -> nr (own th) = 0.
Proof.
  unfold twf, tracks, prog_rest.
  destruct th as [fr k ol s h]; simpl.
  intros Ht (made & Hp & ->).
  destruct fr as [[o ss]|].
  - destruct Ht as (Hpre & _ & done & Hs & -> & Hlock).
    positions Hp; destruct v; unfold body_steps in Hs; simpl in Hs;
      split_body Hs; subst; reflexivity.
  - destruct Ht as [-> _]. positions Hp; reflexivity.
Qed.

(** What the gates look like to the goroutine that holds [w], when no
    goroutine holds a slot taken with [RLock]. *)
Lemma gate_view (v : variant) (c : config) (j : nat) (tj : goroutine) :
  Inv v c -> pool c !! j = Some tj -> hw (own tj) = true ->
  Forall (fun th => n_nr th = 0) (pool c) ->
  held (w (mo c)) = true /\
  writer (r (mo c)) =
    (if hx (own tj) then WHeld else if hp (own tj) then WWaiting else WFree) /\
  readers (r (mo c)) = Nat.b2n (hd (own tj)) /\
  held (g (mo c)) = hg (own tj).
Proof.
  intros HI Hj Hwj Hnr. pose proof HI as [(Hw & Hp & Hx & Hs & Hg & Hr) Ht].
  destruct (holder_of_w_is_alone v c j tj HI Hj Hwj) as (Hh & _ & Zp & Zx & Zd & Zg).
  pose proof (sum_delete n_hp _ _ _ Hj) as Dp.
  pose proof (sum_delete n_hx _ _ _ Hj) as Dx.
  pose proof (sum_delete n_hd _ _ _ Hj) as Dd.
  pose proof (sum_delete n_hg _ _ _ Hj) as Dg.
  assert (Zn : sum_list_with n_nr (pool c) = 0).
  { clear -Hnr. induction Hnr; simpl; [reflexivity | lia]. }
  rewrite sum_hs_split in Hs.
  unfold n_hp at 2 in Dp. unfold n_hx at 2 in Dx.
  unfold n_hd at 2 in Dd. unfold n_hg at 2 in Dg.
  split; [assumption|]. split; [|split].
  - destruct (hx (own tj)), (hp (own tj)), (writer (r (mo c))); simpl in *;
      first [reflexivity | lia].
  - lia.
  - destruct (hg (own tj)), (held (g (mo c))); simpl in *; first [reflexivity | lia].
Qed.

(** Each goroutine of the test has finished, can move, or does not hold
    [w] and finds it locked. *)
Lemma increment_step_cases (v : variant) (c : config) (j : nat) (tj : goroutine) :
  Inv v c -> counting c -> pool c !! j = Some tj ->
  (finished tj = true /\ hw (own tj) = false) \/
  is_done (step v j c) = true \/
  (hw (own tj) = false /\ held (w (mo c)) = true).
Proof.
  intros HI (Htr & _) Hj. pose proof HI as [_ Ht].
  pose proof (proj1 (Forall_lookup _ _) Htr j tj Hj) as Htrj.
  pose proof (proj1 (Forall_lookup _ _) Ht j tj Hj) as Htj.
  assert (Hnr : Forall (fun th => n_nr th = 0) (pool c)).
  { apply Forall_lookup. intros k tk Hk. apply (increment_no_rlock v).
    - eapply (proj1 (Forall_lookup _ _) Ht); eauto.
    - eapply (proj1 (Forall_lookup _ _) Htr); eauto. }
  unfold step. rewrite Hj.
  destruct (hw (own tj)) eqn:Hwj.
  - right; left.
    pose proof (gate_view v c j tj HI Hj Hwj Hnr) as Hv.
    revert Hv Hwj. clear Hj HI Ht Htr Hnr.
    unfold twf, tracks, prog_rest in *.
    destruct tj as [fr k ol s h]; simpl in *.
    destruct Htrj as (made & Hp & ->).
    destruct (mo c) as [[bw] [[] n] [bg]]; simpl;
    (destruct fr as [[o ss]|];
     [ destruct Htj as (Hpre & _ & done & Hs & -> & Hlock);
       positions Hp; destruct v; unfold body_steps in Hs; simpl in Hs;
       split_body Hs; subst; simpl;
       try (specialize (Hlock eq_refl ltac:(discriminate)));
       intros (-> & Hwr & -> & ->) Hwj; try discriminate; reflexivity
     | destruct Htj as [-> _]; positions Hp; simpl;
       intros (-> & Hwr & -> & ->) Hwj; try discriminate; reflexivity ]).
  - clear Hnr.
    unfold twf, tracks, prog_rest, finished in *.
    destruct tj as [fr k ol s h]; simpl in *.
    destruct Htrj as (made & Hp & ->).
    destruct fr as [[o ss]|].
    + destruct Htj as (Hpre & _ & done & Hs & -> & Hlock).
      positions Hp; destruct v; unfold body_steps in Hs; simpl in Hs;
        split_body Hs; subst; simpl in Hwj; try discriminate; simpl;
        try (right; left; reflexivity);
        unfold Mutex_Lock; destruct (held (w (mo c)));
        [right; right; split; reflexivity | right; left; reflexivity
        |right; right; split; reflexivity | right; left; reflexivity].
    + destruct Htj as [-> _]. positions Hp; simpl in Hwj; try discriminate;
        try (left; split; reflexivity); right; left; reflexivity.
Qed.

Lemma not_all_finished (c : config) :
  all_finished c = false ->
  exists j tj, pool c !! j = Some tj /\ finished tj = false.
Proof.
  unfold all_finished. induction (pool c) as [|th l IH]; simpl; [discriminate|].
  destruct (finished th) eqn:Hf; simpl.
  - intros H. destruct (IH H) as (j & tj & Hj & Hfj). exists (S j), tj. auto.
  - intros _. exists 0, th. auto.
Qed.

(** While a goroutine of the test has not finished, some goroutine can
    move. *)
Lemma increment_progress (v : variant) (c : config) :
  Inv v c -> counting c -> all_finished c = false ->
  exists i, is_done (step v i c) = true.
Proof.
  intros HI HK Hnf.
  destruct (not_all_finished c Hnf) as (j & tj & Hj & Hfj).
  destruct (increment_step_cases v c j tj HI HK Hj) as [[Hf _] | [Hen | [Hwj Hheld]]].
  - congruence.
  - exists j. assumption.
  - pose proof HI as [(Hw & _) _]. rewrite Hheld in Hw. simpl in Hw.
    destruct (sum_pos_elem n_hw (pool c)) as (i & ti & Hi & Hpos); [lia|].
    assert (Hwi : hw (own ti) = true).
    { unfold n_hw in Hpos. destruct (hw (own ti)); [reflexivity | simpl in Hpos; lia]. }
    destruct (increment_step_cases v c i ti HI HK Hi) as [[_ Hf] | [Hen | [Hf _]]].
    + congruence.
    + exists i. assumption.
    + congruence.
Qed.

(** From any state the goroutines of the test reach, some schedule takes
    them all to the end. *)
Lemma increment_completes (v : variant) (n : nat) :
  forall c, measure v c = n -> Inv v c -> counting c ->
  exists sched c', run_schedule v sched c = Done c' /\ all_finished c' = true.
Proof.
  induction n as [|n IH]; intros c Hm HI HK.
  - destruct (all_finished c) eqn:Hf.
    + exists [], c. split; [reflexivity | assumption].
    + destruct (increment_progress v c HI HK Hf) as (i & Hen).
      destruct (step v i c) as [c1| |] eqn:Hstep; try discriminate.
      pose proof (step_decreases v i c c1 Hstep). lia.
  - destruct (all_finished c) eqn:Hf.
    + exists [], c. split; [reflexivity | assumption].
    + destruct (increment_progress v c HI HK Hf) as (i & Hen).
      destruct (step v i c) as [c1| |] eqn:Hstep; try discriminate.
      pose proof (step_decreases v i c c1 Hstep) as Hdec.
      destruct (IH c1) as (sched & c' & Hrun & Hfin).
      * lia.
      * eapply Inv_step; eassumption.
      * eapply counting_step; eassumption.
      * exists (i :: sched), c'. simpl. rewrite Hstep. simpl. split; assumption.
Qed.

(** C9. Start any number [n] of goroutines that each run
    [demotedIncrement] on one lock and one integer, and let them
    interleave in any way.  In every state they reach: no step is fatal;
    as long as one has not finished, some goroutine can move, every step
    uses up one of finitely many, and some schedule leads to the end; and
    once all have finished, the integer is [n] (as a Go int: [n] wrapped
    to 64 bits, which is [n] itself up to the largest int). *)
Theorem demoted_increments_are_not_lost
    (v : variant) (n : nat) (sched : list nat) (c : config) :
  run_schedule v sched (spawn (replicate n demotedIncrement)) = Done c ->
  (forall i, is_fatal (step v i c) = false) /\
  (all_finished c = false -> exists i, is_done (step v i c) = true) /\
  (forall i c', step v i c = Done c' -> S (measure v c') = measure v c) /\
  (exists sched' c', run_schedule v sched' c = Done c' /\ all_finished c' = true) /\
  (all_finished c = true ->
     state c = wrap (Z.of_nat n) /\
     ((Z.of_nat n < 2 ^ 63)%Z -> state c = Z.of_nat n)).
Proof.
  intros Hrun. destruct (counting_reachable v n sched c Hrun) as (HI & HK & Hlen).
  split; [|split; [|split; [|split]]].
  - intros i. apply legal_never_fatal. assumption.
  - apply increment_progress; assumption.
  - intros i c'. apply step_decreases.
  - eapply increment_completes; eauto.
  - intros Hfin. pose proof (final_count c HK Hfin) as H. rewrite Hlen in H.
    split; [assumption|]. intros Hn. rewrite H. apply wrap_small. lia.
Qed.

(** * The two versions under any interleaving *)

Lemma body_steps_bare (o : op) :
  body_steps bare o = List.filter off_g (body_steps guarded o).
Proof. destruct o; reflexivity. Qed.

Lemma exec_step_keeps_r (s : gstep) (m m' : Motex) :
  step_on_g s = true -> exec_step s m = Done m' -> r m' = r m.
Proof.
  destruct s; simpl; try discriminate; intros _ H;
    apply bind_done in H as (x & _ & H); inversion H; reflexivity.
Qed.

(** A step that is not on [g] sees only [w] and [r]. *)
Lemma exec_step_off_g (s : gstep) (mg mb : Motex) :
  step_on_g s = false -> w mg = w mb -> r mg = r mb ->
  match exec_step s mg, exec_step s mb with
  | Done mg', Done mb' => w mg' = w mb' /\ r mg' = r mb' /\ g mg' = g mg /\ g mb' = g mb
  | Blocks, Blocks => True
  | Fatal s1, Fatal s2 => s1 = s2
  | _, _ => False
  end.
Proof.
  destruct mg as [wg rg gg], mb as [wb rb gb]; simpl. intros Hs <- <-.
  destruct s; try discriminate; simpl;
    unfold Mutex_Lock, Mutex_Unlock, RWMutex_announce, RWMutex_acquire,
      RWMutex_Unlock, RWMutex_RLock, RWMutex_RUnlock;
    destruct wg as [[]], rg as [[] [|n]]; simpl; auto.
Qed.

Lemma sim_insert (cg cb : config) (i : nat) (tg tb : goroutine) (mg mb : Motex) (zg zb : Z) :
  Forall2 sim_th (pool cg) (pool cb) -> sim_th tg tb ->
  w mg = w mb -> r mg = r mb -> zg = zb ->
  sim {| mo := mg; state := zg; pool := <[i := tg]> (pool cg) |}
      {| mo := mb; state := zb; pool := <[i := tb]> (pool cb) |}.
Proof.
  intros Hp Ht Hw Hr Hz. repeat split; simpl; try assumption.
  apply Forall2_insert; assumption.
Qed.

(** One step of the guarded version: a step on [g] has no counterpart,
    any other step is made by [motex.go] as well. *)
Lemma sim_step_forward (i : nat) (cg cg' cb : config) :
  sim cg cb -> step guarded i cg = Done cg' ->
  match event_of i cg with
  | Some (_, s) =>
      if step_on_g s then sim cg' cb
      else exists cb', step bare i cb = Done cb' /\ sim cg' cb' /\
                       event_of i cb = event_of i cg
  | None => exists cb', step bare i cb = Done cb' /\ sim cg' cb' /\ event_of i cb = None
  end.
Proof.
  intros (Hw & Hr & Hz & Hp) Hstep. unfold step, event_of in *.
  destruct (pool cg !! i) as [tg|] eqn:Hg; [|discriminate].
  destruct (Forall2_lookup_l _ _ _ _ _ Hp Hg) as (tb & Hb & Hfr & Hk & Ho).
  rewrite Hb. unfold sim_frame in Hfr.
  destruct (frame tg) as [[o [|s ss]]|] eqn:Hfg;
    destruct (frame tb) as [[ob sb]|] eqn:Hfb; try contradiction.
  - destruct Hfr as [<- ->]. simpl. injection Hstep as <-.
    eexists. split; [reflexivity|]. split; [|reflexivity].
    apply sim_insert; try assumption. repeat split; simpl; auto.
  - destruct Hfr as [<- ->].
    apply bind_done in Hstep as (mg' & Hex & Hc). injection Hc as <-.
    destruct (step_on_g s) eqn:Hs.
    + split; [|split; [|split]]; simpl.
      * rewrite <- Hw. apply (exec_step_keeps_w s); [|assumption].
        destruct s; try discriminate; reflexivity.
      * rewrite <- Hr. apply (exec_step_keeps_r s); assumption.
      * assumption.
      * rewrite <- (list_insert_id (pool cb) i tb Hb).
        apply Forall2_insert; [assumption|].
        repeat split; simpl; auto. rewrite Hfb. simpl. unfold off_g. rewrite Hs.
        simpl. split; reflexivity.
    + simpl. unfold off_g. rewrite Hs. simpl.
      pose proof (exec_step_off_g s (mo cg) (mo cb) Hs Hw Hr) as Hsame.
      rewrite Hex in Hsame. destruct (exec_step s (mo cb)) as [mb'| |]; try contradiction.
      destruct Hsame as (Hw' & Hr' & _). simpl.
      eexists. split; [reflexivity|]. split; [|reflexivity].
      apply sim_insert; try assumption. repeat split; simpl; auto.
  - rewrite <- Hk.
    destruct (cont tg) as [|[o| |] k]; [discriminate| | |]; injection Hstep as <-;
      (eexists; split; [reflexivity|]; split; [|reflexivity]);
      apply sim_insert; try assumption; try congruence;
      repeat split; simpl; auto.
    apply body_steps_bare.
Qed.

(** Every run of the guarded version is, once its steps on [g] are left
    out, a run of [motex.go] that makes the same steps on [w] and [r],
    by the same goroutines, in the same order. *)
Lemma guarded_run_is_bare_run (sched : list nat) :
  forall cg cb cg',
    sim cg cb -> run_schedule guarded sched cg = Done cg' ->
    exists bsched cb',
      run_schedule bare bsched cb = Done cb' /\ sim cg' cb' /\
      gate_events (events guarded sched cg) = events bare bsched cb.
Proof.
  induction sched as [|i sched IH]; simpl; intros cg cb cg' Hsim Hrun.
  - injection Hrun as <-. exists [], cb. repeat split; try apply Hsim. 
  - apply bind_done in Hrun as (c1 & H1 & H2). rewrite H1.
    pose proof (sim_step_forward i cg c1 cb Hsim H1) as Hone.
    destruct (event_of i cg) as [[j s]|] eqn:Hev.
    + destruct (step_on_g s) eqn:Hs.
      * destruct (IH c1 cb cg' Hone H2) as (bs & cb' & Hb & Hs' & He).
        exists bs, cb'. repeat split; try apply Hs'; try assumption.
        unfold gate_events in *. simpl. unfold off_g at 1. rewrite Hs. simpl. exact He.
      * destruct Hone as (cb1 & Hb1 & Hsim1 & Hev1).
        destruct (IH c1 cb1 cg' Hsim1 H2) as (bs & cb' & Hb & Hs' & He).
        exists (i :: bs), cb'. simpl. rewrite Hb1, Hev1. simpl.
        repeat split; try apply Hs'; try assumption.
        unfold gate_events in *. simpl. unfold off_g at 1. rewrite Hs. simpl.
        rewrite He. reflexivity.
    + destruct Hone as (cb1 & Hb1 & Hsim1 & Hev1).
      destruct (IH c1 cb1 cg' Hsim1 H2) as (bs & cb' & Hb & Hs' & He).
      exists (i :: bs), cb'. simpl. rewrite Hb1, Hev1. simpl.
      repeat split; try apply Hs'; assumption.
Qed.

(** In the guarded version a step on [g] is the last step of [Demote] or
    of [Promote]. *)
Lemma g_step_shape (th : goroutine) (o : op) (s : gstep) (ss : list gstep) :
  twf guarded th -> frame th = Some (o, s :: ss) -> step_on_g s = true ->
  ss = [] /\ ((s = s_g_Lock /\ o = Demote) \/ (s = s_g_Unlock /\ o = Promote)).
Proof.
  unfold twf. destruct th as [fr k ol [md n] h]; simpl.
  intros Ht ->. destruct Ht as (Hpre & _ & done & Hs & _). intros Hg.
  destruct o; unfold body_steps in Hs; simpl in Hs;
    split_body Hs; try (inversion Hs; subst; clear Hs); try discriminate;
    split; auto.
Qed.

(** Goroutines running legal programs never wait at a step on [g]. *)
Lemma g_step_enabled (c : config) (i : nat) (ti : goroutine) (o : op)
    (s : gstep) (ss : list gstep) :
  Inv guarded c -> pool c !! i = Some ti ->
  frame ti = Some (o, s :: ss) -> step_on_g s = true ->
  exists c', step guarded i c = Done c'.
Proof.
  intros HI Hi Hfr Hg. pose proof HI as [_ Ht].
  assert (Hti : twf guarded ti) by (eapply (proj1 (Forall_lookup _ _) Ht); eauto).
  destruct (g_step_shape ti o s ss Hti Hfr Hg) as (_ & [[-> ->] | [-> ->]]).
  - assert (Hrel : releasing ti = true) by (unfold releasing; rewrite Hfr; reflexivity).
    pose proof (release_step_enabled guarded c i ti HI Hi Hrel) as Hen.
    destruct (step guarded i c) as [c'| |]; try discriminate. eauto.
  - pose proof (legal_never_fatal guarded c i HI) as Hnf.
    unfold step in *. rewrite Hi, Hfr in *. simpl in *.
    unfold Mutex_Unlock in *. destruct (held (g (mo c))); simpl in *;
      [eauto | discriminate].
Qed.

Lemma body_starts_off_g (o : op) :
  settled {| frame := Some (o, body_steps guarded o); cont := []; old := 0%Z;
             st := start; own := nothing |}.
Proof. destruct o; reflexivity. Qed.

(** If only goroutine [i] stands before a step on [g], letting it make
    that step settles every goroutine; [motex.go] has nothing to do. *)
Lemma settle (i : nat) (c1 cb : config) :
  Inv guarded c1 -> sim c1 cb ->
  (forall j tj, pool c1 !! j = Some tj -> j <> i -> settled tj) ->
  exists gs c2,
    run_schedule guarded gs c1 = Done c2 /\ sim c2 cb /\
    Forall settled (pool c2) /\ gate_events (events guarded gs c1) = [].
Proof.
  intros HI Hsim Hothers.
  destruct (pool c1 !! i) as [ti|] eqn:Hi.
  2: { exists [], c1. repeat split; try apply Hsim.
       apply Forall_lookup. intros j tj Hj. apply (Hothers j tj Hj). congruence. }
  destruct (frame ti) as [[o [|s ss]]|] eqn:Hfr.
  1, 3: exists [], c1; repeat split; try apply Hsim;
    apply Forall_lookup; intros j tj Hj;
    (destruct (decide (j = i)) as [->|Hne];
     [assert (tj = ti) as -> by congruence; unfold settled; rewrite Hfr; exact I
     |apply (Hothers j tj Hj Hne)]).
  destruct (step_on_g s) eqn:Hg.
  2: { exists [], c1. repeat split; try apply Hsim.
       apply Forall_lookup. intros j tj Hj.
       destruct (decide (j = i)) as [->|Hne]; [|apply (Hothers j tj Hj Hne)].
       assert (tj = ti) as -> by congruence. unfold settled. rewrite Hfr. exact Hg. }
  destruct (g_step_enabled c1 i ti o s ss HI Hi Hfr Hg) as (c2 & Hstep).
  pose proof HI as [_ Ht].
  assert (Hti : twf guarded ti) by (eapply (proj1 (Forall_lookup _ _) Ht); eauto).
  destruct (g_step_shape ti o s ss Hti Hfr Hg) as (-> & _).
  exists [i], c2. simpl. rewrite Hstep. simpl.
  pose proof (sim_step_forward i c1 c2 cb Hsim Hstep) as Hfw.
  unfold event_of in *. rewrite Hi, Hfr in *. rewrite Hg in Hfw.
  split; [reflexivity|]. split; [assumption|]. split.
  - unfold step in Hstep. rewrite Hi, Hfr in Hstep.
    apply bind_done in Hstep as (m' & _ & Hc). injection Hc as <-. simpl.
    apply Forall_lookup. intros j tj Hj.
    destruct (decide (j = i)) as [->|Hne].
    + rewrite list_lookup_insert_eq in Hj by (eapply lookup_lt_Some; eauto).
      injection Hj as <-. exact I.
    + rewrite list_lookup_insert_ne in Hj by congruence. apply (Hothers j tj Hj Hne).
  - unfold gate_events. simpl. unfold off_g. rewrite Hg. reflexivity.
Qed.

(** One step of [motex.go] is made by the guarded version as well, when
    its goroutines are settled. *)
Lemma sim_step_match (i : nat) (cg cb cb' : config) :
  sim cg cb -> Forall settled (pool cg) -> step bare i cb = Done cb' ->
  exists c1,
    step guarded i cg = Done c1 /\ sim c1 cb' /\
    event_of i cg = event_of i cb /\
    match event_of i cg with
    | Some (_, s) => step_on_g s = false
    | None => True
    end /\
    (forall j tj, pool c1 !! j = Some tj -> j <> i -> settled tj).
Proof.
  intros (Hw & Hr & Hz & Hp) Hset Hstep. unfold step, event_of in *.
  destruct (pool cb !! i) as [tb|] eqn:Hb; [|discriminate].
  destruct (Forall2_lookup_r _ _ _ _ _ Hp Hb) as (tg & Hg & Hfr & Hk & Ho).
  pose proof (proj1 (Forall_lookup _ _) Hset i tg Hg) as Hsg.
  rewrite Hg. unfold sim_frame, settled in *.
  assert (Hoth : forall (t' : goroutine) j tj,
            <[i := t']> (pool cg) !! j = Some tj -> j <> i ->
            match frame tj with
            | Some (_, s :: _) => step_on_g s = false
            | _ => True
            end).
  { intros t' j tj Hj Hne. rewrite list_lookup_insert_ne in Hj by congruence.
    apply (proj1 (Forall_lookup _ _) Hset j tj Hj). }
  destruct (frame tb) as [[ob sb]|] eqn:Hfb;
    destruct (frame tg) as [[o sg]|] eqn:Hfg; try contradiction.
  - destruct Hfr as [<- ->].
    destruct sg as [|s sg]; simpl in Hstep.
    + injection Hstep as <-. eexists. split; [reflexivity|].
      split; [|split; [reflexivity|split; [exact I|apply Hoth]]].
      apply sim_insert; try assumption. repeat split; simpl; auto.
    + unfold off_g in Hstep at 1. rewrite Hsg in Hstep. simpl in Hstep.
      apply bind_done in Hstep as (mb' & Hex & Hc). injection Hc as <-.
      pose proof (exec_step_off_g s (mo cg) (mo cb) Hsg Hw Hr) as Hsame.
      rewrite Hex in Hsame.
      destruct (exec_step s (mo cg)) as [mg'| |]; try contradiction.
      destruct Hsame as (Hw' & Hr' & _). simpl.
      eexists. split; [reflexivity|].
      split; [|split; [|split; [exact Hsg|apply Hoth]]].
      * apply sim_insert; try assumption. repeat split; simpl; auto.
      * unfold off_g. rewrite Hsg. reflexivity.
  - rewrite Hk.
    destruct (cont tb) as [|[o| |] k]; [discriminate| | |]; injection Hstep as <-;
      (eexists; split; [reflexivity|];
       split; [|split; [reflexivity|split; [exact I|apply Hoth]]]);
      apply sim_insert; try assumption; try congruence;
      repeat split; simpl; auto.
    apply body_steps_bare.
Qed.

Lemma sim_step_backward (i : nat) (cg cb cb' : config) :
  sim cg cb -> Inv guarded cg -> Forall settled (pool cg) ->
  step bare i cb = Done cb' ->
  exists gs cg',
    run_schedule guarded gs cg = Done cg' /\ sim cg' cb' /\
    Inv guarded cg' /\ Forall settled (pool cg') /\
    gate_events (events guarded gs cg) =
      match event_of i cb with Some e => [e] | None => [] end.
Proof.
  intros Hsim HI Hset Hstep.
  destruct (sim_step_match i cg cb cb' Hsim Hset Hstep)
    as (c1 & Hg1 & Hsim1 & Hev & Hoff & Hoth).
  pose proof (Inv_step guarded i cg c1 HI Hg1) as HI1.
  destruct (settle i c1 cb' HI1 Hsim1 Hoth) as (gs & c2 & Hrun & Hsim2 & Hset2 & He).
  exists (i :: gs), c2. simpl. rewrite Hg1. simpl.
  split; [assumption|]. split; [assumption|]. split; [|split; [assumption|]].
  - clear -HI1 Hrun. revert c1 HI1 Hrun.
    induction gs as [|j gs IH]; simpl; intros c1 HI1 Hrun.
    + injection Hrun as <-. assumption.
    + apply bind_done in Hrun as (c' & H1 & H2). eapply IH; [|eassumption].
      eapply Inv_step; eassumption.
  - rewrite <- Hev. destruct (event_of i cg) as [[j s]|].
    + unfold gate_events in *. simpl. unfold off_g at 1. rewrite Hoff. simpl.
      rewrite He. reflexivity.
    + exact He.
Qed.

(** Every run of [motex.go] by goroutines running legal programs is,
    with the steps on [g] put in, a run of the guarded version that makes
    the same steps on [w] and [r], by the same goroutines, in the same
    order. *)
Lemma bare_run_is_guarded_run (bsched : list nat) :
  forall cg cb cb',
    sim cg cb -> Inv guarded cg -> Forall settled (pool cg) ->
    run_schedule bare bsched cb = Done cb' ->
    exists sched cg',
      run_schedule guarded sched cg = Done cg' /\ sim cg' cb' /\
      gate_events (events guarded sched cg) = events bare bsched cb.
Proof.
  induction bsched as [|i bsched IH]; simpl; intros cg cb cb' Hsim HI Hset Hrun.
  - injection Hrun as <-. exists [], cg. repeat split; apply Hsim.
  - apply bind_done in Hrun as (cb1 & H1 & H2). rewrite H1.
    destruct (sim_step_backward i cg cb cb1 Hsim HI Hset H1)
      as (gs & cg1 & Hg & Hsim1 & HI1 & Hset1 & He).
    destruct (IH cg1 cb1 cb' Hsim1 HI1 Hset1 H2) as (sched & cg' & Hg' & Hsim' & He').
    exists (gs ++ sched), cg'. rewrite run_schedule_app, Hg. simpl.
    split; [assumption|]. split; [assumption|].
    rewrite (events_app guarded gs sched cg cg1 Hg).
    unfold gate_events in *. rewrite List.filter_app, He, He'.
    destruct (event_of i cb); reflexivity.
Qed.

Lemma sim_spawn (ps : list (list instr)) :
  sim (spawn ps) (spawn ps) /\ Forall settled (pool (spawn ps)).
Proof.
  split.
  - repeat split; simpl. induction ps; simpl; constructor; [|assumption].
    repeat split.
  - simpl. induction ps; simpl; constructor; [exact I | assumption].
Qed.

(** X11. The two versions started on the same legal programs: each run
    of one is matched by a run of the other with the same steps on the
    write gate and the read/write gate, ending with the same [w], [r],
    [state] and goroutines at the same place; and no step of either is
    fatal. *)
Lemma variants_agree_on_schedules (ps : list (list instr)) :
  forallb legal_prog ps = true ->
  (forall sched cg,
     run_schedule guarded sched (spawn ps) = Done cg ->
     (forall i, is_fatal (step guarded i cg) = false) /\
     exists bsched cb,
       run_schedule bare bsched (spawn ps) = Done cb /\ sim cg cb /\
       gate_events (events guarded sched (spawn ps)) = events bare bsched (spawn ps)) /\
  (forall bsched cb,
     run_schedule bare bsched (spawn ps) = Done cb ->
     (forall i, is_fatal (step bare i cb) = false) /\
     exists sched cg,
       run_schedule guarded sched (spawn ps) = Done cg /\ sim cg cb /\
       gate_events (events guarded sched (spawn ps)) = events bare bsched (spawn ps)).
Proof.
  intros Hps. destruct (sim_spawn ps) as [Hsim Hset]. split.
  - intros sched cg Hrun. split.
    + intros i. apply legal_never_fatal. eapply legal_programs_Inv; eauto.
    + eapply guarded_run_is_bare_run; eauto.
  - intros bsched cb Hrun. split.
    + intros i. apply legal_never_fatal. eapply legal_programs_Inv; eauto.
    + eapply bare_run_is_guarded_run; eauto.
      apply (legal_programs_Inv guarded ps [] (spawn ps) Hps). reflexivity.
Qed.

(** * The theorems at the sample run *)

Lemma gate_invariants_witness :
  forallb legal_prog sample_programs = true /\
  run_schedule guarded sample_schedule (spawn sample_programs) = Done sample_config /\
  (held (w (mo sample_config)) = true <->
     exists i ti, pool sample_config !! i = Some ti /\ hw (own ti) = true).
Proof.
  split; [reflexivity|]. split; [reflexivity|].
  apply (gate_invariants guarded sample_programs sample_schedule sample_config);
    reflexivity.
Defined.

Lemma write_gate_held_across_window_witness :
  forallb legal_prog sample_programs = true /\
  run_schedule guarded sample_schedule (spawn sample_programs) = Done sample_config /\
  pool sample_config !! 0 = Some sample_writer /\
  in_window sample_writer = true /\
  forall j c', step guarded j sample_config = Done c' ->
               w (mo c') = w (mo sample_config).
Proof.
  split; [reflexivity|]. split; [reflexivity|].
  split; [reflexivity|]. split; [reflexivity|].
  apply (write_gate_held_across_window guarded sample_programs sample_schedule
           sample_config 0 sample_writer); reflexivity.
Defined.

Lemma release_operations_never_block_witness :
  forallb legal_prog sample_programs = true /\
  run_schedule guarded sample_schedule (spawn sample_programs) = Done sample_config /\
  pool sample_config !! 1 = Some sample_reader /\
  releasing sample_reader = true /\
  is_done (step guarded 1 sample_config) = true.
Proof.
  split; [reflexivity|]. split; [reflexivity|].
  split; [reflexivity|]. split; [reflexivity|].
  apply (release_operations_never_block guarded sample_programs sample_schedule
           sample_config 1 sample_reader); reflexivity.
Defined.

Lemma demoted_increments_are_not_lost_witness :
  run_schedule guarded sample_race (spawn (replicate 2 demotedIncrement))
    = Done sample_final /\
  all_finished sample_final = true /\
  state sample_final = 2%Z.
Proof.
  split; [reflexivity|]. split; [reflexivity|].
  apply (demoted_increments_are_not_lost guarded 2 sample_race sample_final);
    reflexivity.
Defined.

(** * The lock as its users see it *)

(** ** Without Demote and Promote *)

Lemma RWMutex_call_settled (k : rwmethod) (rw rw' : RWMutex) :
  writer rw <> WWaiting -> RWMutex_call k rw = Done rw' -> writer rw' <> WWaiting.
Proof.
  destruct rw as [wr n]. destruct k, wr, n; simpl; intros Hw H;
    try discriminate; try congruence; injection H as <-; simpl; discriminate.
Qed.

Lemma run_op_as_RWMutex (v : variant) (k : rwmethod) (rw : RWMutex) :
  writer rw <> WWaiting ->
  final (run_op v (method_of k) (around rw)) =
    match RWMutex_call k rw with
    | Done rw' => Done (around rw')
    | Blocks => Blocks
    | Fatal s => Fatal s
    end.
Proof.
  destruct rw as [wr n]. intros Hw.
  destruct v, k, wr, n; simpl in *; try congruence; reflexivity.
Qed.

(** X1. As long as [Demote] and [Promote] are not called, a Motex does
    what a [sync.RWMutex] does: a sequence of [Lock], [Unlock], [RLock]
    and [RUnlock] calls on a fresh Motex returns, waits or is fatal (with
    the same message) exactly as the same calls on a fresh RWMutex, and
    when it returns [r] is that RWMutex and [w] is locked exactly when it
    is held for writing. *)
Theorem behaves_as_RWMutex (v : variant) (ks : list rwmethod) :
  final (run_ops v (map method_of ks) fresh) =
    match run_rwmutex ks {| writer := WFree; readers := 0 |} with
    | Done rw => Done (around rw)
    | Blocks => Blocks
    | Fatal s => Fatal s
    end.
Proof.
  change fresh with (around {| writer := WFree; readers := 0 |}).
  assert (H0 : writer {| writer := WFree; readers := 0 |} <> WWaiting) by discriminate.
  revert H0. generalize {| writer := WFree; readers := 0 |} as rw.
  induction ks as [|k ks IH]; intros rw Hw; [reflexivity|].
  simpl map. rewrite run_ops_cons. rewrite (run_op_as_RWMutex v k rw Hw). simpl.
  destruct (RWMutex_call k rw) as [rw'| |] eqn:Hk; simpl.
  - apply IH. apply (RWMutex_call_settled k rw rw' Hw Hk).
  - apply (f_equal final (x := run_op v (method_of k) (around rw))
             (y := {| trace := trace (run_op v (method_of k) (around rw)); final := Blocks |})).
    destruct (run_op v (method_of k) (around rw)) as [t f] eqn:E.
    pose proof (run_op_as_RWMutex v k rw Hw) as H. rewrite E, Hk in H. simpl in H.
    rewrite H. reflexivity.
  - destruct (run_op v (method_of k) (around rw)) as [t f] eqn:E.
    pose proof (run_op_as_RWMutex v k rw Hw) as H. rewrite E, Hk in H. simpl in H.
    simpl. exact H.
Qed.

(** ** Which misuses are caught *)

(** X2. A call that breaks its documented requirement, made alone on a
    lock in a coherent state, is fatal with a message about an unlocked
    lock, with these exceptions: [RUnlock] while the lock is demoted and
    nobody holds an [RLock] returns (it takes the slot of [Demote]), in
    both versions; [Promote] by the only [RLock] holder returns in
    [motex.go] and is fatal in the guarded version; [Promote] with
    nobody writing and two or more [RLock] holders releases one slot and
    waits for the others. *)
Theorem misuse_verdicts (v : variant) (o : op) (s : lstate) :
  coherent s = true ->
  pre o s = false ->
  verdict_of (final (run_op v o (gates v s))) = Some (misuse_verdict v o s).
Proof.
  destruct s as [md n]. unfold coherent; simpl.
  destruct v, o, md; simpl; try discriminate; intros Hc Hpre;
    try reflexivity;
    try (apply bool_decide_eq_true in Hc; subst; reflexivity);
    try (destruct n as [|[|n]]; reflexivity);
    try (apply bool_decide_eq_false in Hpre; destruct n; [reflexivity | lia]).
Qed.

Lemma misuse_verdicts_witness :
  coherent {| mode := Unlocked; rlocks := 1 |} = true /\
  pre Promote {| mode := Unlocked; rlocks := 1 |} = false /\
  verdict_of (final (run_op bare Promote (gates bare {| mode := Unlocked; rlocks := 1 |})))
    = Some Missed /\
  verdict_of (final (run_op guarded Promote (gates guarded {| mode := Unlocked; rlocks := 1 |})))
    = Some Caught.
Proof.
  split; [reflexivity|]. split; [reflexivity|]. split.
  - apply (misuse_verdicts bare Promote {| mode := Unlocked; rlocks := 1 |}); reflexivity.
  - apply (misuse_verdicts guarded Promote {| mode := Unlocked; rlocks := 1 |}); reflexivity.
Defined.

(** ** Readers during the demoted window, writers after it *)

Lemma demoted_writer_free (v : variant) (c : config) (i : nat) (ti : goroutine) :
  Inv v c -> pool c !! i = Some ti -> hd (own ti) = true ->
  writer (r (mo c)) = WFree.
Proof.
  intros HI Hi Hdi. pose proof HI as [(Hw & Hp & Hx & Hs & Hg & Hr) Ht].
  assert (Hti : twf v ti) by (eapply (proj1 (Forall_lookup _ _) Ht); eauto).
  destruct (twf_local v ti Hti) as (_ & _ & Ld & _ & Lx).
  specialize (Ld Hdi). destruct (Lx Hdi) as [Hxi Hpi].
  destruct (holder_of_w_is_alone v c i ti HI Hi Ld) as (_ & _ & Zp & Zx & _).
  pose proof (sum_delete n_hp _ _ _ Hi) as Dp.
  pose proof (sum_delete n_hx _ _ _ Hi) as Dx.
  unfold n_hp at 2 in Dp. unfold n_hx at 2 in Dx.
  rewrite Hpi in Dp. rewrite Hxi in Dx. simpl in Dp, Dx.
  destruct (writer (r (mo c))); [reflexivity | lia | lia].
Qed.

Lemma reading_step (v : variant) (th : goroutine) (s : gstep) (ss : list gstep) :
  twf v th -> frame th = Some (RLock, s :: ss) -> s = s_r_RLock /\ ss = [].
Proof.
  unfold twf. destruct th as [fr k ol [md n] h]; simpl.
  intros Ht ->. destruct Ht as (_ & _ & done & Hs & _).
  destruct v; unfold body_steps in Hs; simpl in Hs;
    split_body Hs; try (inversion Hs; subst; clear Hs); try discriminate; auto.
Qed.

Lemma reading_step_enabled (v : variant) (c : config) (i j : nat) (ti tj : goroutine) :
  Inv v c -> pool c !! i = Some ti -> hd (own ti) = true ->
  pool c !! j = Some tj -> reading tj = true ->
  exists c', step v j c = Done c' /\
    exists ti', pool c' !! i = Some ti' /\ hd (own ti') = true.
Proof.
  intros HI Hi Hdi Hj Hrd. pose proof HI as [_ Ht].
  assert (Htj : twf v tj) by (eapply (proj1 (Forall_lookup _ _) Ht); eauto).
  pose proof (demoted_writer_free v c i ti HI Hi Hdi) as Hfree.
  pose proof (lookup_lt_Some _ _ _ Hj) as Hlt.
  assert (Hkeep : forall t', hd (own t') = hd (own tj) ->
            exists ti', <[j := t']> (pool c) !! i = Some ti' /\ hd (own ti') = true).
  { intros t' Ht'. destruct (decide (i = j)) as [->|Hne].
    - rewrite list_lookup_insert_eq by assumption. exists t'. split; [reflexivity|].
      rewrite Ht'. assert (tj = ti) as -> by congruence. assumption.
    - rewrite list_lookup_insert_ne by congruence. eauto. }
  unfold step. rewrite Hj. unfold reading in Hrd.
  destruct (frame tj) as [[o [|s ss]]|] eqn:Hfr.
  - eexists. split; [reflexivity|]. simpl. apply Hkeep. reflexivity.
  - apply bool_decide_eq_true in Hrd. subst o.
    destruct (reading_step v tj s ss Htj Hfr) as [-> ->]. simpl.
    unfold RWMutex_RLock. rewrite Hfree. simpl.
    eexists. split; [reflexivity|]. simpl. apply Hkeep. reflexivity.
  - destruct (cont tj) as [|[[]| |] k]; try discriminate.
    eexists. split; [reflexivity|]. simpl. apply Hkeep. reflexivity.
Qed.

Lemma reading_runs_to_return (v : variant) (i j n : nat) :
  forall (c : config) (ti tj : goroutine),
    Inv v c -> pool c !! i = Some ti -> hd (own ti) = true ->
    pool c !! j = Some tj -> reading tj = true ->
    steps_to_return v tj = n ->
    exists c' tj',
      run_schedule v (replicate n j) c = Done c' /\
      pool c' !! j = Some tj' /\ frame tj' = None /\ cont tj' = after_call tj.
Proof.
  induction n as [|n IH]; intros c ti tj HI Hi Hdi Hj Hrd Hn.
  - unfold steps_to_return, reading in *.
    destruct (frame tj) as [[o ss]|]; [discriminate|].
    destruct (cont tj) as [|[[]| |] k]; discriminate.
  - destruct (reading_step_enabled v c i j ti tj HI Hi Hdi Hj Hrd)
      as (c1 & Hstep & ti1 & Hi1 & Hdi1).
    destruct (step_self v j c c1 tj Hstep Hj) as (t1 & H1 & Hsh).
    pose proof (Inv_step v j c c1 HI Hstep) as HI1.
    unfold steps_to_return, reading, after_call in *.
    simpl. rewrite Hstep. simpl.
    destruct (frame tj) as [[o [|s ss]]|] eqn:Hfr.
    + destruct Hsh as [Hf Hk]. injection Hn as <-. simpl.
      exists c1, t1. repeat split; assumption.
    + destruct Hsh as [Hf Hk].
      destruct (IH c1 ti1 t1 HI1 Hi1 Hdi1 H1) as (c' & tj' & Hrun & Hj' & Hf' & Hk').
      * rewrite Hf. assumption.
      * rewrite Hf. simpl in *. lia.
      * exists c', tj'. rewrite Hf in Hk'. repeat split; try assumption. congruence.
    + destruct (cont tj) as [|[[]| |] k] eqn:Hcont; try discriminate.
      destruct Hsh as [Hf Hk].
      destruct (IH c1 ti1 t1 HI1 Hi1 Hdi1 H1) as (c' & tj' & Hrun & Hj' & Hf' & Hk').
      * rewrite Hf. reflexivity.
      * rewrite Hf. simpl in *. lia.
      * exists c', tj'. rewrite Hf in Hk'. repeat split; try assumption. simpl. congruence.
Qed.

(** X3. A demoted lock does not block [RLock].  In any state that
    goroutines running legal programs reach, while some goroutine is
    demoted (it has returned from [Demote] and not yet called
    [Promote]), a goroutine that calls or is inside [RLock] can make its
    next step at once, and run on its own it returns from [RLock]. *)
Theorem demoted_lock_admits_readers
    (v : variant) (ps : list (list instr)) (sched : list nat)
    (c : config) (i j : nat) (ti tj : goroutine) :
  forallb legal_prog ps = true ->
  run_schedule v sched (spawn ps) = Done c ->
  pool c !! i = Some ti ->
  frame ti = None ->
  mode (st ti) = WriteLockedDemoted ->
  pool c !! j = Some tj ->
  reading tj = true ->
  is_done (step v j c) = true /\
  exists c' tj',
    run_schedule v (replicate (steps_to_return v tj) j) c = Done c' /\
    pool c' !! j = Some tj' /\ frame tj' = None /\ cont tj' = after_call tj.
Proof.
  intros Hps Hrun Hi Hfr Hm Hj Hrd.
  pose proof (legal_programs_Inv v ps sched c Hps Hrun) as HI.
  pose proof HI as [_ Ht].
  assert (Hdi : hd (own ti) = true).
  { rewrite (twf_boundary v ti); [|eapply (proj1 (Forall_lookup _ _) Ht); eauto|assumption].
    simpl. rewrite Hm. reflexivity. }
  split.
  - destruct (reading_step_enabled v c i j ti tj HI Hi Hdi Hj Hrd) as (c1 & -> & _).
    reflexivity.
  - apply (reading_runs_to_return v i j _ c ti tj HI Hi Hdi Hj Hrd eq_refl).
Qed.

Lemma demoted_lock_admits_readers_witness :
  forallb legal_prog sample_programs = true /\
  run_schedule guarded (replicate 10 0) (spawn sample_programs)
    = Done (sample_demoted) /\
  is_done (step guarded 1 sample_demoted) = true.
Proof.
  split; [reflexivity|]. split; [reflexivity|].
  apply (demoted_lock_admits_readers guarded sample_programs (replicate 10 0)
           sample_demoted 0 1 sample_writer (go [Call RLock; Call RUnlock]));
    reflexivity.
Defined.

Lemma acquiring_holds (v : variant) (th : goroutine) :
  twf v th -> acquiring th = true ->
  hw (own th) = true /\ hp (own th) = true /\ hd (own th) = false.
Proof.
  unfold twf, acquiring. destruct th as [fr k ol [md n] h]; simpl.
  destruct fr as [[o [|[] ss]]|]; try discriminate.
  intros (Hpre & _ & done & Hs & -> & Hlock) _.
  destruct v, o, md; simpl in Hpre; try discriminate;
    unfold body_steps in Hs; simpl in Hs;
    split_body Hs; try (inversion Hs; subst; clear Hs); try discriminate;
    try (specialize (Hlock eq_refl ltac:(discriminate)); discriminate);
    repeat split; reflexivity.
Qed.

(** X4. [Lock] and [Promote] take the read/write gate exactly when no
    acquisition made with [RLock] is outstanding.  In any state that
    goroutines running legal programs reach, a goroutine that has
    announced itself on [r] acquires it at once if no goroutine holds a
    slot taken with [RLock], and waits (it is not stopped) as long as
    one does; the slot of a [Demote] never stands in its way. *)
Theorem exclusive_waits_for_readers
    (v : variant) (ps : list (list instr)) (sched : list nat)
    (c : config) (i : nat) (ti : goroutine) :
  forallb legal_prog ps = true ->
  run_schedule v sched (spawn ps) = Done c ->
  pool c !! i = Some ti ->
  acquiring ti = true ->
  ((forall j tj, pool c !! j = Some tj -> nr (own tj) = 0) ->
     is_done (step v i c) = true) /\
  (forall j tj, pool c !! j = Some tj -> 0 < nr (own tj) -> step v i c = Blocks).
Proof.
  intros Hps Hrun Hi Hacq.
  pose proof (legal_programs_Inv v ps sched c Hps Hrun) as HI.
  pose proof HI as [(Hw & Hp & Hx & Hs & Hg & Hr) Ht].
  assert (Hti : twf v ti) by (eapply (proj1 (Forall_lookup _ _) Ht); eauto).
  destruct (acquiring_holds v ti Hti Hacq) as (Hwi & Hpi & Hdi).
  destruct (holder_of_w_is_alone v c i ti HI Hi Hwi) as (_ & _ & Zp & _ & Zd & _).
  pose proof (sum_delete n_hp _ _ _ Hi) as Dp.
  pose proof (sum_delete n_hd _ _ _ Hi) as Dd.
  unfold n_hp at 2 in Dp. unfold n_hd at 2 in Dd.
  rewrite Hpi in Dp. rewrite Hdi in Dd. simpl in Dp, Dd.
  rewrite sum_hs_split in Hs.
  assert (Hwait : writer (r (mo c)) = WWaiting)
    by (destruct (writer (r (mo c))); [lia | reflexivity | lia]).
  unfold step. rewrite Hi. unfold acquiring in Hacq.
  destruct (frame ti) as [[o [|[] ss]]|]; try discriminate.
  simpl. unfold RWMutex_acquire. rewrite Hwait. split.
  - intros Hnone.
    assert (Zn : sum_list_with n_nr (pool c) = 0).
    { clear -Hnone. revert Hnone. induction (pool c) as [|a l IH]; intros H; [reflexivity|].
      simpl. rewrite IH.
      - unfold n_nr. rewrite (H 0 a eq_refl). reflexivity.
      - intros j tj Hj. apply (H (S j) tj Hj). }
    destruct (readers (r (mo c))); [reflexivity | lia].
  - intros j tj Hj Hpos.
    assert (Hin : tj ∈ pool c) by (apply list_elem_of_lookup; eauto).
    pose proof (sum_list_with_in _ n_nr _ Hin) as Hle. unfold n_nr at 1 in Hle.
    destruct (readers (r (mo c))); [lia | reflexivity].
Qed.

Lemma exclusive_waits_for_readers_witness :
  forallb legal_prog sample_programs = true /\
  run_schedule guarded (replicate 10 0 ++ [1; 1; 1; 0; 0; 0; 0]) (spawn sample_programs)
    = Done sample_promoting /\
  step guarded 0 sample_promoting = Blocks.
Proof.
  split; [reflexivity|]. split; [reflexivity|].
  assert (H : forall j tj, pool sample_promoting !! j = Some tj -> 0 < nr (own tj) ->
                           step guarded 0 sample_promoting = Blocks).
  { apply (exclusive_waits_for_readers guarded sample_programs
             (replicate 10 0 ++ [1; 1; 1; 0; 0; 0; 0]) sample_promoting 0
             sample_promoter); reflexivity. }
  apply (H 1 sample_holder); [reflexivity | vm_compute; lia].
Defined.

(** ** Legal use is never fatal *)

Lemma Inv_run (v : variant) (sched : list nat) :
  forall c c', Inv v c -> run_schedule v sched c = Done c' -> Inv v c'.
Proof.
  induction sched as [|i sched IH]; simpl; intros c c' HI Hrun.
  - injection Hrun as <-. assumption.
  - apply bind_done in Hrun as (c1 & H1 & H2). eapply IH; [|eassumption].
    eapply Inv_step; eassumption.
Qed.




(** ** The closures of the tests: what they do on the gates *)

Lemma Inv_ext (v : variant) (c1 c2 : config) :
  mo c1 = mo c2 -> pool c1 = pool c2 -> Inv v c1 -> Inv v c2.
Proof. unfold Inv. intros -> ->. auto. Qed.

(** A step of goroutines running closures is a step of the same
    goroutines running instructions, up to the value of [state]. *)
Lemma wstep_lower (v : variant) (i : nat) (c : wconfig) :
  match wstep v i c with
  | Done c' =>
      exists c1, step v i (lower c) = Done c1 /\
                 mo c1 = cmo c' /\ pool c1 = pool (lower c')
  | Blocks => step v i (lower c) = Blocks
  | Fatal s => step v i (lower c) = Fatal s
  end.
Proof.
  unfold wstep, step, lower; simpl. rewrite map_lookup_list.
  destruct (cpool c !! i) as [th|]; simpl; [|reflexivity].
  destruct (wframe th) as [[o [|s ss]]|].
  - eexists. split; [reflexivity|]. simpl. rewrite map_insert_list. split; reflexivity.
  - destruct (exec_step s (cmo c)); simpl; try reflexivity.
    eexists. split; [reflexivity|]. simpl. rewrite map_insert_list. split; reflexivity.
  - destruct (wcont th) as [|[o| |d] k]; simpl; try reflexivity;
      (eexists; split; [reflexivity|]); simpl; rewrite map_insert_list;
      split; reflexivity.
Qed.

Lemma wstep_done (v : variant) (i : nat) (c : wconfig) :
  is_done (wstep v i c) = is_done (step v i (lower c)).
Proof.
  pose proof (wstep_lower v i c) as H.
  destruct (wstep v i c); [destruct H as (c1 & -> & _)| |]; try rewrite H; reflexivity.
Qed.

Lemma wstep_fatal (v : variant) (i : nat) (c : wconfig) :
  is_fatal (wstep v i c) = is_fatal (step v i (lower c)).
Proof.
  pose proof (wstep_lower v i c) as H.
  destruct (wstep v i c); [destruct H as (c1 & -> & _)| |]; try rewrite H; reflexivity.
Qed.

Lemma WInv_step (v : variant) (i : nat) (c c' : wconfig) :
  Inv v (lower c) -> wstep v i c = Done c' -> Inv v (lower c').
Proof.
  intros HI Hstep. pose proof (wstep_lower v i c) as H. rewrite Hstep in H.
  destruct H as (c1 & H1 & Hm & Hp).
  apply (Inv_ext v c1); [exact Hm | exact Hp |].
  eapply Inv_step; eassumption.
Qed.

Lemma wstep_decreases (v : variant) (i : nat) (c c' : wconfig) :
  wstep v i c = Done c' -> S (wmeasure v c') = wmeasure v c.
Proof.
  intros Hstep. pose proof (wstep_lower v i c) as H. rewrite Hstep in H.
  destruct H as (c1 & H1 & Hm & Hp).
  unfold wmeasure. rewrite <- (step_decreases v i (lower c) c1 H1).
  unfold measure. rewrite Hp. reflexivity.
Qed.

Lemma call_ok_pre (o : op) (m : lmode) :
  call_ok o m = true -> pre o {| mode := m; rlocks := 0 |} = true.
Proof. destruct o; simpl; auto; discriminate. Qed.

Lemma call_ok_post (o : op) (m : lmode) :
  call_ok o m = true ->
  post o {| mode := m; rlocks := 0 |} =
    {| mode := mode (post o {| mode := m; rlocks := 0 |}); rlocks := 0 |}.
Proof. destruct o; simpl; try discriminate; reflexivity. Qed.

(** A read-modify-write closure keeps to the documented requirements. *)
Lemma rmw_legal (p : list stmt) :
  forall m ld, rmw_ok m ld p = true ->
               legal {| mode := m; rlocks := 0 |} (calls_of (map lower_stmt p)) = true.
Proof.
  induction p as [|[o| |d] p IH]; simpl; intros m ld H; [reflexivity| | |].
  - apply andb_prop in H as [Hc H]. rewrite (call_ok_pre o m Hc). simpl.
    rewrite (call_ok_post o m Hc). eapply IH; eassumption.
  - apply andb_prop in H as [_ H]. eapply IH; eassumption.
  - apply andb_prop in H as [_ H]. eapply IH; eassumption.
Qed.

Lemma lower_wspawn (ps : list (list stmt)) :
  lower (wspawn ps) = spawn (map (map lower_stmt) ps).
Proof.
  unfold lower, wspawn, spawn; simpl. f_equal.
  induction ps as [|p ps IH]; simpl; [reflexivity|]. rewrite IH. reflexivity.
Qed.

Lemma WInv_wspawn (v : variant) (ps : list (list stmt)) :
  forallb rmw_closure ps = true -> Inv v (lower (wspawn ps)).
Proof.
  intros Hps. rewrite lower_wspawn. apply Inv_spawn.
  induction ps as [|p ps IH]; simpl in *; constructor.
  - apply andb_prop in Hps as [Hp _]. apply (rmw_legal p Unlocked false Hp).
  - apply IH. apply andb_prop in Hps as [_ Hps]. exact Hps.
Qed.

Lemma lower_lookup (c : wconfig) (i : nat) (th : worker) :
  cpool c !! i = Some th -> pool (lower c) !! i = Some (lower_worker th).
Proof. intros H. simpl. rewrite map_lookup_list, H. reflexivity. Qed.

Lemma wtwf (v : variant) (c : wconfig) (i : nat) (th : worker) :
  Inv v (lower c) -> cpool c !! i = Some th -> twf v (lower_worker th).
Proof.
  intros [_ Ht] Hi. eapply (proj1 (Forall_lookup _ _) Ht). apply lower_lookup. eassumption.
Qed.

(** ** The counter of read-modify-write closures *)

Lemma wrap_add_l (a b : Z) : wrap (wrap a + b) = wrap (a + b).
Proof.
  unfold wrap. f_equal.
  replace ((a + 2 ^ 63) mod 2 ^ 64 - 2 ^ 63 + b + 2 ^ 63)%Z
    with ((a + 2 ^ 63) mod 2 ^ 64 + b)%Z by lia.
  rewrite Zplus_mod_idemp_l. f_equal. lia.
Qed.

Lemma wrap_wrap (a : Z) : wrap (wrap a) = wrap a.
Proof.
  transitivity (wrap (wrap a + 0)); [f_equal; lia|].
  rewrite wrap_add_l. f_equal. lia.
Qed.

Lemma zsum_insert {A} (f : A -> Z) (l : list A) (i : nat) (x y : A) :
  l !! i = Some x ->
  (zsum f (<[i := y]> l) + f x = zsum f l + f y)%Z.
Proof.
  revert i; induction l as [|a l IH]; intros [|i] H; simpl in *; try discriminate.
  - inversion H; subst; lia.
  - specialize (IH _ H). lia.
Qed.

(** A goroutine that may still use the value it read holds [w]. *)
Lemma keeps_old_holds_w (v : variant) (th : worker) :
  twf v (lower_worker th) -> keeps_old th = true ->
  (match wframe th with
   | Some (o, _) => call_ok o (mode (wst th)) = true
   | None => True
   end) ->
  hw (wown th) = true.
Proof.
  unfold twf, keeps_old. destruct th as [fr k ol [md n] h]; simpl.
  destruct fr as [[o ss]|].
  - intros (Hpre & _ & done & Hs & -> & _) Hk Hc.
    destruct v, o, md; simpl in Hk, Hc; try discriminate;
      unfold body_steps in Hs; simpl in Hs; split_body Hs; subst; reflexivity.
  - intros [-> _] Hk _. destruct v, md; simpl in *; try discriminate; reflexivity.
Qed.

Lemma added_insert (l : list worker) (i : nat) (th th' : worker) :
  l !! i = Some th -> added (wcont th') = added (wcont th) ->
  zsum (fun t => added (wcont t)) (<[i := th']> l) = zsum (fun t => added (wcont t)) l.
Proof.
  intros Hi H. pose proof (zsum_insert (fun t => added (wcont t)) l i th th' Hi) as Hs.
  simpl in Hs. lia.
Qed.

Lemma wgood_unchanged (z : Z) (th th' : worker) :
  wframe th' = wframe th -> wcont th' = wcont th -> wold th' = wold th ->
  wst th' = wst th -> wgood z th -> wgood z th'.
Proof.
  unfold wgood, mode_after, keeps_old. intros -> -> -> ->. auto.
Qed.

(** Every step keeps the invariant of the counter. *)
Lemma wcounting_step (v : variant) (t : Z) (i : nat) (c c' : wconfig) :
  Inv v (lower c) ->
  Forall (wgood (cstate c)) (cpool c) -> wcount t c ->
  wstep v i c = Done c' ->
  Forall (wgood (cstate c')) (cpool c') /\ wcount t c'.
Proof.
  intros HI Hgood [Hsum Hint] Hstep. unfold wstep in Hstep.
  destruct (cpool c !! i) as [th|] eqn:Hi; [|discriminate].
  pose proof (proj1 (Forall_lookup _ _) Hgood i th Hi) as Hth.
  destruct Hth as (ld & Hok & Hld & Hrl & Hcall).
  unfold mode_after, keeps_old in *.
  destruct (wframe th) as [[o [|s ss]]|] eqn:Hfr.
  - (* return *)
    injection Hstep as <-. simpl. split.
    + apply Forall_insert; [assumption|].
      exists ld. unfold mode_after, keeps_old; simpl.
      split; [assumption|]. split; [|split; [|exact I]].
      * intros Hl. destruct (Hld Hl) as [Ho Hk]. split; [assumption|].
        destruct o; try discriminate; reflexivity.
      * destruct o; simpl in *; try discriminate; assumption.
    + split; [|assumption]. simpl.
      rewrite (added_insert _ i th); [assumption | assumption | reflexivity].
  - (* gate step *)
    apply bind_done in Hstep as (m' & _ & Hc). injection Hc as <-. simpl. split.
    + apply Forall_insert; [assumption|].
      exists ld. unfold mode_after, keeps_old; simpl. auto.
    + split; [|assumption]. simpl.
      rewrite (added_insert _ i th); [assumption | assumption | reflexivity].
  - destruct (wcont th) as [|[o| |d] k] eqn:Hk; [discriminate| | |];
      injection Hstep as <-; simpl in *.
    + (* call *)
      apply andb_prop in Hok as [Hc Hok]. split.
      * apply Forall_insert; [assumption|].
        exists (ld && keeps o). unfold mode_after, keeps_old; simpl.
        destruct (wst th) as [md n]; simpl in *; subst n.
        split; [assumption|]. split; [|split; [reflexivity|assumption]].
        intros Hl. apply andb_prop in Hl as [Hl Hko].
        destruct (Hld Hl) as [Ho _]. split; assumption.
      * split; [|assumption]. simpl.
        rewrite (added_insert _ i th); [assumption | assumption |].
        simpl. rewrite Hk. reflexivity.
    + (* old := state *)
      apply andb_prop in Hok as [Hm Hok]. split.
      * apply Forall_insert; [assumption|].
        exists true. unfold mode_after, keeps_old; simpl.
        split; [assumption|]. split; [|split; [assumption|exact I]].
        intros _. split; [reflexivity | assumption].
      * split; [|assumption]. simpl.
        rewrite (added_insert _ i th); [assumption | assumption |].
        simpl. rewrite Hk. reflexivity.
    + (* state = old + d *)
      apply andb_prop in Hok as [Hm Hok]. apply andb_prop in Hm as [Hm Hl].
      destruct (Hld Hl) as [Hold Hkeep].
      assert (Hwi : hw (wown th) = true).
      { apply (keeps_old_holds_w v th).
        - eapply wtwf; eassumption.
        - unfold keeps_old. rewrite Hfr. assumption.
        - rewrite Hfr. exact I. }
      split.
      * apply Forall_lookup. intros j tj Hj.
        destruct (decide (j = i)) as [->|Hne].
        -- rewrite list_lookup_insert_eq in Hj by (eapply lookup_lt_Some; eauto).
           injection Hj as <-. exists false. unfold mode_after, keeps_old; simpl.
           split; [assumption|]. split; [discriminate|]. split; [assumption|exact I].
        -- rewrite list_lookup_insert_ne in Hj by congruence.
           destruct (proj1 (Forall_lookup _ _) Hgood j tj Hj)
             as (lj & Hokj & Hldj & Hrlj & Hcallj).
           destruct lj.
           ++ exfalso. destruct (Hldj eq_refl) as [_ Hkj].
              assert (Hwj : hw (wown tj) = true).
              { apply (keeps_old_holds_w v tj); [eapply wtwf; eassumption | | ]; assumption. }
              apply Hne. symmetry.
              apply (holder_of_w_unique v (lower c) i j (lower_worker th) (lower_worker tj) HI);
                try assumption; apply lower_lookup; assumption.
           ++ exists false. split; [assumption|]. split; [discriminate|].
              split; assumption.
      * split; [|symmetry; apply wrap_wrap]. simpl.
        rewrite wrap_add_l. rewrite <- Hsum. f_equal. rewrite Hold.
        match goal with
        | |- context [<[i := ?t']> _] =>
            pose proof (zsum_insert (fun t0 => added (wcont t0)) (cpool c) i th t' Hi) as Hs
        end.
        simpl in Hs. rewrite Hk in Hs. simpl in Hs. lia.
Qed.

Lemma wgood_wspawn (ps : list (list stmt)) :
  forallb rmw_closure ps = true ->
  Forall (wgood 0) (cpool (wspawn ps)) /\
  wcount (zsum added ps) (wspawn ps).
Proof.
  intros Hps. split.
  - simpl. induction ps as [|p ps IH]; simpl in *; constructor.
    + apply andb_prop in Hps as [Hp _]. exists false.
      unfold mode_after, keeps_old; simpl.
      split; [exact Hp|]. split; [discriminate|]. split; [reflexivity | exact I].
    + apply IH. apply andb_prop in Hps as [_ Hps]. exact Hps.
  - split; [|reflexivity]. simpl. f_equal.
    assert (H : zsum (fun th => added (wcont th)) (map wgo ps) = zsum added ps).
    { clear Hps. induction ps as [|p ps IH]; simpl; [reflexivity|]. rewrite IH. reflexivity. }
    lia.
Qed.

Lemma wcounting_reachable (v : variant) (ps : list (list stmt)) (sched : list nat) :
  forallb rmw_closure ps = true ->
  forall c, wrun v sched (wspawn ps) = Done c ->
  Inv v (lower c) /\ Forall (wgood (cstate c)) (cpool c) /\ wcount (zsum added ps) c.
Proof.
  intros Hps.
  pose proof (WInv_wspawn v ps Hps) as H0.
  destruct (wgood_wspawn ps Hps) as [G0 K0].
  change (wgood 0) with (wgood (cstate (wspawn ps))) in G0.
  revert H0 G0 K0. generalize (wspawn ps) as c0.
  induction sched as [|i sched IH]; simpl; intros c0 H0 G0 K0 c Hrun.
  - injection Hrun as <-. split; [assumption|]. split; assumption.
  - apply bind_done in Hrun as (c1 & H1 & H2).
    destruct (wcounting_step v _ i c0 c1 H0 G0 K0 H1) as [G1 K1].
    eapply IH; [| | |eassumption]; try assumption.
    eapply WInv_step; eassumption.
Qed.

Lemma wfinished_added (th : worker) : wfinished th = true -> added (wcont th) = 0%Z.
Proof.
  unfold wfinished. destruct (wframe th); [discriminate|].
  destruct (wcont th); [reflexivity | discriminate].
Qed.

Lemma wfinal_count (t : Z) (c : wconfig) :
  wcount t c -> all_wfinished c = true -> cstate c = wrap t.
Proof.
  intros [Hsum Hint] Hfin. rewrite Hint, <- Hsum. f_equal.
  unfold all_wfinished in Hfin.
  assert (Hz : zsum (fun th => added (wcont th)) (cpool c) = 0%Z).
  { clear Hsum. induction (cpool c) as [|th l IH]; simpl in *; [reflexivity|].
    apply andb_prop in Hfin as [H1 H2]. rewrite (wfinished_added th H1), (IH H2).
    reflexivity. }
  lia.
Qed.

(** ** Read-modify-write closures never get stuck *)

Lemma rmw_no_rlock (v : variant) (z : Z) (th : worker) :
  twf v (lower_worker th) -> wgood z th -> nr (wown th) = 0.
Proof.
  unfold twf, wgood, mode_after, keeps_old.
  destruct th as [fr k ol [md n] h]; simpl.
  intros Ht (ld & _ & _ & -> & Hc).
  destruct fr as [[o ss]|].
  - destruct Ht as (Hpre & _ & done & Hs & -> & Hlock).
    destruct v, o, md; simpl in Hc; try discriminate;
      unfold body_steps in Hs; simpl in Hs; split_body Hs; subst; reflexivity.
  - destruct Ht as [-> _]. reflexivity.
Qed.

(** Each goroutine has finished, can move, or does not hold [w] and
    finds it locked. *)
Lemma rmw_step_cases (v : variant) (c : wconfig) (j : nat) (tj : worker) :
  Inv v (lower c) -> Forall (wgood (cstate c)) (cpool c) ->
  cpool c !! j = Some tj ->
  (wfinished tj = true /\ hw (wown tj) = false) \/
  is_done (wstep v j c) = true \/
  (hw (wown tj) = false /\ held (w (cmo c)) = true).
Proof.
  intros HI Hgood Hj.
  pose proof (wtwf v c j tj HI Hj) as Htj.
  pose proof (proj1 (Forall_lookup _ _) Hgood j tj Hj) as Hgj.
  assert (Hnr : Forall (fun th => n_nr th = 0) (pool (lower c))).
  { apply Forall_lookup. intros k tk Hk. simpl in Hk. rewrite map_lookup_list in Hk.
    destruct (cpool c !! k) as [wk|] eqn:Hwk; [|discriminate].
    injection Hk as <-. unfold n_nr; simpl.
    apply (rmw_no_rlock v (cstate c) wk).
    - eapply wtwf; eassumption.
    - apply (proj1 (Forall_lookup _ _) Hgood k wk Hwk). }
  rewrite wstep_done. unfold step. rewrite (lower_lookup c j tj Hj).
  destruct (hw (wown tj)) eqn:Hwj.
  - right; left.
    pose proof (gate_view v (lower c) j (lower_worker tj) HI (lower_lookup c j tj Hj) Hwj Hnr)
      as Hv.
    revert Hv Hwj. clear Hj HI Hgood Hnr.
    unfold twf, wgood, mode_after, keeps_old, lower in *.
    destruct tj as [fr k ol [md n] h]; simpl in *.
    destruct Hgj as (ld & Hok & _ & -> & Hc).
    destruct (cmo c) as [[bw] [[] nn] [bg]]; simpl;
    (destruct fr as [[o ss]|];
     [ destruct Htj as (Hpre & _ & done & Hs & -> & Hlock);
       destruct v, o, md; simpl in Hc; try discriminate;
       unfold body_steps in Hs; simpl in Hs;
       split_body Hs; subst; simpl;
       intros (-> & Hwr & -> & ->) Hwj; try discriminate; reflexivity
     | destruct Htj as [-> _];
       destruct k as [|[o| |d] k]; simpl;
       [ destruct md; simpl in Hok; try discriminate;
         intros _ Hwj; simpl in Hwj; discriminate
       | reflexivity | reflexivity | reflexivity ] ]).
  - clear Hnr.
    unfold twf, wgood, mode_after, keeps_old, wfinished, lower in *.
    destruct tj as [fr k ol [md n] h]; simpl in *.
    destruct Hgj as (ld & Hok & _ & -> & Hc).
    destruct fr as [[o ss]|].
    + destruct Htj as (Hpre & _ & done & Hs & -> & Hlock).
      destruct v, o, md; simpl in Hc; try discriminate;
        unfold body_steps in Hs; simpl in Hs;
        split_body Hs; subst; simpl in Hwj; try discriminate; simpl;
        try (right; left; reflexivity);
        unfold Mutex_Lock; destruct (held (w (cmo c)));
        [right; right; split; reflexivity | right; left; reflexivity
        |right; right; split; reflexivity | right; left; reflexivity].
    + destruct Htj as [-> _].
      destruct k as [|[o| |d] k]; simpl;
        [left; split; reflexivity | | |]; right; left; reflexivity.
Qed.

Lemma not_all_wfinished (c : wconfig) :
  all_wfinished c = false ->
  exists j tj, cpool c !! j = Some tj /\ wfinished tj = false.
Proof.
  unfold all_wfinished. induction (cpool c) as [|th l IH]; simpl; [discriminate|].
  destruct (wfinished th) eqn:Hf; simpl.
  - intros H. destruct (IH H) as (j & tj & Hj & Hfj). exists (S j), tj. auto.
  - intros _. exists 0, th. auto.
Qed.

(** While a goroutine has not finished, some goroutine can move. *)
Lemma rmw_progress (v : variant) (c : wconfig) :
  Inv v (lower c) -> Forall (wgood (cstate c)) (cpool c) ->
  all_wfinished c = false ->
  exists i, is_done (wstep v i c) = true.
Proof.
  intros HI HG Hnf.
  destruct (not_all_wfinished c Hnf) as (j & tj & Hj & Hfj).
  destruct (rmw_step_cases v c j tj HI HG Hj) as [[Hf _] | [Hen | [Hwj Hheld]]].
  - congruence.
  - exists j. assumption.
  - pose proof HI as [(Hw & _) _]. simpl in Hw. rewrite Hheld in Hw. simpl in Hw.
    destruct (sum_pos_elem n_hw (map lower_worker (cpool c))) as (i & ti & Hi & Hpos);
      [lia|].
    rewrite map_lookup_list in Hi.
    destruct (cpool c !! i) as [wi|] eqn:Hwi; [|discriminate].
    injection Hi as <-.
    assert (Hhw : hw (wown wi) = true).
    { unfold n_hw in Hpos; simpl in Hpos.
      destruct (hw (wown wi)); [reflexivity | simpl in Hpos; lia]. }
    destruct (rmw_step_cases v c i wi HI HG Hwi) as [[_ Hf] | [Hen | [Hf _]]].
    + congruence.
    + exists i. assumption.
    + congruence.
Qed.

(** From any state the goroutines reach, some schedule takes them all to
    the end. *)
Lemma rmw_completes (v : variant) (t : Z) (n : nat) :
  forall c, wmeasure v c = n -> Inv v (lower c) ->
            Forall (wgood (cstate c)) (cpool c) -> wcount t c ->
  exists sched c', wrun v sched c = Done c' /\ all_wfinished c' = true.
Proof.
  induction n as [|n IH]; intros c Hm HI HG HK.
  - destruct (all_wfinished c) eqn:Hf.
    + exists [], c. split; [reflexivity | assumption].
    + destruct (rmw_progress v c HI HG Hf) as (i & Hen).
      destruct (wstep v i c) as [c1| |] eqn:Hstep; try discriminate.
      pose proof (wstep_decreases v i c c1 Hstep). lia.
  - destruct (all_wfinished c) eqn:Hf.
    + exists [], c. split; [reflexivity | assumption].
    + destruct (rmw_progress v c HI HG Hf) as (i & Hen).
      destruct (wstep v i c) as [c1| |] eqn:Hstep; try discriminate.
      pose proof (wstep_decreases v i c c1 Hstep) as Hdec.
      destruct (wcounting_step v t i c c1 HI HG HK Hstep) as [HG1 HK1].
      destruct (IH c1) as (sched & c' & Hrun & Hfin).
      * lia.
      * eapply WInv_step; eassumption.
      * assumption.
      * assumption.
      * exists (i :: sched), c'. simpl. rewrite Hstep. simpl. split; assumption.
Qed.

Lemma rmw_runs (v : variant) (ps : list (list stmt)) (sched : list nat) (c : wconfig) :
  forallb rmw_closure ps = true ->
  wrun v sched (wspawn ps) = Done c ->
  (forall i, is_fatal (wstep v i c) = false) /\
  (all_wfinished c = false -> exists i, is_done (wstep v i c) = true) /\
  (forall i c', wstep v i c = Done c' -> S (wmeasure v c') = wmeasure v c) /\
  (exists sched' c', wrun v sched' c = Done c' /\ all_wfinished c' = true) /\
  (all_wfinished c = true -> cstate c = wrap (zsum added ps)).
Proof.
  intros Hps Hrun.
  destruct (wcounting_reachable v ps sched Hps c Hrun) as (HI & HG & HK).
  split; [|split; [|split; [|split]]].
  - intros i. rewrite wstep_fatal. apply legal_never_fatal. assumption.
  - apply rmw_progress; assumption.
  - intros i c'. apply wstep_decreases.
  - eapply rmw_completes; eauto.
  - apply wfinal_count. assumption.
Qed.

(** X6. Goroutines that each run a closure of the read-modify-write
    shape (every access of [state] is between [Lock] and [Unlock], every
    write is of a value read since the lock was taken, with nothing but
    [Demote] and [Promote] in between, and is not made while demoted)
    lose no update, however they interleave: no step is fatal; while one
    has not finished some goroutine can move, and some schedule leads to
    the end; and once all have finished, [state] is the sum of what the
    closures add (as a Go int). *)
Theorem atomic_updates_are_not_lost
    (v : variant) (ps : list (list stmt)) (sched : list nat) (c : wconfig) :
  forallb rmw_closure ps = true ->
  wrun v sched (wspawn ps) = Done c ->
  (forall i, is_fatal (wstep v i c) = false) /\
  (all_wfinished c = false -> exists i, is_done (wstep v i c) = true) /\
  (exists sched' c', wrun v sched' c = Done c' /\ all_wfinished c' = true) /\
  (all_wfinished c = true -> cstate c = wrap (zsum added ps)).
Proof.
  intros Hps Hrun.
  destruct (rmw_runs v ps sched c Hps Hrun) as (H1 & H2 & _ & H4 & H5).
  auto.
Qed.

Lemma zsum_app {A} (f : A -> Z) (l1 l2 : list A) :
  zsum f (l1 ++ l2) = (zsum f l1 + zsum f l2)%Z.
Proof. induction l1 as [|a l1 IH]; simpl; [reflexivity | rewrite IH; lia]. Qed.

Lemma zsum_ones (funcs : list (list stmt)) :
  Forall (fun f => added f = 1%Z) funcs -> zsum added funcs = Z.of_nat (length funcs).
Proof.
  induction 1 as [|f l Hf _ IH]; simpl length; simpl zsum; [reflexivity|].
  rewrite Hf, IH. lia.
Qed.

Lemma zsum_goroutines (n : nat) (funcs : list (list stmt)) :
  zsum added (TestMotex.goroutines n funcs) = (Z.of_nat n * zsum added funcs)%Z.
Proof.
  unfold TestMotex.goroutines.
  induction n as [|n IH]; [reflexivity|].
  change (replicate (S n) funcs) with (funcs :: replicate n funcs).
  simpl concat. rewrite zsum_app, IH. lia.
Qed.

Lemma forallb_goroutines (P : list stmt -> bool) (n : nat) (funcs : list (list stmt)) :
  forallb P funcs = true -> forallb P (TestMotex.goroutines n funcs) = true.
Proof.
  intros H. unfold TestMotex.goroutines.
  induction n as [|n IH]; [reflexivity|].
  change (replicate (S n) funcs) with (funcs :: replicate n funcs).
  simpl concat. rewrite forallb_app, H, IH. reflexivity.
Qed.

Lemma tests_shape (name : string) (funcs : list (list stmt)) :
  In (name, funcs) TestMotexTable.tests ->
  forallb rmw_closure funcs = true /\ Forall (fun f => added f = 1%Z) funcs.
Proof.
  simpl. intros H.
  repeat (destruct H as [H|H]; [injection H as <- <-; split;
                                [reflexivity | repeat constructor]|]).
  contradiction.
Qed.

(** X7. TestMotex never fails and never hangs: for every case of its
    table and every [n], however the [n * len(funcs)] goroutines
    interleave, no step is fatal, while one has not finished some
    goroutine can move and some schedule leads to the end, and once all
    have finished [state] equals [want] ([n * len(funcs)], up to the
    largest int). *)
Theorem TestMotex_passes
    (v : variant) (name : string) (funcs : list (list stmt)) (n : nat)
    (sched : list nat) (c : wconfig) :
  In (name, funcs) TestMotexTable.tests ->
  wrun v sched (wspawn (TestMotex.goroutines n funcs)) = Done c ->
  (forall i, is_fatal (wstep v i c) = false) /\
  (all_wfinished c = false -> exists i, is_done (wstep v i c) = true) /\
  (exists sched' c', wrun v sched' c = Done c' /\ all_wfinished c' = true) /\
  (all_wfinished c = true ->
     cstate c = TestMotex.want n funcs /\
     ((Z.of_nat n * Z.of_nat (length funcs) < 2 ^ 63)%Z ->
      cstate c = (Z.of_nat n * Z.of_nat (length funcs))%Z)).
Proof.
  intros Hin Hrun. destruct (tests_shape name funcs Hin) as [Hok Hone].
  destruct (rmw_runs v _ sched c (forallb_goroutines _ n funcs Hok) Hrun)
    as (H1 & H2 & _ & H4 & H5).
  split; [assumption|]. split; [assumption|]. split; [assumption|].
  intros Hfin. specialize (H5 Hfin).
  rewrite zsum_goroutines, (zsum_ones funcs Hone) in H5.
  split; [exact H5|]. intros Hn. rewrite H5. apply wrap_small. lia.
Qed.

Lemma atomic_updates_are_not_lost_witness :
  forallb rmw_closure sample_closures = true /\
  wrun guarded sample_interleaving (wspawn sample_closures) = Done sample_updated /\
  all_wfinished sample_updated = true /\
  cstate sample_updated = 2%Z.
Proof.
  split; [reflexivity|]. split; [reflexivity|]. split; [reflexivity|].
  apply (atomic_updates_are_not_lost guarded sample_closures sample_interleaving
           sample_updated); reflexivity.
Defined.

Lemma TestMotex_passes_witness :
  In ("func1 AND func3"%string, sample_closures) TestMotexTable.tests /\
  wrun guarded sample_interleaving
    (wspawn (TestMotex.goroutines 1 sample_closures)) = Done sample_updated /\
  all_wfinished sample_updated = true /\
  cstate sample_updated = TestMotex.want 1 sample_closures.
Proof.
  assert (Hin : In ("func1 AND func3"%string, sample_closures) TestMotexTable.tests).
  { simpl. tauto. }
  split; [exact Hin|]. split; [reflexivity|]. split; [reflexivity|].
  apply (TestMotex_passes guarded "func1 AND func3"%string sample_closures 1
           sample_interleaving sample_updated Hin); reflexivity.
Defined.

(** ** Closures that read and write in two critical sections *)

Lemma wrun_app (v : variant) (s1 s2 : list nat) (c : wconfig) :
  wrun v (s1 ++ s2) c = bind (wrun v s1 c) (wrun v s2).
Proof.
  revert c; induction s1 as [|i s1 IH]; intros c; simpl; [reflexivity|].
  destruct (wstep v i c); simpl; [apply IH | reflexivity | reflexivity].
Qed.

Lemma lookup_middle_list {A} (l1 l2 : list A) (x : A) :
  (l1 ++ x :: l2) !! length l1 = Some x.
Proof. induction l1 as [|a l1 IH]; simpl; [reflexivity | exact IH]. Qed.

Lemma insert_middle_list {A} (l1 l2 : list A) (x y : A) :
  <[length l1 := y]> (l1 ++ x :: l2) = l1 ++ y :: l2.
Proof. induction l1 as [|a l1 IH]; simpl; [reflexivity | rewrite IH; reflexivity]. Qed.

(** A step of a goroutine depends on the lock, on [state] and on the
    goroutine, not on the others. *)
Lemma wstep_among (v : variant) (l1 l2 : list worker) (m : Motex) (z : Z)
    (A : worker) (c' : wconfig) :
  wstep v 0 {| cmo := m; cstate := z; cpool := [A] |} = Done c' ->
  exists B, cpool c' = [B] /\
    wstep v (length l1) {| cmo := m; cstate := z; cpool := l1 ++ A :: l2 |} =
      Done {| cmo := cmo c'; cstate := cstate c'; cpool := l1 ++ B :: l2 |}.
Proof.
  unfold wstep; simpl. rewrite lookup_middle_list.
  destruct (wframe A) as [[o [|s ss]]|].
  - intros H; inversion H; subst; simpl. rewrite insert_middle_list.
    eexists; split; reflexivity.
  - destruct (exec_step s m) as [m'| |]; simpl; try discriminate.
    intros H; inversion H; subst; simpl. rewrite insert_middle_list.
    eexists; split; reflexivity.
  - destruct (wcont A) as [|[o| |d] k]; try discriminate;
      intros H; inversion H; subst; simpl; rewrite insert_middle_list;
      eexists; split; reflexivity.
Qed.

Lemma wrun_among (v : variant) (l1 l2 : list worker) (k : nat) :
  forall (m : Motex) (z : Z) (A : worker) (m' : Motex) (z' : Z) (B : worker),
    wrun v (replicate k 0) {| cmo := m; cstate := z; cpool := [A] |} =
      Done {| cmo := m'; cstate := z'; cpool := [B] |} ->
    wrun v (replicate k (length l1)) {| cmo := m; cstate := z; cpool := l1 ++ A :: l2 |} =
      Done {| cmo := m'; cstate := z'; cpool := l1 ++ B :: l2 |}.
Proof.
  induction k as [|k IH]; intros m z A m' z' B H; simpl in *.
  - inversion H; subst. reflexivity.
  - destruct (wstep v 0 {| cmo := m; cstate := z; cpool := [A] |}) as [c1| |] eqn:Hs;
      simpl in H; try discriminate.
    destruct (wstep_among v l1 l2 m z A c1 Hs) as (B1 & HB & ->). simpl.
    destruct c1 as [m1 z1 p1]; simpl in *. subst p1.
    apply IH. exact H.
Qed.

(** Goroutines that run one after the other. *)
Lemma wrun_sweep (v : variant) (k : nat) (m : Motex) (A : worker)
    (f : Z -> Z) (B : Z -> worker) :
  (forall z, wrun v (replicate k 0) {| cmo := m; cstate := z; cpool := [A] |} =
             Done {| cmo := m; cstate := f z; cpool := [B z] |}) ->
  forall (b : nat) (l1 : list worker) (z : Z),
    wrun v (sweep k (length l1) b) {| cmo := m; cstate := z; cpool := l1 ++ replicate b A |} =
      Done {| cmo := m; cstate := left_by f b z; cpool := l1 ++ map B (found f b z) |}.
Proof.
  intros H. induction b as [|b IH]; intros l1 z.
  - reflexivity.
  - unfold sweep. simpl seq. simpl map. simpl concat. fold (sweep k (S (length l1)) b).
    rewrite wrun_app.
    change (replicate (S b) A) with (A :: replicate b A).
    rewrite (wrun_among v l1 (replicate b A) k m z A m (f z) (B z) (H z)). simpl bind.
    replace (l1 ++ B z :: replicate b A) with ((l1 ++ [B z]) ++ replicate b A)
      by (rewrite <- app_assoc; reflexivity).
    replace (S (length l1)) with (length (l1 ++ [B z]))
      by (rewrite length_app; simpl; lia).
    rewrite IH. simpl. rewrite <- app_assoc. reflexivity.
Qed.

Lemma length_found (f : Z -> Z) (b : nat) : forall z, length (found f b z) = b.
Proof. induction b as [|b IH]; intros z; simpl; [reflexivity | rewrite IH; reflexivity]. Qed.

Lemma found_same (b : nat) (z : Z) : found (fun x => x) b z = replicate b z.
Proof. induction b as [|b IH]; simpl; [reflexivity | rewrite IH; reflexivity]. Qed.

Lemma left_by_same (b : nat) (z : Z) : left_by (fun x => x) b z = z.
Proof. induction b as [|b IH]; simpl; [reflexivity | exact IH]. Qed.

Lemma left_by_const (k : Z) (b : nat) (z : Z) : 1 <= b -> left_by (fun _ => k) b z = k.
Proof.
  intros Hb. destruct b as [|b]; [lia|]. simpl. clear Hb.
  induction b as [|b IH]; simpl; [reflexivity | exact IH].
Qed.

Lemma left_by_succ (b : nat) :
  forall z, left_by (fun x => wrap (x + 1)) b z = wrap (z + Z.of_nat b) \/ b = 0.
Proof.
  induction b as [|b IH]; intros z; [right; reflexivity | left].
  simpl left_by. destruct (IH (wrap (z + 1))) as [-> | ->].
  - rewrite wrap_add_l. f_equal. lia.
  - simpl. f_equal.
Qed.

Lemma map_replicate_list {A B} (f : A -> B) (n : nat) (x : A) :
  map f (replicate n x) = replicate n (f x).
Proof. induction n as [|n IH]; simpl; [reflexivity | rewrite IH; reflexivity]. Qed.

Lemma forallb_map_const {A} (B : A -> worker) (l : list A) :
  (forall z, wfinished (B z) = true) -> forallb wfinished (map B l) = true.
Proof.
  intros H. induction l as [|a l IH]; simpl; [reflexivity|]. rewrite H, IH. reflexivity.
Qed.

(** The two halves of each closure of TestIncorrectMotexUse, run by a
    goroutine on its own: the first half reads [state] into [old] and
    leaves the lock free; the second writes [old + 1]. *)
Lemma read_half (v : variant) (name : string) (f : list stmt) :
  In (name, f) TestIncorrectMotexUseTable.tests ->
  exists k, forall z,
    wrun v (replicate k 0) {| cmo := fresh; cstate := z; cpool := [wgo f] |} =
      Done {| cmo := fresh; cstate := z; cpool := [wat write_back z] |}.
Proof.
  simpl. intros [H | [H | [H | []]]]; injection H as <- <-; destruct v.
  - exists 7. intros z. reflexivity.
  - exists 7. intros z. reflexivity.
  - exists 10. intros z. reflexivity.
  - exists 10. intros z. reflexivity.
  - exists 19. intros z. reflexivity.
  - exists 21. intros z. reflexivity.
Qed.

Lemma write_half (v : variant) (z0 z : Z) :
  wrun v (replicate 10 0) {| cmo := fresh; cstate := z; cpool := [wat write_back z0] |} =
    Done {| cmo := fresh; cstate := wrap (z0 + 1); cpool := [wat [] z0] |}.
Proof. destruct v; reflexivity. Qed.

Lemma replicate_add_list {A} (a b : nat) (x : A) :
  replicate (a + b) x = replicate a x ++ replicate b x.
Proof. induction a as [|a IH]; simpl; [reflexivity | rewrite IH; reflexivity]. Qed.

(** X8. The closures of TestIncorrectMotexUse, which read [state] in one
    critical section and write it in another, can lose updates and can
    keep them all: for each of the three and any number [n >= 1] of
    goroutines, some schedule ends with every goroutine finished and
    [state = 1], and some other ends with every goroutine finished and
    [state = n] (as a Go int), the value at which the test reports an
    error. *)
Theorem non_atomic_updates_can_be_lost
    (v : variant) (name : string) (f : list stmt) (n : nat) :
  In (name, f) TestIncorrectMotexUseTable.tests ->
  1 <= n ->
  (exists sched c, wrun v sched (wspawn (replicate n f)) = Done c /\
                   length (cpool c) = n /\ all_wfinished c = true /\
                   cstate c = 1%Z) /\
  (exists sched c, wrun v sched (wspawn (replicate n f)) = Done c /\
                   length (cpool c) = n /\ all_wfinished c = true /\
                   cstate c = wrap (Z.of_nat n)).
Proof.
  intros Hin Hn. destruct (read_half v name f Hin) as (k & Hread).
  assert (Hstart : wspawn (replicate n f) =
                   {| cmo := fresh; cstate := 0; cpool := replicate n (wgo f) |}).
  { unfold wspawn. rewrite map_replicate_list. reflexivity. }
  split.
  - exists (sweep k 0 n ++ sweep 10 0 n). eexists.
    pose proof (wrun_sweep v k fresh (wgo f) (fun x => x) (wat write_back) Hread n [] 0%Z)
      as H1.
    pose proof (wrun_sweep v 10 fresh (wat write_back 0) (fun _ => wrap (0 + 1))
                  (fun _ => wat [] 0) (write_half v 0) n [] 0%Z) as H2.
    cbn [length app] in H1, H2.
    rewrite found_same, left_by_same, map_replicate_list in H1.
    rewrite wrun_app, Hstart, H1. simpl bind. rewrite H2.
    split; [reflexivity|]. unfold all_wfinished. cbn [cpool cstate]. split; [|split].
    + rewrite length_map. apply length_found.
    + apply forallb_map_const. reflexivity.
    + rewrite left_by_const by assumption. reflexivity.
  - assert (Hfull : forall z,
        wrun v (replicate (k + 10) 0) {| cmo := fresh; cstate := z; cpool := [wgo f] |} =
          Done {| cmo := fresh; cstate := wrap (z + 1); cpool := [wat [] z] |}).
    { intros z. rewrite replicate_add_list, wrun_app, Hread. simpl bind.
      apply write_half. }
    exists (sweep (k + 10) 0 n). eexists.
    pose proof (wrun_sweep v (k + 10) fresh (wgo f) (fun x => wrap (x + 1))
                  (wat []) Hfull n [] 0%Z) as H1.
    cbn [length app] in H1. rewrite Hstart, H1.
    split; [reflexivity|]. unfold all_wfinished. cbn [cpool cstate]. split; [|split].
    + rewrite length_map. apply length_found.
    + apply forallb_map_const. reflexivity.
    + destruct (left_by_succ n 0%Z) as [-> | ->]; [f_equal; lia | lia].
Qed.

Lemma non_atomic_updates_can_be_lost_witness :
  In ("non-atomic read (demoted) and write (lock)"%string,
      TestIncorrectMotexUse.read_demoted_write_lock) TestIncorrectMotexUseTable.tests /\
  1 <= 3 /\
  exists sched c,
    wrun guarded sched
      (wspawn (replicate 3 TestIncorrectMotexUse.read_demoted_write_lock)) = Done c /\
    length (cpool c) = 3 /\ all_wfinished c = true /\ cstate c = 1%Z.
Proof.
  assert (Hin : In ("non-atomic read (demoted) and write (lock)"%string,
                    TestIncorrectMotexUse.read_demoted_write_lock)
                  TestIncorrectMotexUseTable.tests).
  { simpl. tauto. }
  split; [exact Hin|]. split; [lia|].
  apply (non_atomic_updates_can_be_lost guarded _ _ 3 Hin). lia.
Defined.

(** ** Readers and the writer on the read/write gate *)

Lemma sum_zero_all {A} (f : A -> nat) (l : list A) :
  (forall i x, l !! i = Some x -> f x = 0) -> sum_list_with f l = 0.
Proof.
  induction l as [|a l IH]; intros H; [reflexivity|]. simpl.
  rewrite (H 0 a eq_refl), IH; [reflexivity|].
  intros i x Hi. apply (H (S i) x Hi).
Qed.

(** X9. [RLock] waits exactly while a writer holds the read/write gate
    or has announced itself on it.  In any state that goroutines running
    legal programs reach, a goroutine inside [RLock] waits (it is not
    stopped) if some goroutine holds [r] for writing, as after [Lock], or
    is announced on it, as inside [Lock] and [Promote]; and it takes its
    slot at once if none does. *)
Theorem readers_wait_for_writers
    (v : variant) (ps : list (list instr)) (sched : list nat)
    (c : config) (j : nat) (tj : goroutine) (s : gstep) (ss : list gstep) :
  forallb legal_prog ps = true ->
  run_schedule v sched (spawn ps) = Done c ->
  pool c !! j = Some tj ->
  frame tj = Some (RLock, s :: ss) ->
  (forall i ti, pool c !! i = Some ti -> hp (own ti) || hx (own ti) = true ->
     step v j c = Blocks) /\
  ((forall i ti, pool c !! i = Some ti -> hp (own ti) = false /\ hx (own ti) = false) ->
     is_done (step v j c) = true).
Proof.
  intros Hps Hrun Hj Hfr.
  pose proof (legal_programs_Inv v ps sched c Hps Hrun) as HI.
  pose proof HI as [(Hw & Hp & Hx & Hs & Hg & Hr) Ht].
  assert (Htj : twf v tj) by (eapply (proj1 (Forall_lookup _ _) Ht); eauto).
  destruct (reading_step v tj s ss Htj Hfr) as [-> ->].
  unfold step. rewrite Hj, Hfr. simpl. unfold RWMutex_RLock. split.
  - intros i ti Hi Hh.
    assert (Hin : ti ∈ pool c) by (apply list_elem_of_lookup; eauto).
    pose proof (sum_list_with_in _ n_hp _ Hin) as Lp.
    pose proof (sum_list_with_in _ n_hx _ Hin) as Lx.
    unfold n_hp at 1 in Lp. unfold n_hx at 1 in Lx.
    destruct (writer (r (mo c))); [|reflexivity|reflexivity].
    destruct (hp (own ti)), (hx (own ti)); simpl in *; try discriminate; lia.
  - intros Hnone.
    assert (Zp : sum_list_with n_hp (pool c) = 0).
    { apply sum_zero_all. intros i x Hi. unfold n_hp.
      rewrite (proj1 (Hnone i x Hi)). reflexivity. }
    assert (Zx : sum_list_with n_hx (pool c) = 0).
    { apply sum_zero_all. intros i x Hi. unfold n_hx.
      rewrite (proj2 (Hnone i x Hi)). reflexivity. }
    destruct (writer (r (mo c))); [reflexivity | lia | lia].
Qed.

Lemma readers_wait_for_writers_witness :
  forallb legal_prog sample_programs = true /\
  run_schedule guarded [0; 0; 0; 0; 1] (spawn sample_programs) = Done sample_held /\
  pool sample_held !! 1 = Some sample_arriving /\
  frame sample_arriving = Some (RLock, [s_r_RLock]) /\
  pool sample_held !! 0 = Some sample_locker /\
  hx (own sample_locker) = true /\
  step guarded 1 sample_held = Blocks.
Proof.
  split; [reflexivity|]. split; [reflexivity|]. split; [reflexivity|].
  split; [reflexivity|]. split; [reflexivity|]. split; [reflexivity|].
  destruct (readers_wait_for_writers guarded sample_programs [0; 0; 0; 0; 1]
              sample_held 1 sample_arriving s_r_RLock []) as [H _];
    [reflexivity | reflexivity | reflexivity | reflexivity |].
  apply (H 0 sample_locker); reflexivity.
Defined.

(** ** The messages of the fatal errors *)





Lemma variants_agree_on_schedules_witness :
  forallb legal_prog sample_programs = true /\
  run_schedule guarded sample_schedule (spawn sample_programs) = Done sample_config /\
  exists bsched cb,
    run_schedule bare bsched (spawn sample_programs) = Done cb /\
    sim sample_config cb /\
    gate_events (events guarded sample_schedule (spawn sample_programs)) =
      events bare bsched (spawn sample_programs).
Proof.
  split; [reflexivity|]. split; [reflexivity|].
  destruct (variants_agree_on_schedules sample_programs eq_refl) as [H _].
  apply (H sample_schedule sample_config). reflexivity.
Defined.

(** ** Disciplined goroutines never deadlock *)

Lemma safe_call_pre (o : op) (s : lstate) : safe_call o s = true -> pre o s = true.
Proof.
  unfold safe_call. intros H.
  apply andb_true_iff in H as [H _]. apply andb_true_iff in H as [H _]. exact H.
Qed.

Lemma disciplined_legal (os : list op) :
  forall s, disciplined s os = true -> legal s os = true.
Proof.
  induction os as [|o os IH]; intros s H; [reflexivity|]. simpl in *.
  apply andb_true_iff in H as [H1 H2].
  rewrite (safe_call_pre o s H1), (IH _ H2). reflexivity.
Qed.

Lemma disciplined_progs_legal (ps : list (list instr)) :
  forallb disciplined_prog ps = true -> forallb legal_prog ps = true.
Proof.
  induction ps as [|p ps IH]; simpl; [reflexivity|]. intros H.
  apply andb_true_iff in H as [H1 H2].
  rewrite (IH H2). unfold legal_prog. rewrite (disciplined_legal _ _ H1). reflexivity.
Qed.

Lemma safe_call_coherent (o : op) (s : lstate) :
  coherent s = true -> safe_call o s = true -> coherent (post o s) = true.
Proof.
  destruct s as [md [|n]]; destruct o, md; simpl; try discriminate; reflexivity.
Qed.

Lemma dwf_spawn (ps : list (list instr)) :
  forallb disciplined_prog ps = true -> Forall dwf (pool (spawn ps)).
Proof.
  simpl. induction ps as [|p ps IH]; simpl; intros H; constructor.
  - apply andb_true_iff in H as [H _]. split; [reflexivity | exact H].
  - apply IH. apply andb_true_iff in H as [_ H]. exact H.
Qed.

Lemma dwf_step (v : variant) (i : nat) (c c' : config) :
  Forall dwf (pool c) -> step v i c = Done c' -> Forall dwf (pool c').
Proof.
  intros Hd Hstep. unfold step in Hstep.
  destruct (pool c !! i) as [th|] eqn:Hi; [|discriminate].
  pose proof (proj1 (Forall_lookup _ _) Hd i th Hi) as [Hco Hth].
  destruct (frame th) as [[o [|s ss]]|] eqn:Hfr.
  - injection Hstep as <-. simpl. apply Forall_insert; [assumption|].
    destruct Hth as [Hs Hk]. split; simpl; [|exact Hk].
    apply safe_call_coherent; assumption.
  - apply bind_done in Hstep as (m' & _ & Hstep). injection Hstep as <-. simpl.
    apply Forall_insert; [assumption|]. split; simpl; assumption.
  - destruct (cont th) as [|[o| |] k] eqn:Hk; [discriminate| | |];
      injection Hstep as <-; simpl; apply Forall_insert; try assumption;
      split; simpl; try assumption.
    simpl in Hth. apply andb_true_iff in Hth. exact Hth.
Qed.

Lemma dwf_reachable (v : variant) (ps : list (list instr)) (sched : list nat) :
  forallb disciplined_prog ps = true ->
  forall c, run_schedule v sched (spawn ps) = Done c -> Forall dwf (pool c).
Proof.
  intros Hps. pose proof (dwf_spawn ps Hps) as H0.
  revert H0. generalize (spawn ps) as c0.
  induction sched as [|i sched IH]; simpl; intros c0 H0 c Hrun.
  - injection Hrun as <-. assumption.
  - apply bind_done in Hrun as (c1 & Hstep & Hrun).
    apply (IH c1); [eapply dwf_step; eassumption | assumption].
Qed.

(** What a goroutine of a disciplined program holds before each step of
    a method, and once it has finished. *)
Lemma dwf_holds_at (v : variant) (th : goroutine) (o : op) (s : gstep) (ss : list gstep) :
  twf v th -> dwf th -> frame th = Some (o, s :: ss) -> holds_at s (own th).
Proof.
  unfold twf, dwf. destruct th as [fr k ol [md n] h]; simpl.
  intros Ht [Hco Hd] ->. destruct Ht as (_ & _ & done & Hs & -> & _).
  destruct Hd as [Hsafe _].
  destruct n as [|n]; destruct v, o, md; simpl in Hsafe, Hco; try discriminate;
    unfold body_steps in Hs; simpl in Hs;
    split_body Hs; try (inversion Hs; subst; clear Hs); simpl;
    repeat split; try reflexivity; try lia;
    first [left; repeat split; reflexivity | right; repeat split; reflexivity].
Qed.

Lemma dwf_finished (v : variant) (th : goroutine) :
  twf v th -> dwf th -> finished th = true ->
  hw (own th) = false /\ nr (own th) = 0.
Proof.
  unfold twf, dwf, finished. destruct th as [fr k ol [md n] h]; simpl.
  destruct fr as [[o ss]|]; [discriminate|]. destruct k; [|discriminate].
  intros [-> _] [_ Hd] _. simpl in Hd.
  destruct md, n; simpl in Hd; try discriminate. split; reflexivity.
Qed.

(** What the gates look like to the goroutine that holds [w]. *)
Lemma holder_view (v : variant) (c : config) (j : nat) (tj : goroutine) :
  Inv v c -> pool c !! j = Some tj -> hw (own tj) = true ->
  held (w (mo c)) = true /\
  writer (r (mo c)) =
    (if hx (own tj) then WHeld else if hp (own tj) then WWaiting else WFree) /\
  readers (r (mo c)) =
    Nat.b2n (hd (own tj)) + nr (own tj) + sum_list_with n_nr (delete j (pool c)) /\
  held (g (mo c)) = hg (own tj).
Proof.
  intros HI Hj Hwj. pose proof HI as [(Hw & Hp & Hx & Hs & Hg & Hr) Ht].
  destruct (holder_of_w_is_alone v c j tj HI Hj Hwj) as (Hh & _ & Zp & Zx & Zd & Zg).
  pose proof (sum_delete n_hp _ _ _ Hj) as Dp.
  pose proof (sum_delete n_hx _ _ _ Hj) as Dx.
  pose proof (sum_delete n_hd _ _ _ Hj) as Dd.
  pose proof (sum_delete n_hg _ _ _ Hj) as Dg.
  pose proof (sum_delete n_nr _ _ _ Hj) as Dn.
  rewrite sum_hs_split in Hs.
  unfold n_hp at 2 in Dp. unfold n_hx at 2 in Dx.
  unfold n_hd at 2 in Dd. unfold n_hg at 2 in Dg. unfold n_nr at 2 in Dn.
  split; [assumption|]. split; [|split].
  - destruct (hx (own tj)), (hp (own tj)), (writer (r (mo c))); simpl in *;
      first [reflexivity | lia].
  - lia.
  - destruct (hg (own tj)), (held (g (mo c))); simpl in *; first [reflexivity | lia].
Qed.

(** Whoever is announced on [r] or holds it for writing holds [w]. *)
Lemma writer_holds_w (v : variant) (c : config) :
  Inv v c -> writer (r (mo c)) <> WFree -> held (w (mo c)) = true.
Proof.
  intros [(Hw & Hp & Hx & _) Ht] Hne.
  assert (Lp : sum_list_with n_hp (pool c) <= sum_list_with n_hw (pool c)).
  { apply sum_le. eapply Forall_impl; [exact Ht|]. intros th Hth.
    destruct (twf_local v th Hth) as (L & _). unfold n_hp, n_hw.
    destruct (hp (own th)); [rewrite (L eq_refl); lia | simpl; lia]. }
  assert (Lx : sum_list_with n_hx (pool c) <= sum_list_with n_hw (pool c)).
  { apply sum_le. eapply Forall_impl; [exact Ht|]. intros th Hth.
    destruct (twf_local v th Hth) as (_ & L & _). unfold n_hx, n_hw.
    destruct (hx (own th)); [rewrite (L eq_refl); lia | simpl; lia]. }
  destruct (held (w (mo c))); [reflexivity|]. simpl in Hw.
  destruct (writer (r (mo c))); [congruence | lia | lia].
Qed.

(** Each goroutine has finished, can move, waits for the holder of [w],
    or holds [w] and waits for a reader. *)
Lemma disciplined_step_cases (v : variant) (c : config) (j : nat) (tj : goroutine) :
  Inv v c -> dwf tj -> pool c !! j = Some tj ->
  (finished tj = true /\ hw (own tj) = false /\ nr (own tj) = 0) \/
  is_done (step v j c) = true \/
  (hw (own tj) = false /\ nr (own tj) = 0 /\ held (w (mo c)) = true) \/
  (hw (own tj) = true /\ 0 < sum_list_with n_nr (delete j (pool c))).
Proof.
  intros HI Hd Hj. pose proof HI as [(Hw & Hp & Hx & Hs & Hg & Hr) Ht].
  pose proof (proj1 (Forall_lookup _ _) Ht j tj Hj) as Htj.
  unfold step. rewrite Hj.
  destruct (frame tj) as [[o [|s ss]]|] eqn:Hfr.
  - right; left; reflexivity.
  - pose proof (dwf_holds_at v tj o s ss Htj Hd Hfr) as Hat.
    assert (Hin : tj ∈ pool c) by (apply list_elem_of_lookup; eauto).
    pose proof (sum_list_with_in _ n_hs _ Hin) as Ls. unfold n_hs at 1 in Ls.
    pose proof (sum_list_with_in _ n_hg _ Hin) as Lg. unfold n_hg at 1 in Lg.
    destruct s; simpl in Hat; simpl.
    + destruct Hat as [Hwj Hnj]. unfold Mutex_Lock.
      destruct (held (w (mo c))); [right; right; left; auto | right; left; reflexivity].
    + destruct (holder_view v c j tj HI Hj Hat) as (Hh & _).
      unfold Mutex_Unlock. rewrite Hh. right; left; reflexivity.
    + destruct Hat as (Hwj & Hpj & Hxj).
      destruct (holder_view v c j tj HI Hj Hwj) as (_ & Hwr & _).
      rewrite Hxj, Hpj in Hwr. unfold RWMutex_announce. rewrite Hwr.
      right; left; reflexivity.
    + destruct Hat as (Hwj & Hpj & Hxj & Hdj & Hnj).
      destruct (holder_view v c j tj HI Hj Hwj) as (_ & Hwr & Hrd & _).
      rewrite Hxj, Hpj in Hwr. rewrite Hdj, Hnj in Hrd. simpl in Hrd.
      unfold RWMutex_acquire. rewrite Hwr, Hrd.
      destruct (sum_list_with n_nr (delete j (pool c))) eqn:E.
      * right; left; reflexivity.
      * right; right; right. split; [assumption | lia].
    + destruct Hat as (Hwj & Hxj).
      destruct (holder_view v c j tj HI Hj Hwj) as (_ & Hwr & _).
      rewrite Hxj in Hwr. unfold RWMutex_Unlock. rewrite Hwr.
      right; left; reflexivity.
    + unfold RWMutex_RLock. destruct Hat as [(Hwj & Hpj & Hxj) | (Hwj & Hnj)].
      * destruct (holder_view v c j tj HI Hj Hwj) as (_ & Hwr & _).
        rewrite Hxj, Hpj in Hwr. rewrite Hwr. right; left; reflexivity.
      * destruct (writer (r (mo c))) eqn:Hwr; [right; left; reflexivity | |];
          right; right; left; repeat split; try assumption;
          apply (writer_holds_w v c HI); congruence.
    + unfold RWMutex_RUnlock. rewrite Hs in Ls.
      destruct (readers (r (mo c))); [lia | right; left; reflexivity].
    + destruct Hat as (Hwj & Hgj).
      destruct (holder_view v c j tj HI Hj Hwj) as (_ & _ & _ & Hgv).
      unfold Mutex_Lock. rewrite Hgv, Hgj. right; left; reflexivity.
    + destruct Hat as (Hwj & Hgj).
      destruct (holder_view v c j tj HI Hj Hwj) as (_ & _ & _ & Hgv).
      unfold Mutex_Unlock. rewrite Hgv, Hgj. right; left; reflexivity.
  - destruct (cont tj) as [|[o| |] k] eqn:Hk.
    + left. assert (Hf : finished tj = true) by (unfold finished; rewrite Hfr, Hk; reflexivity).
      split; [exact Hf|]. apply (dwf_finished v tj Htj Hd Hf).
    + right; left; reflexivity.
    + right; left; reflexivity.
    + right; left; reflexivity.
Qed.

Lemma delete_lookup_orig {A} (l : list A) :
  forall (i k : nat) (x : A), delete i l !! k = Some x ->
    exists k', l !! k' = Some x /\ k' <> i.
Proof.
  induction l as [|a l IH]; intros [|i] k x H; simpl in H; try discriminate.
  - exists (S k). split; [exact H | discriminate].
  - destruct k as [|k]; simpl in H.
    + exists 0. split; [exact H | discriminate].
    + destruct (IH i k x H) as (k' & Hk & Hne). exists (S k'). split; [exact Hk | congruence].
Qed.

(** While a goroutine has not finished, some goroutine can move. *)
Lemma disciplined_progress (v : variant) (c : config) :
  Inv v c -> Forall dwf (pool c) -> all_finished c = false ->
  exists i, is_done (step v i c) = true.
Proof.
  intros HI HD Hnf.
  assert (Hreader : forall j tj, pool c !! j = Some tj -> hw (own tj) = true ->
            0 < sum_list_with n_nr (delete j (pool c)) ->
            exists i, is_done (step v i c) = true).
  { intros j tj Hj Hwj Hpos.
    destruct (sum_pos_elem n_nr _ Hpos) as (k & tk & Hk & Hnk).
    destruct (delete_lookup_orig _ _ _ _ Hk) as (k' & Hk' & Hne).
    destruct (others_hold_nothing v c j k' tj tk HI Hj Hwj Hk' Hne) as (Hwk & _).
    unfold n_nr in Hnk.
    destruct (disciplined_step_cases v c k' tk HI
                (proj1 (Forall_lookup _ _) HD k' tk Hk') Hk')
      as [(_ & _ & Hz) | [Hen | [(_ & Hz & _) | (Hw' & _)]]].
    - lia.
    - exists k'. assumption.
    - lia.
    - congruence. }
  destruct (not_all_finished c Hnf) as (j & tj & Hj & Hfj).
  destruct (disciplined_step_cases v c j tj HI (proj1 (Forall_lookup _ _) HD j tj Hj) Hj)
    as [(Hf & _) | [Hen | [(Hwj & _ & Hheld) | (Hwj & Hpos)]]].
  - congruence.
  - exists j. assumption.
  - pose proof HI as [(Hw & _) _]. rewrite Hheld in Hw. simpl in Hw.
    destruct (sum_pos_elem n_hw (pool c)) as (i & ti & Hi & Hpos); [lia|].
    assert (Hwi : hw (own ti) = true).
    { unfold n_hw in Hpos. destruct (hw (own ti)); [reflexivity | simpl in Hpos; lia]. }
    destruct (disciplined_step_cases v c i ti HI (proj1 (Forall_lookup _ _) HD i ti Hi) Hi)
      as [(_ & Hf & _) | [Hen | [(Hf & _) | (_ & Hpos')]]].
    + congruence.
    + exists i. assumption.
    + congruence.
    + apply (Hreader i ti Hi Hwi Hpos').
  - apply (Hreader j tj Hj Hwj Hpos).
Qed.

Lemma run_measure (v : variant) (sched : list nat) :
  forall c0 c, run_schedule v sched c0 = Done c ->
               length sched + measure v c = measure v c0.
Proof.
  induction sched as [|i sched IH]; simpl; intros c0 c Hrun.
  - injection Hrun as <-. reflexivity.
  - apply bind_done in Hrun as (c1 & Hstep & Hrun).
    pose proof (step_decreases v i c0 c1 Hstep). pose proof (IH c1 c Hrun). lia.
Qed.

Lemma disciplined_completes (v : variant) (n : nat) :
  forall c, measure v c = n -> Inv v c -> Forall dwf (pool c) ->
  exists sched c', run_schedule v sched c = Done c' /\ all_finished c' = true.
Proof.
  induction n as [|n IH]; intros c Hm HI HD.
  - destruct (all_finished c) eqn:Hf.
    + exists [], c. split; [reflexivity | assumption].
    + destruct (disciplined_progress v c HI HD Hf) as (i & Hen).
      destruct (step v i c) as [c1| |] eqn:Hstep; try discriminate.
      pose proof (step_decreases v i c c1 Hstep). lia.
  - destruct (all_finished c) eqn:Hf.
    + exists [], c. split; [reflexivity | assumption].
    + destruct (disciplined_progress v c HI HD Hf) as (i & Hen).
      destruct (step v i c) as [c1| |] eqn:Hstep; try discriminate.
      pose proof (step_decreases v i c c1 Hstep) as Hdec.
      destruct (IH c1) as (sched & c' & Hrun & Hfin).
      * lia.
      * eapply Inv_step; eassumption.
      * eapply dwf_step; eassumption.
      * exists (i :: sched), c'. simpl. rewrite Hstep. simpl. split; assumption.
Qed.

(** X12. Goroutines that keep to the requirements and never wait for
    themselves never deadlock.  If every call of every goroutine is safe
    ([Lock] with nothing held, [Promote] with no [RLock] of its own
    outstanding, [RLock] while demoted or with nothing held) and every
    goroutine ends with nothing held, then under any interleaving: no
    step is fatal; while a goroutine has not finished some goroutine can
    move; a run has at most as many steps as the goroutines have to make
    in all; and some schedule leads to the end. *)
Theorem disciplined_goroutines_never_deadlock
    (v : variant) (ps : list (list instr)) (sched : list nat) (c : config) :
  forallb disciplined_prog ps = true ->
  run_schedule v sched (spawn ps) = Done c ->
  (forall i, is_fatal (step v i c) = false) /\
  (all_finished c = false -> exists i, is_done (step v i c) = true) /\
  length sched + measure v c = measure v (spawn ps) /\
  (exists sched' c', run_schedule v sched' c = Done c' /\ all_finished c' = true).
Proof.
  intros Hps Hrun.
  pose proof (legal_programs_Inv v ps sched c (disciplined_progs_legal ps Hps) Hrun) as HI.
  pose proof (dwf_reachable v ps sched Hps c Hrun) as HD.
  split; [|split; [|split]].
  - intros i. apply legal_never_fatal. assumption.
  - apply disciplined_progress; assumption.
  - apply run_measure. assumption.
  - eapply disciplined_completes; eauto.
Qed.

Lemma disciplined_goroutines_never_deadlock_witness :
  forallb disciplined_prog sample_disciplined = true /\
  run_schedule guarded sample_disciplined_schedule (spawn sample_disciplined)
    = Done sample_disciplined_config /\
  all_finished sample_disciplined_config = false /\
  exists i, is_done (step guarded i sample_disciplined_config) = true.
Proof.
  split; [reflexivity|]. split; [reflexivity|]. split; [reflexivity|].
  apply (disciplined_goroutines_never_deadlock guarded sample_disciplined
           sample_disciplined_schedule sample_disciplined_config);
    reflexivity.
Defined.

(** A second [RLock] by a goroutine that holds one is legal but not
    safe: with a writer in between, both wait for ever. *)
Lemma recursive_RLock_can_deadlock (v : variant) :
  forallb legal_prog sample_rereader = true /\
  forallb disciplined_prog sample_rereader = false /\
  exists c, run_schedule v sample_stuck_schedule (spawn sample_rereader) = Done c /\
            all_finished c = false /\
            forall i, step v i c = Blocks.
Proof.
  split; [reflexivity|]. split; [reflexivity|].
  destruct v; (eexists; split; [reflexivity|]; split; [reflexivity|];
               intros [|[|i]]; reflexivity).
Qed.

(** ** Critical sections *)

(** X13. The critical sections exclude one another as those of a
    readers-writer lock must.  In any state that goroutines running
    legal programs reach, take two goroutines that are between two calls:
    if one holds the lock for writing (after [Lock] or [Promote]), the
    other holds nothing, neither for writing nor for reading, and the
    writer holds no [RLock] slot either; if one holds the lock demoted,
    the other does not hold it for writing or demoted (it may hold it for
    reading). *)
Theorem writers_exclude_everyone
    (v : variant) (ps : list (list instr)) (sched : list nat)
    (c : config) (i j : nat) (ti tj : goroutine) :
  forallb legal_prog ps = true ->
  run_schedule v sched (spawn ps) = Done c ->
  pool c !! i = Some ti -> pool c !! j = Some tj -> i <> j ->
  frame ti = None -> frame tj = None ->
  (mode (st ti) = WriteLocked ->
     mode (st tj) = Unlocked /\ rlocks (st tj) = 0 /\ rlocks (st ti) = 0) /\
  (mode (st ti) = WriteLockedDemoted -> mode (st tj) = Unlocked).
Proof.
  intros Hps Hrun Hi Hj Hne Hfi Hfj.
  pose proof (legal_programs_Inv v ps sched c Hps Hrun) as HI.
  pose proof HI as [(Hw & Hp & Hx & Hs & Hg & Hr) Ht].
  pose proof (twf_boundary v ti (proj1 (Forall_lookup _ _) Ht i ti Hi) Hfi) as Oi.
  pose proof (twf_boundary v tj (proj1 (Forall_lookup _ _) Ht j tj Hj) Hfj) as Oj.
  assert (Hother : hw (own ti) = true -> mode (st tj) = Unlocked).
  { intros Hwi.
    destruct (others_hold_nothing v c i j ti tj HI Hi Hwi Hj) as (Hwj & _); [congruence|].
    rewrite Oj in Hwj. simpl in Hwj.
    destruct (mode (st tj)); [reflexivity | discriminate | discriminate]. }
  split.
  - intros Hm.
    assert (Hwi : hw (own ti) = true) by (rewrite Oi; simpl; rewrite Hm; reflexivity).
    assert (Hxi : hx (own ti) = true) by (rewrite Oi; simpl; rewrite Hm; reflexivity).
    assert (Ini : ti ∈ pool c) by (apply list_elem_of_lookup; eauto).
    assert (Inj : tj ∈ pool c) by (apply list_elem_of_lookup; eauto).
    pose proof (sum_list_with_in _ n_hx _ Ini) as Lx. unfold n_hx at 1 in Lx.
    rewrite Hxi in Lx. simpl in Lx.
    assert (Hheld : writer (r (mo c)) = WHeld)
      by (destruct (writer (r (mo c))); [lia | lia | reflexivity]).
    specialize (Hr Hheld).
    pose proof (sum_list_with_in _ n_hs _ Ini) as Li. unfold n_hs at 1 in Li.
    pose proof (sum_list_with_in _ n_hs _ Inj) as Lj. unfold n_hs at 1 in Lj.
    rewrite Oi in Li. rewrite Oj in Lj. simpl in Li, Lj.
    split; [apply Hother; assumption|]. split; lia.
  - intros Hm. apply Hother. rewrite Oi. simpl. rewrite Hm. reflexivity.
Qed.

Lemma writers_exclude_everyone_witness :
  forallb legal_prog sample_programs = true /\
  run_schedule guarded sample_schedule (spawn sample_programs) = Done sample_config /\
  pool sample_config !! 0 = Some sample_writer /\
  pool sample_config !! 1 = Some sample_reader /\
  mode (st sample_writer) = WriteLockedDemoted /\
  mode (st sample_reader) = Unlocked.
Proof.
  split; [reflexivity|]. split; [reflexivity|]. split; [reflexivity|].
  split; [reflexivity|]. split; [reflexivity|].
  apply (writers_exclude_everyone guarded sample_programs sample_schedule sample_config
           0 1 sample_writer sample_reader);
    first [reflexivity | discriminate].
Defined.
